(** * Cluster-context identity and caching: canonical names, context store,
      stateless kubeconfig registry.

    Shallow embedding of
    - [MakeDNSFriendly], [truncateParts], [isAlphanumeric] and the
      [contextStore] methods (Go, package kubeconfig),
    - [makeDNSFriendly], [validateContextName],
      [configWithSelectedClusters] and the selection of contexts
      (TypeScript, KubeConfigLoader.tsx),
    - [isValidVersion] and [validateVersions] (JavaScript,
      config-validator.js),
    together with the properties stated about them. *)

From Stdlib Require Import ZArith Ascii String Lia.
From stdpp Require Import base option list gmap strings.

Local Open Scope Z_scope.

(* ===================================================================== *)
(** ** String primitives shared by both implementations

    A Go [string] is a sequence of bytes, a JavaScript string a sequence of
    UTF-16 code units.  The primitives below are written once over an
    arbitrary element type with decidable equality. *)
(* ===================================================================== *)

Module Str.
Section Primitives.
Context {A : Type} `{EqDecision A}.
Implicit Types (s old new sep sub p : list A) (parts : list (list A)).

(** [strings.HasPrefix(s, p)] / [s.startsWith(p)]. *)
Fixpoint hasPrefix p s : bool :=
  match p, s with
  | [], _ => true
  | _ :: _, [] => false
  | a :: p', b :: s' => bool_decide (a = b) && hasPrefix p' s'
  end.

(** [strings.Contains(s, sub)] / [s.includes(sub)]. *)
Fixpoint contains sub s : bool :=
  hasPrefix sub s ||
  match s with
  | [] => false
  | _ :: s' => contains sub s'
  end.

(** Left-to-right scan for non-overlapping occurrences of a non-empty
    [sub]; [skip] counts the elements of the occurrence just matched that
    are still to be stepped over. *)
Fixpoint countFrom sub (skip : nat) s : nat :=
  match s with
  | [] => O
  | _ :: s' =>
      match skip with
      | S k => countFrom sub k s'
      | O => if hasPrefix sub s
             then S (countFrom sub (length sub - 1) s')
             else countFrom sub O s'
      end
  end.

(** [strings.Count(s, sub)] for a non-empty [sub]. *)
Definition count sub s : nat := countFrom sub O s.

Fixpoint replaceFrom old new (skip : nat) s : list A :=
  match s with
  | [] => []
  | c :: s' =>
      match skip with
      | S k => replaceFrom old new k s'
      | O => if hasPrefix old s
             then new ++ replaceFrom old new (length old - 1) s'
             else c :: replaceFrom old new O s'
      end
  end.

(** [strings.ReplaceAll(s, old, new)] for a non-empty [old]: every
    non-overlapping occurrence, leftmost first. *)
Definition replaceAll s old new : list A := replaceFrom old new O s.

Fixpoint splitFrom sep (skip : nat) s : list (list A) :=
  match s with
  | [] => [[]]
  | c :: s' =>
      match skip with
      | S k => splitFrom sep k s'
      | O => if hasPrefix sep s
             then [] :: splitFrom sep (length sep - 1) s'
             else match splitFrom sep O s' with
                  | part :: rest => (c :: part) :: rest
                  | [] => [[c]]
                  end
      end
  end.

(** [strings.Split(s, sep)] / [s.split(sep)] for a non-empty [sep]. *)
Definition split s sep : list (list A) := splitFrom sep O s.

(** [strings.Join(parts, sep)] / [parts.join(sep)]. *)
Fixpoint join parts sep : list A :=
  match parts with
  | [] => []
  | [part] => part
  | part :: rest => part ++ sep ++ join rest sep
  end.

(** Leading, then trailing, elements satisfying [cut] removed
    ([strings.Trim] with a cutset, [replace(/^-+|-+$/g, '')]). *)
Fixpoint trimLeft (cut : A -> bool) s : list A :=
  match s with
  | [] => []
  | c :: s' => if cut c then trimLeft cut s' else s
  end.

Fixpoint trimRight (cut : A -> bool) s : list A :=
  match s with
  | [] => []
  | c :: s' =>
      match trimRight cut s' with
      | [] => if cut c then [] else [c]
      | r => c :: r
      end
  end.

Definition trim (cut : A -> bool) s : list A := trimRight cut (trimLeft cut s).

(** Every maximal run of [d] reduced to one [d]; [inRun] tells that the
    previous element was a [d]. *)
Fixpoint squeezeFrom (d : A) (inRun : bool) s : list A :=
  match s with
  | [] => []
  | x :: rest =>
      if decide (x = d)
      then if inRun then squeezeFrom d true rest else x :: squeezeFrom d true rest
      else x :: squeezeFrom d false rest
  end.
Definition squeeze (d : A) s : list A := squeezeFrom d false s.

(** *** One-element patterns

    What replacing every [c] by [new] does to one element, and what a
    whole table of such replacements does to it: the replacement of the
    first pattern that is this element, the element itself if there is
    none. *)
Definition substOne (c : A) new (x : A) : list A :=
  if decide (x = c) then new else [x].

Fixpoint substTable (tbl : list (list A * list A)) (x : A) : list A :=
  match tbl with
  | [] => [x]
  | (old, new) :: tbl' => if decide (old = [x]) then new else substTable tbl' x
  end.

(** Every pattern is one element long. *)
Definition singleChars (tbl : list (list A * list A)) : Prop :=
  Forall (fun entry => length entry.1 = 1%nat) tbl.

(** No pattern element occurs in any replacement text. *)
Definition closedTable (tbl : list (list A * list A)) : Prop :=
  forall entry y, entry ∈ tbl -> y ∈ entry.2 -> [y] ∉ tbl.*1.
End Primitives.
End Str.

(* ===================================================================== *)
(** ** Regular expressions

    Both implementations test the name against the anchored pattern
    [^gke_[a-z0-9-]+_[a-z0-9-]+_[a-z0-9-]+$].  Without the multi-line flag
    [^] and [$] match only at the two ends of the text, in Go's regexp as in
    JavaScript, so the test is a whole-string match of the pattern's body,
    decided here by Brzozowski derivatives. *)
(* ===================================================================== *)

Module Regex.
Section Regex.
Context {A : Type}.

Inductive regex : Type :=
  | Void
  | Eps
  | Class (p : A -> bool)
  | Seq (r1 r2 : regex)
  | Alt (r1 r2 : regex)
  | Star (r : regex).

(** [r+] *)
Definition Plus (r : regex) : regex := Seq r (Star r).

Fixpoint nullable (r : regex) : bool :=
  match r with
  | Void => false
  | Eps => true
  | Class _ => false
  | Seq r1 r2 => nullable r1 && nullable r2
  | Alt r1 r2 => nullable r1 || nullable r2
  | Star _ => true
  end.

Fixpoint deriv (a : A) (r : regex) : regex :=
  match r with
  | Void => Void
  | Eps => Void
  | Class p => if p a then Eps else Void
  | Seq r1 r2 =>
      if nullable r1
      then Alt (Seq (deriv a r1) r2) (deriv a r2)
      else Seq (deriv a r1) r2
  | Alt r1 r2 => Alt (deriv a r1) (deriv a r2)
  | Star r1 => Seq (deriv a r1) (Star r1)
  end.

(** Whole-string match. *)
Fixpoint fullmatch (r : regex) (s : list A) : bool :=
  match s with
  | [] => nullable r
  | a :: s' => fullmatch (deriv a r) s'
  end.

(** The language of a regular expression. *)
Inductive lang : regex -> list A -> Prop :=
  | lang_eps : lang Eps []
  | lang_class p a : p a = true -> lang (Class p) [a]
  | lang_seq r1 r2 s1 s2 : lang r1 s1 -> lang r2 s2 -> lang (Seq r1 r2) (s1 ++ s2)
  | lang_alt_l r1 r2 s : lang r1 s -> lang (Alt r1 r2) s
  | lang_alt_r r1 r2 s : lang r2 s -> lang (Alt r1 r2) s
  | lang_star_nil r : lang (Star r) []
  | lang_star_app r s1 s2 : lang r s1 -> lang (Star r) s2 -> lang (Star r) (s1 ++ s2).

(** A literal string. *)
Fixpoint Lit `{EqDecision A} (s : list A) : regex :=
  match s with
  | [] => Eps
  | c :: s' => Seq (Class (fun a => bool_decide (a = c))) (Lit s')
  end.
End Regex.
Global Arguments regex : clear implicits.

(** Two regular expressions of the same shape whose classes agree along
    a map [f] between alphabets. *)
Inductive regexRel {A B : Type} (f : A -> B) : regex A -> regex B -> Prop :=
| rel_void : regexRel f Void Void
| rel_eps : regexRel f Eps Eps
| rel_class p p' : (forall a, p' (f a) = p a) -> regexRel f (Class p) (Class p')
| rel_seq r1 r2 r1' r2' :
    regexRel f r1 r1' -> regexRel f r2 r2' -> regexRel f (Seq r1 r2) (Seq r1' r2')
| rel_alt r1 r2 r1' r2' :
    regexRel f r1 r1' -> regexRel f r2 r2' -> regexRel f (Alt r1 r2) (Alt r1' r2')
| rel_star r r' : regexRel f r r' -> regexRel f (Star r) (Star r').
End Regex.

(* ===================================================================== *)
(** ** Server side (Go, package kubeconfig) *)
(* ===================================================================== *)

Module Go.

(** A Go string: its bytes. *)
Abbreviation gostring := (list ascii).

(** String literal. *)
Definition str (s : string) : gostring := list_ascii_of_string s.

(** Numeric value of a byte, and of a character literal as a rune. *)
Definition byteval (c : ascii) : Z := Z.of_N (N_of_ascii c).
Definition byte_of (z : Z) : ascii := ascii_of_N (Z.to_N z).
Definition chr (c : ascii) : Z := byteval c.
Global Arguments chr c%_char.

Global Instance byteval_Inj : Inj (=) (=) byteval.
Proof.
  intros c1 c2 Heq. unfold byteval in Heq.
  rewrite <- (ascii_N_embedding c1), <- (ascii_N_embedding c2). f_equal. lia.
Qed.

(** The character constants of the sources, as numbers. *)
Ltac chr_values :=
  change (chr "a") with 97 in *; change (chr "z") with 122 in *;
  change (chr "A") with 65 in *; change (chr "Z") with 90 in *;
  change (chr "0") with 48 in *; change (chr "9") with 57 in *;
  change (chr "-") with 45 in *.

(** *** unicode/utf8 and strings.Map (Go standard library) *)

Definition RuneError : Z := 0xFFFD.

Definition inRange (lo hi b : Z) : bool := (lo <=? b) && (b <=? hi).

(** Tables [first] and [acceptRanges] of unicode/utf8: the length of the
    sequence a lead byte announces, and the accepted range of its second
    byte. *)
Definition leadInfo (b0 : Z) : option (nat * Z * Z) :=
  if inRange 0xC2 0xDF b0 then Some (2%nat, 0x80, 0xBF)
  else if b0 =? 0xE0 then Some (3%nat, 0xA0, 0xBF)
  else if inRange 0xE1 0xEC b0 then Some (3%nat, 0x80, 0xBF)
  else if b0 =? 0xED then Some (3%nat, 0x80, 0x9F)
  else if inRange 0xEE 0xEF b0 then Some (3%nat, 0x80, 0xBF)
  else if b0 =? 0xF0 then Some (4%nat, 0x90, 0xBF)
  else if inRange 0xF1 0xF3 b0 then Some (4%nat, 0x80, 0xBF)
  else if b0 =? 0xF4 then Some (4%nat, 0x80, 0x8F)
  else None.

(** [utf8.DecodeRuneInString]: the first rune of [s] and its width in
    bytes; an invalid or truncated sequence is [(RuneError, 1)]. *)
Definition decodeRune (s : gostring) : Z * nat :=
  match s with
  | [] => (RuneError, 0%nat)
  | c0 :: t0 =>
      let s0 := byteval c0 in
      if s0 <? 0x80 then (s0, 1%nat)
      else
        match leadInfo s0, t0 with
        | Some (sz, lo, hi), c1 :: t1 =>
            let s1 := byteval c1 in
            if negb (inRange lo hi s1) then (RuneError, 1%nat)
            else if (sz <=? 2)%nat
            then (Z.lor (Z.shiftl (Z.land s0 0x1F) 6) (Z.land s1 0x3F), 2%nat)
            else
              match t1 with
              | c2 :: t2 =>
                  let s2 := byteval c2 in
                  if negb (inRange 0x80 0xBF s2) then (RuneError, 1%nat)
                  else if (sz <=? 3)%nat
                  then (Z.lor (Z.shiftl (Z.land s0 0x0F) 12)
                          (Z.lor (Z.shiftl (Z.land s1 0x3F) 6) (Z.land s2 0x3F)),
                        3%nat)
                  else
                    match t2 with
                    | c3 :: _ =>
                        let s3 := byteval c3 in
                        if negb (inRange 0x80 0xBF s3) then (RuneError, 1%nat)
                        else (Z.lor (Z.shiftl (Z.land s0 0x07) 18)
                                (Z.lor (Z.shiftl (Z.land s1 0x3F) 12)
                                   (Z.lor (Z.shiftl (Z.land s2 0x3F) 6)
                                      (Z.land s3 0x3F))),
                              4%nat)
                    | [] => (RuneError, 1%nat)
                    end
              | [] => (RuneError, 1%nat)
              end
        | _, _ => (RuneError, 1%nat)
        end
  end.

(** [utf8.AppendRune]: the UTF-8 encoding of a rune; runes out of range
    and surrogates are encoded as [RuneError]. *)
Definition encode3 (r : Z) : gostring :=
  [byte_of (Z.lor 0xE0 (Z.shiftr r 12));
   byte_of (Z.lor 0x80 (Z.land (Z.shiftr r 6) 0x3F));
   byte_of (Z.lor 0x80 (Z.land r 0x3F))].

Definition encodeRune (r : Z) : gostring :=
  if inRange 0 0x7F r then [byte_of r]
  else if inRange 0x80 0x7FF r then
    [byte_of (Z.lor 0xC0 (Z.shiftr r 6));
     byte_of (Z.lor 0x80 (Z.land r 0x3F))]
  else if inRange 0x800 0xD7FF r || inRange 0xE000 0xFFFF r then encode3 r
  else if inRange 0x10000 0x10FFFF r then
    [byte_of (Z.lor 0xF0 (Z.shiftr r 18));
     byte_of (Z.lor 0x80 (Z.land (Z.shiftr r 12) 0x3F));
     byte_of (Z.lor 0x80 (Z.land (Z.shiftr r 6) 0x3F));
     byte_of (Z.lor 0x80 (Z.land r 0x3F))]
  else encode3 RuneError.

(** The UTF-8 encoding of a sequence of code points. *)
Definition utf8 (cps : list Z) : gostring := cps ≫= encodeRune.

Fixpoint MapFrom (mapping : Z -> Z) (skip : nat) (s : gostring) : gostring :=
  match s with
  | [] => []
  | _ :: s' =>
      match skip with
      | S k => MapFrom mapping k s'
      | O =>
          let '(c, width) := decodeRune s in
          let r := mapping c in
          (if r <? 0 then [] else encodeRune r)
            ++ MapFrom mapping (width - 1) s'
      end
  end.

(** [strings.Map(mapping, s)]: [mapping] applied to every rune of [s], as
    [range s] decodes them; a negative result drops the rune. *)
Definition Map (mapping : Z -> Z) (s : gostring) : gostring :=
  MapFrom mapping O s.

(** [unicode.ToLower] on its ASCII fast path, the only one reached here
    (it is called for ['A'..'Z'] only). *)
Definition unicode_ToLower (r : Z) : Z :=
  if inRange (chr "A") (chr "Z") r then r + (chr "a" - chr "A") else r.

(** *** kubeconfig: MakeDNSFriendly *)

(** Modelled from the spec: the constant [MaxDNSLabelLength] is declared
    outside the file that holds [MakeDNSFriendly]; the DNS label limit is
    63 (the client declares [MAX_DNS_LABEL_LENGTH = 63]). *)
Definition MaxDNSLabelLength : Z := 63.

(** [len(s)] *)
Definition len {A} (s : list A) : Z := Z.of_nat (length s).

Definition isAlphanumeric (r : Z) : bool :=
  ((chr "a" <=? r) && (r <=? chr "z"))
  || ((chr "A" <=? r) && (r <=? chr "Z"))
  || ((chr "0" <=? r) && (r <=? chr "9")).

(** [s[:1]]; slicing past the end of a string panics. *)
Definition slice1 (s : gostring) : option gostring :=
  match s with
  | [] => None
  | c :: _ => Some [c]
  end.

(** [None] is a run-time panic. *)
Definition truncateParts (parts : list gostring) (maxLength : Z) : option gostring :=
  if bool_decide (len parts = 0) then Some []
  else
    let targetLen := Z.quot (maxLength - (len parts - 1)) (len parts) in
    if targetLen <? 1 then
      first ← parts !! 0%nat ≫= slice1;
      last ← parts !! (length parts - 1)%nat ≫= slice1;
      Some (first ++ str "-" ++ last)
    else
      let parts :=
        (fun part => if len part >? targetLen
                     then take (Z.to_nat targetLen) part else part) <$> parts in
      Some (Str.join parts (str "-")).

(** The body of [^gke_[a-z0-9-]+_[a-z0-9-]+_[a-z0-9-]+$]. *)
Definition gkeSegmentChar (c : ascii) : bool :=
  inRange (chr "a") (chr "z") (byteval c) || inRange (chr "0") (chr "9") (byteval c)
  || bool_decide (c = "-"%char).

Definition gkePattern : Regex.regex ascii :=
  let segment := Regex.Plus (Regex.Class gkeSegmentChar) in
  let underscore := Regex.Lit (str "_") in
  Regex.Seq (Regex.Lit (str "gke_"))
    (Regex.Seq segment
       (Regex.Seq underscore
          (Regex.Seq segment
             (Regex.Seq underscore segment)))).

(** The replacement table, in the order of the source text.  It is a Go
    map, so the loop over it visits the pairs in an unspecified order:
    the functions below take the order of the visit as an argument. *)
Definition replacements : list (gostring * gostring) :=
  [ (str "/", str "-");
    (str " ", str "__");
    (str ":", str "-");
    (str "=", str "-eq-");
    (str "+", str "-plus-");
    (str ",", str "-");
    (str "@", str "-at-");
    (str "\", str "-");
    (str "(", str "-");
    (str ")", str "-");
    (str "*", str "-star-");
    (str ".", str "-") ].

(** [for old, new := range replacements { result = strings.ReplaceAll(result, old, new) }] *)
Definition applyReplacements (order : list (gostring * gostring)) (result : gostring)
  : gostring :=
  foldl (fun result '(old, new) => Str.replaceAll result old new) result order.

(** The function handed to [strings.Map]. *)
Definition sanitizeRune (r : Z) : Z :=
  if (chr "a" <=? r) && (r <=? chr "z") then r
  else if (chr "A" <=? r) && (r <=? chr "Z") then unicode_ToLower r
  else if (chr "0" <=? r) && (r <=? chr "9") then r
  else if r =? chr "-" then r
  else chr "-".

(** [for strings.Contains(result, "--") { result = strings.ReplaceAll(result, "--", "-") }];
    [None] when the loop has not finished within [fuel] iterations. *)
Fixpoint collapseLoop (fuel : nat) (result : gostring) : option gostring :=
  if Str.contains (str "--") result then
    match fuel with
    | O => None
    | S fuel' => collapseLoop fuel' (Str.replaceAll result (str "--") (str "-"))
    end
  else Some result.

Definition isHyphen (c : ascii) : bool := bool_decide (c = "-"%char).

(** Lines 154-192: the value of [result] when the length check is
    reached.  [None] is a panic (or an unfinished loop). *)
Definition cleanup (order : list (gostring * gostring)) (name : gostring)
  : option gostring :=
  let result := name in
  let result := applyReplacements order result in
  let result := Map sanitizeRune result in
  result ← collapseLoop (length result) result;
  let result := Str.trim isHyphen result in
  let result :=
    if match result with
       | [] => true
       | c :: _ => negb (isAlphanumeric (byteval c))
       end
    then str "x-" ++ result else result in
  lastByte ← last result;
  let result :=
    if negb (isAlphanumeric (byteval lastByte)) then result ++ str "-x" else result in
  Some result.

(** Lines 194-208. *)
Definition truncate (result : gostring) : option gostring :=
  if len result >? MaxDNSLabelLength then
    if Str.contains (str "-") result
    then truncateParts (Str.split result (str "-")) MaxDNSLabelLength
    else Some (take (Z.to_nat MaxDNSLabelLength) result)
  else Some result.

(** The GKE test of lines 131-136. *)
Definition isGKE (name : gostring) : bool :=
  Str.hasPrefix (str "gke_") name
  && (Z.of_nat (Str.count (str "_") name) >=? 3)
  && Regex.fullmatch gkePattern name.

Definition MakeDNSFriendlyWith (order : list (gostring * gostring)) (name : gostring)
  : option gostring :=
  if bool_decide (name = []) then Some (str "unnamed-context")
  else if isGKE name then Some name
  else
    result ← cleanup order name;
    result ← truncate result;
    if bool_decide (result = []) then Some (str "unnamed-context")
    else Some result.

Definition MakeDNSFriendly (name : gostring) : option gostring :=
  MakeDNSFriendlyWith replacements name.

End Go.


(* ===================================================================== *)
(** ** Client side (TypeScript, KubeConfigLoader.tsx) *)
(* ===================================================================== *)

Module JS.
Import Go.

(** A JavaScript string: its UTF-16 code units. *)
Abbreviation jsstring := (list Z).

(** String literal (ASCII). *)
Definition str (s : string) : jsstring := byteval <$> list_ascii_of_string s.

(** The UTF-16 encoding of a sequence of code points. *)
Definition encodeUnits (cp : Z) : jsstring :=
  if inRange 0x10000 0x10FFFF cp
  then [0xD800 + Z.shiftr (cp - 0x10000) 10; 0xDC00 + Z.land (cp - 0x10000) 0x3FF]
  else [cp].
Definition utf16 (cps : list Z) : jsstring := cps ≫= encodeUnits.

(** [String.prototype.toLowerCase].  ASCII letters are lowered; U+212A
    (KELVIN SIGN) and U+0130 (LATIN CAPITAL LETTER I WITH DOT ABOVE) are
    the code points outside ASCII whose lower-case mapping contains an
    ASCII letter ([k], and [i] followed by U+0307).  Every other code
    unit outside ASCII lowers to code units outside ASCII; they are left
    as they are here, since each of them is replaced by a hyphen in the
    next but one step and runs of hyphens are then collapsed. *)
Definition toLowerCaseUnit (u : Z) : jsstring :=
  if inRange (chr "A") (chr "Z") u then [u + (chr "a" - chr "A")]
  else if u =? 0x212A then [chr "k"]
  else if u =? 0x0130 then [chr "i"; 0x0307]
  else [u].
Definition toLowerCase (s : jsstring) : jsstring := s ≫= toLowerCaseUnit.

Definition MAX_DNS_LABEL_LENGTH : Z := 63.

(** Character classes [[a-z0-9]] and [[a-z0-9-]]. *)
Definition lowerAlnumUnit (u : Z) : bool :=
  inRange (chr "a") (chr "z") u || inRange (chr "0") (chr "9") u.
Definition labelUnit (u : Z) : bool :=
  lowerAlnumUnit u || bool_decide (u = chr "-").
Definition isHyphen (u : Z) : bool := bool_decide (u = chr "-").

(** The body of [/^gke_[a-z0-9-]+_[a-z0-9-]+_[a-z0-9-]+$/]. *)
Definition gkeRegex : Regex.regex Z :=
  let segment := Regex.Plus (Regex.Class labelUnit) in
  let underscore := Regex.Lit (str "_") in
  Regex.Seq (Regex.Lit (str "gke_"))
    (Regex.Seq segment
       (Regex.Seq underscore
          (Regex.Seq segment
             (Regex.Seq underscore segment)))).

(** [Object.entries(replacements)]: the keys are not array indices, so
    the entries come in the order of the object literal. *)
Definition replacements : list (jsstring * jsstring) :=
  [ (str "/", str "-");
    (str " ", str "__");
    (str ":", str "-");
    (str "=", str "-eq-");
    (str "+", str "-plus-");
    (str ",", str "-");
    (str "@", str "-at-");
    (str "\", str "-");
    (str "(", str "-");
    (str ")", str "-");
    (str "*", str "-star-");
    (str ".", str "-") ].

(** [entries.forEach(([old, replacement]) => { result = result.split(old).join(replacement) })] *)
Definition applyReplacements (entries : list (jsstring * jsstring)) (result : jsstring)
  : jsstring :=
  foldl (fun result '(old, replacement) => Str.join (Str.split result old) replacement)
    result entries.

(** [result.replace(/[^a-z0-9-]/g, '-')] *)
Definition sanitize (result : jsstring) : jsstring :=
  (fun u => if labelUnit u then u else chr "-") <$> result.

(** [result.replace(/-+/g, '-')]: every maximal run of hyphens becomes
    one hyphen; [inRun] tells that the previous code unit was a hyphen. *)
Fixpoint collapseFrom (inRun : bool) (result : jsstring) : jsstring :=
  match result with
  | [] => []
  | u :: rest =>
      if isHyphen u
      then if inRun then collapseFrom true rest else u :: collapseFrom true rest
      else u :: collapseFrom false rest
  end.
Definition collapse (result : jsstring) : jsstring := collapseFrom false result.

(** [/^[a-z0-9]/.test(s)] and [/[a-z0-9]$/.test(s)] *)
Definition startsAlnum (s : jsstring) : bool :=
  match head s with Some u => lowerAlnumUnit u | None => false end.
Definition endsAlnum (s : jsstring) : bool :=
  match last s with Some u => lowerAlnumUnit u | None => false end.

(** [parts[i]], with [undefined] never reached ([split] returns at least
    one part). *)
Definition part (parts : list jsstring) (i : nat) : jsstring :=
  default [] (parts !! i).

Definition truncate (result : jsstring) : jsstring :=
  if len result >? MAX_DNS_LABEL_LENGTH then
    if Str.contains (str "-") result then
      let parts := Str.split result (str "-") in
      (* Math.floor *)
      let targetLen := (MAX_DNS_LABEL_LENGTH - (len parts - 1)) / len parts in
      if targetLen >=? 1
      then Str.join (take (Z.to_nat targetLen) <$> parts) (str "-")
      else take 1 (part parts 0) ++ str "-" ++ take 1 (part parts (length parts - 1))
    else take (Z.to_nat MAX_DNS_LABEL_LENGTH) result
  else result.

(** The two [if] statements that make the name start and end with a
    letter or digit. *)
Definition ensureAlnumEnds (result : jsstring) : jsstring :=
  let result :=
    if bool_decide (result = []) || negb (startsAlnum result)
    then str "x-" ++ result else result in
  if negb (endsAlnum result) then result ++ str "-x" else result.

Definition isGKE (name : jsstring) : bool :=
  Str.hasPrefix (str "gke_") name
  && (len (Str.split name (str "_")) >=? 4)
  && Regex.fullmatch gkeRegex name.

Definition makeDNSFriendly (name : jsstring) : jsstring :=
  if bool_decide (name = []) then str "unnamed-context"
  else if isGKE name then name
  else
    let result := toLowerCase name in
    let result := applyReplacements replacements result in
    let result := sanitize result in
    let result := collapse result in
    let result := Str.trim isHyphen result in
    let result := ensureAlnumEnds result in
    let result := truncate result in
    if bool_decide (result = []) then str "unnamed-context" else result.

End JS.


(* ===================================================================== *)
(** ** The context store (Go, package kubeconfig, on package cache) *)
(* ===================================================================== *)

Module Store.
Import Go.

(** Go's [error] values met here. *)
Inductive error {JSONErr : Type} : Type :=
| ErrNotFound                 (* cache.ErrNotFound *)
| ErrJSON (e : JSONErr).      (* returned by encoding/json *)
Global Arguments error : clear implicits.

(** A Go result [(value, error)] or a bare [error]. *)
Inductive result {E A : Type} : Type :=
| Ok (a : A)
| Err (e : E).
Global Arguments result : clear implicits.

(** Modelled from the spec: the type [api.Context] (client-go), of which
    the store reads [Extensions]: "cluster ref, auth-info ref, arbitrary
    extension map". *)
Record KubeContextT {Object : Type} : Type := {
  ClusterRef : gostring;
  AuthInfoRef : gostring;
  Extensions : gmap gostring Object;   (* map[string]runtime.Object *)
}.
Global Arguments KubeContextT : clear implicits.

(** Modelled from the spec: the type [Context], declared outside the file
    that holds the store; the store reads and writes [Name] and reads
    [KubeContext]. *)
Record Context {Object : Type} : Type := {
  Name : gostring;
  OriginalName : gostring;
  KubeContext : option (KubeContextT Object);   (* *api.Context, may be nil *)
  Source : Z;
}.
Global Arguments Context : clear implicits.

(** Modelled from the spec: the type [CustomObject], declared outside the
    file that holds the store; it carries the [customName] of the
    [headlamp_info] extension. *)
Record CustomObject : Type := { CustomName : gostring }.

(** *** package cache

    Package cache is not part of the sources at hand; the store's methods
    call its [Set], [SetWithTTL], [Get], [GetAll] and [UpdateTTL].  Time is
    an integer count of nanoseconds, read from the clock at every call. *)

(** Modelled from the spec: [CacheEntry<V>] of package cache, "value plus
    optional absolute expiry instant; absent expiry = permanent". *)
Record entry {V : Type} : Type := {
  value : V;
  expiresAt : option Z;
}.
Global Arguments entry : clear implicits.

(** Modelled from the spec: the expiry test of package cache; an entry is
    inaccessible "once its expiry instant has passed". *)
Definition isExpired {V : Type} (now : Z) (e : entry V) : bool :=
  match expiresAt e with
  | Some t => t <? now
  | None => false
  end.

(** Modelled from the spec: [Set(key, value)] of package cache, "no
    expiry"; it overwrites what is stored under the key. *)
Definition cache_Set {V : Type} (key : gostring) (v : V) (c : gmap gostring (entry V))
  : gmap gostring (entry V) :=
  <[key := {| value := v; expiresAt := None |}]> c.

(** Modelled from the spec: [SetWithTTL(key, value, duration)] of package
    cache, "expires at now+duration". *)
Definition cache_SetWithTTL {V : Type} (now : Z) (key : gostring) (v : V) (ttl : Z)
    (c : gmap gostring (entry V)) : gmap gostring (entry V) :=
  <[key := {| value := v; expiresAt := Some (now + ttl) |}]> c.

(** Modelled from the spec: [Get(key) -> value | NotFound] of package
    cache; "an expired entry is treated as absent on any read path but is
    not proactively swept". *)
Definition cache_Get {V JSONErr : Type} (now : Z) (key : gostring) (c : gmap gostring (entry V))
  : result (error JSONErr) V :=
  match c !! key with
  | Some e => if isExpired now e then Err ErrNotFound else Ok (value e)
  | None => Err ErrNotFound
  end.

(** Modelled from the spec: [GetAll(filter?) -> mapping key->value] of
    package cache, which "excludes expired entries"; the store passes no
    filter. *)
Definition cache_GetAll {V : Type} (now : Z) (c : gmap gostring (entry V)) : gmap gostring V :=
  value <$> filter (fun kv => isExpired now kv.2 = false) c.

(** Modelled from the spec: [UpdateTTL(key, duration)] of package cache,
    "NotFound if key absent, else resets expiry to now+duration". *)
Definition cache_UpdateTTL {V JSONErr : Type} (now : Z) (key : gostring) (ttl : Z)
    (c : gmap gostring (entry V))
  : result (error JSONErr) unit * gmap gostring (entry V) :=
  match c !! key with
  | Some e => (Ok (), <[key := {| value := value e; expiresAt := Some (now + ttl) |}]> c)
  | None => (Err ErrNotFound, c)
  end.

(** *** contextStore

    The store holds [*Context] pointers and [AddContext] writes through
    the pointer it is given: the contexts live in a heap shared with the
    callers.  An operation yields [None] when it panics. *)
Abbreviation ptr := positive.

Record State {Object : Type} : Type := {
  heap : gmap ptr (Context Object);
  cache : gmap gostring (entry ptr);
}.
Global Arguments State : clear implicits.

Section ContextStore.
Context {Object JSONErr : Type}.
(** [json.Marshal] on the extension object and [json.Unmarshal] into a
    [CustomObject] (encoding/json, outside the repository). *)
Variable json_Marshal : Object -> result JSONErr gostring.
Variable json_Unmarshal : gostring -> result JSONErr CustomObject.

Definition setName (name : gostring) (ctx : Context Object) : Context Object :=
  {| Name := name; OriginalName := OriginalName ctx;
     KubeContext := KubeContext ctx; Source := Source ctx |}.

(** [headlampContext.KubeContext.Extensions["headlamp_info"]], [None]
    when [KubeContext] is nil or the map has no (non-nil) entry. *)
Definition headlampInfo (ctx : Context Object) : option Object :=
  kubeContext ← KubeContext ctx;
  Extensions kubeContext !! str "headlamp_info".

(** [json.Marshal(info)] followed by [json.Unmarshal(unknownBytes, &customObj)]. *)
Definition decodeInfo (info : Object) : result JSONErr CustomObject :=
  match json_Marshal info with
  | Err err => Err err
  | Ok unknownBytes => json_Unmarshal unknownBytes
  end.

(** Lines 41-63 of [AddContext]: the name handed to
    [MakeDNSFriendly], or the error returned early. *)
Definition effectiveName (ctx : Context Object) : result JSONErr gostring :=
  let name := Name ctx in
  match headlampInfo ctx with
  | Some info =>
      match decodeInfo info with
      | Err err => Err err
      | Ok customObj =>
          if bool_decide (CustomName customObj <> [])
          then Ok (CustomName customObj) else Ok name
      end
  | None => Ok name
  end.

Definition AddContext (headlampContext : ptr) (st : State Object)
  : option (result (error JSONErr) unit * State Object) :=
  ctx ← heap st !! headlampContext;
  match effectiveName ctx with
  | Err err => Some (Err (ErrJSON err), st)
  | Ok name =>
      name ← MakeDNSFriendly name;
      Some (Ok (),
            {| heap := <[headlampContext := setName name ctx]> (heap st);
               cache := cache_Set name headlampContext (cache st) |})
  end.

Definition GetContexts (now : Z) (st : State Object) : result (error JSONErr) (list ptr) :=
  let contextMap := cache_GetAll now (cache st) in
  Ok ((map_to_list contextMap).*2).

Definition GetContext (now : Z) (name : gostring) (st : State Object)
  : result (error JSONErr) ptr :=
  cache_Get now name (cache st).

Definition AddContextWithKeyAndTTL (now : Z) (headlampContext : ptr) (key : gostring)
    (ttl : Z) (st : State Object)
  : option (result (error JSONErr) unit * State Object) :=
  ctx ← heap st !! headlampContext;
  name ← MakeDNSFriendly (Name ctx);
  Some (Ok (),
        {| heap := <[headlampContext := setName name ctx]> (heap st);
           cache := cache_SetWithTTL now key headlampContext ttl (cache st) |}).

Definition UpdateTTL (now : Z) (key : gostring) (ttl : Z) (st : State Object)
  : result (error JSONErr) unit * State Object :=
  let '(err, c) := cache_UpdateTTL now key ttl (cache st) in
  (err, {| heap := heap st; cache := c |}).
End ContextStore.
End Store.

(* ===================================================================== *)
(** ** The stateless-cluster registry (TypeScript, frontend/src/stateless) *)
(* ===================================================================== *)

Module Registry.
Import JS.

(** The module that holds [storeStatelessClusterKubeconfig],
    [getStatelessClusterKubeConfigs] and [findAndReplaceKubeconfig]
    (frontend/src/stateless/index.ts) is not part of the sources at hand;
    its tests are. *)

(** Modelled from the spec: a context of a decoded kubeconfig, with the
    two names a cluster name is compared to. *)
Record KubeconfigContext : Type := {
  contextName : jsstring;      (* contexts[i].name *)
  contextCluster : jsstring;   (* contexts[i].context.cluster *)
}.

(** Modelled from the spec: a [StatelessKubeconfigRecord], "opaque base64
    blob + stable identity (storage-assigned id)". *)
Record record {Blob : Type} : Type := {
  id : Z;
  kubeconfig : Blob;
}.
Global Arguments record : clear implicits.

(** Modelled from the spec: the durable store of the registry, its records
    in cursor order, and its key generator. *)
Record registry {Blob : Type} : Type := {
  records : list (record Blob);
  nextId : Z;
}.
Global Arguments registry : clear implicits.

(** The outcome of an asynchronous operation. *)
Inductive promise {A : Type} : Type :=
| Resolved (a : A)
| Rejected (reason : string).
Global Arguments promise : clear implicits.

(** Modelled from the spec: the literal error of the "no matching context"
    case (the test of [updateStatelessClusterKubeconfig] expects the same
    text). *)
Definition noContextFound : string := "No context found matching the cluster name".

Section Registry.
Context {Blob : Type}.
(** [jsyaml.load(atob(blob))]: the contexts of the decoded kubeconfig,
    [None] when the blob does not decode. *)
Variable decode : Blob -> option (list KubeconfigContext).

(** Modelled from the spec: the registry before anything is stored. *)
Definition empty : registry Blob := {| records := []; nextId := 1 |}.

(** Modelled from the spec: [store(blob)] "appends [blob] unconditionally
    as a new record". *)
Definition storeStatelessClusterKubeconfig (blob : Blob) (reg : registry Blob)
  : promise unit * registry Blob :=
  (Resolved (),
   {| records := records reg ++ [{| id := nextId reg; kubeconfig := blob |}];
      nextId := nextId reg + 1 |}).

(** Modelled from the spec: [listAll()] "returns every stored blob". *)
Definition getStatelessClusterKubeConfigs (reg : registry Blob) : promise (list Blob) :=
  Resolved (kubeconfig <$> records reg).

(** Modelled from the spec: a context matches a cluster name "by
    cluster/context name equality". *)
Definition contextMatches (clusterName : jsstring) (c : KubeconfigContext) : bool :=
  bool_decide (contextName c = clusterName)
  || bool_decide (contextCluster c = clusterName).

(** Modelled from the spec: a blob matches when one of the contexts it
    decodes to does. *)
Definition blobMatches (clusterName : jsstring) (blob : Blob) : bool :=
  match decode blob with
  | Some contexts => existsb (contextMatches clusterName) contexts
  | None => false
  end.

(** Modelled from the spec: a record matches when its blob does. *)
Definition recordMatches (clusterName : jsstring) (r : record Blob) : bool :=
  blobMatches clusterName (kubeconfig r).

(** Modelled from the spec: the cursor scan of [findAndReplace]; the
    first matching record is overwritten "in place (same storage
    identity)". *)
Fixpoint replaceFirst (clusterName : jsstring) (newBlob : Blob)
    (rs : list (record Blob)) : option (list (record Blob)) :=
  match rs with
  | [] => None
  | r :: rest =>
      if recordMatches clusterName r
      then Some ({| id := id r; kubeconfig := newBlob |} :: rest)
      else cons r <$> replaceFirst clusterName newBlob rest
  end.

(** Modelled from the spec: [findAndReplace(clusterName, newBlob,
    create)]: "If found, overwrite that record's blob in place.  If not
    found and [create] is false, the operation rejects with the literal
    error.  If not found and [create] is true, behaves like
    [store(newBlob)]". *)
Definition findAndReplaceKubeconfig (clusterName : jsstring) (newBlob : Blob)
    (create : bool) (reg : registry Blob) : promise unit * registry Blob :=
  match replaceFirst clusterName newBlob (records reg) with
  | Some rs => (Resolved (), {| records := rs; nextId := nextId reg |})
  | None =>
      if create then storeStatelessClusterKubeconfig newBlob reg
      else (Rejected noContextFound, reg)
  end.
End Registry.
End Registry.


(* ===================================================================== *)
(** ** The stated properties of a canonical name *)
(* ===================================================================== *)

Module Spec.
Import Go.

(** [[a-z0-9]] and [[a-z0-9-]] on bytes. *)
Definition lowerAlnum (c : ascii) : bool :=
  inRange (chr "a") (chr "z") (byteval c) || inRange (chr "0") (chr "9") (byteval c).
Definition labelChar (c : ascii) : bool :=
  lowerAlnum c || bool_decide (c = "-"%char).

(** The body of [^[a-z0-9][a-z0-9-]*[a-z0-9]$], the pattern asserted by
    [TestMakeDNSFriendlyEdgeCases] and tested by the client's
    [validateContextName]. *)
Definition dnsLabel : Regex.regex ascii :=
  Regex.Seq (Regex.Class lowerAlnum)
    (Regex.Seq (Regex.Star (Regex.Class labelChar)) (Regex.Class lowerAlnum)).

(** The body of [^[a-z0-9]([a-z0-9-]*[a-z0-9])?$]: as above, or one
    single letter or digit. *)
Definition dnsLabelOrSingle : Regex.regex ascii :=
  Regex.Seq (Regex.Class lowerAlnum)
    (Regex.Alt Regex.Eps
       (Regex.Seq (Regex.Star (Regex.Class labelChar)) (Regex.Class lowerAlnum))).

(** The truncation of an over-long name in the words of the
    specification: split on [-]; [targetLen = floor((63 - (partCount-1)) /
    partCount)]; if [targetLen >= 1] truncate every part to [targetLen]
    characters and rejoin with [-], otherwise the first character of the
    first part, [-], the first character of the last part; without any
    [-], the first 63 characters. *)
Definition truncateSpec (result : gostring) : gostring :=
  if bool_decide ("-"%char ∈ result) then
    let parts := Str.split result (str "-") in
    let partCount := len parts in
    let targetLen := (63 - (partCount - 1)) / partCount in
    if bool_decide (targetLen >= 1)
    then Str.join (take (Z.to_nat targetLen) <$> parts) (str "-")
    else take 1 (default [] (head parts)) ++ str "-" ++ take 1 (default [] (last parts))
  else take 63 result.

(** What the loop of [truncateParts] does to one part. *)
Definition truncPart (targetLen : Z) (part : gostring) : gostring :=
  if len part >? targetLen then take (Z.to_nat targetLen) part else part.

(** What [strings.Map(sanitizeRune, _)] does to one ASCII byte. *)
Definition sanitizeByte (c : ascii) : ascii := byte_of (sanitizeRune (byteval c)).

Definition isASCII (c : ascii) : Prop := byteval c < 0x80.

(** A non-empty run of letters and digits, and a name made of such runs
    separated by single hyphens. *)
Definition Word (part : gostring) : Prop :=
  part <> [] /\ Forall (fun c => lowerAlnum c = true) part.

Definition Clean (r : gostring) : Prop :=
  exists parts, parts <> [] /\ Forall Word parts /\ r = Str.join parts (str "-").
End Spec.


(* ===================================================================== *)
(** ** Sample data *)
(* ===================================================================== *)

Module Examples.
Import Go Store.

(** Extension objects: [true] encodes and decodes (without a custom
    name), [false] has a payload that [json.Marshal] rejects. *)
Definition marshal (info : bool) : result string gostring :=
  if info then Ok (str "{}") else Err "json: error calling MarshalJSON"%string.
Definition unmarshal (unknownBytes : gostring) : result string CustomObject :=
  Ok {| CustomName := [] |}.

Definition plain (name : gostring) : Context bool :=
  {| Name := name; OriginalName := name; KubeContext := None; Source := 0 |}.

Definition withInfo (name : gostring) (info : bool) : Context bool :=
  {| Name := name; OriginalName := name;
     KubeContext :=
       Some {| ClusterRef := str "test-cluster"; AuthInfoRef := str "test-user";
               Extensions := {[ str "headlamp_info" := info ]} |};
     Source := 0 |}.

(** Three contexts in the heap, nothing stored yet. *)
Definition st0 : State bool :=
  {| heap := {[ 1%positive := plain (str "My Cluster");
                2%positive := plain (str "my.cluster");
                3%positive := withInfo (str "broken") false ]};
     cache := ∅ |}.

(** Blobs of the registry: here a blob is the list of the contexts it
    decodes to. *)
Definition blobOf (name : string) : list Registry.KubeconfigContext :=
  [ {| Registry.contextName := JS.str name; Registry.contextCluster := JS.str name |} ].
Definition decodeBlob (blob : list Registry.KubeconfigContext)
  : option (list Registry.KubeconfigContext) := Some blob.

(** The cases of [TestMakeDNSFriendly] and [TestMakeDNSFriendlyEdgeCases]:
    the input as code points, and the expected name. *)
Definition codepoints (s : string) : list Z := JS.str s.

Definition testCase (input : list Z) (expected : string) : list Z * string :=
  (input, expected).

Definition testCases : list (list Z * string) :=
  [ testCase (codepoints "arn:aws:eks:us-west-2:123456789012:cluster/production-cluster")
      "arn-aws-eks-us-west-2-123456789012-cluster-production-cluster";
    testCase (codepoints "arn:aws:eks:*:123456789012:cluster/*")
      "arn-aws-eks-star-123456789012-cluster-star";
    testCase (codepoints "gke_my-project_us-central1-a_my-cluster")
      "gke_my-project_us-central1-a_my-cluster";
    testCase (codepoints "gke_my-project_zone")
      "gke-my-project-zone";
    testCase (codepoints "my-cluster-my-group-(prod)-12345")
      "my-cluster-my-group-prod-12345";
    testCase (codepoints "user/path+name=value,group@domain")
      "user-path-plus-name-eq-value-group-at-domain";
    testCase (codepoints "my cluster.name")
      "my-cluster-name";
    testCase (codepoints "cluster///name////path")
      "cluster-name-path";
    testCase (codepoints "cluster\name\path")
      "cluster-name-path";
    testCase (codepoints "")
      "unnamed-context";
    testCase (codepoints "aaaaaaaaaaaaaaaaaaaaaaaaaaaaaaaaaaaaaaaaaaaaaaaaaaaaaaaaaaaaaaaa")
      "aaaaaaaaaaaaaaaaaaaaaaaaaaaaaaaaaaaaaaaaaaaaaaaaaaaaaaaaaaaaaaa";
    testCase (codepoints "cluster-" ++ [0x6D4B; 0x8BD5] ++ codepoints "-test")
      "cluster-test";
    testCase (codepoints "-cluster.name-")
      "cluster-name";
    testCase (codepoints "cluster...name___test")
      "cluster-name-test";
    testCase (codepoints "aaaaaaaaaaaaaaaaaaaaaaaaaaaaaaaaaaaaaaaaaaaaaaaaaaaaaaaaaaaaaaa")
      "aaaaaaaaaaaaaaaaaaaaaaaaaaaaaaaaaaaaaaaaaaaaaaaaaaaaaaaaaaaaaaa";
    testCase (codepoints "a-a-a-a-a-a-a-a-a-a-a-a-a-a-a-a-a-a-a-a-a-a-a-a-a-a-a-a-a-a-a-")
      "a-a-a-a-a-a-a-a-a-a-a-a-a-a-a-a-a-a-a-a-a-a-a-a-a-a-a-a-a-a-a";
    testCase (codepoints "gke_my@project_us-central1-a_my-cluster")
      "gke-my-at-project-us-central1-a-my-cluster";
    testCase (codepoints "my-cluster_(prod.test)@123")
      "my-cluster-prod-test-at-123";
    testCase (codepoints "123cluster")
      "123cluster";
    testCase (codepoints "12345")
      "12345";
    testCase (codepoints "MyCluster")
      "mycluster";
    testCase (codepoints "cluster.name.test")
      "cluster-name-test" ].
End Examples.

(* ===================================================================== *)
(** ** The kubeconfig loader dialog (TypeScript, KubeConfigLoader.tsx) *)
(* ===================================================================== *)

Module Loader.
Import Go JS.

(** *** validateContextName *)

(** [{ isValid: boolean; message?: string }] *)
Record validation : Type := {
  isValid : bool;
  message : option string;
}.

(** The body of [/^[a-z0-9][a-z0-9-]*[a-z0-9]$/]. *)
Definition validDNSLabel : Regex.regex Z :=
  Regex.Seq (Regex.Class lowerAlnumUnit)
    (Regex.Seq (Regex.Star (Regex.Class labelUnit)) (Regex.Class lowerAlnumUnit)).

Definition validateContextName (name : jsstring) : validation :=
  if bool_decide (name = []) then
    {| isValid := false; message := Some "Context name cannot be empty"%string |}
  else if isGKE name then {| isValid := true; message := None |}
  else
    let friendlyName := makeDNSFriendly name in
    if len friendlyName >? MAX_DNS_LABEL_LENGTH then
      {| isValid := false;
         message := Some "Context name must be 63 characters or less"%string |}
    else if negb (Regex.fullmatch validDNSLabel friendlyName) then
      {| isValid := false;
         message := Some "Context name must contain only lowercase letters, numbers, and hyphens, and must start and end with a letter or number"%string |}
    else {| isValid := true; message := None |}.

(** *** Ordinary objects used as maps

    [configWithSelectedClusters] collects clusters and users in two
    object literals [{}] keyed by name and reads them back with
    [Object.values].  An object is modelled by its own enumerable
    string-keyed properties in the order [Object.values] visits them:
    array indices in ascending numeric order first, then the other keys
    in the order of their creation. *)

Definition digitValue (u : Z) : option Z :=
  if inRange (chr "0") (chr "9") u then Some (u - chr "0") else None.

Fixpoint decimal (acc : Z) (s : jsstring) : option Z :=
  match s with
  | [] => Some acc
  | u :: s' => d ← digitValue u; decimal (10 * acc + d) s'
  end.

(** An array index: the canonical decimal numeral of an integer from 0
    to 2^32 - 2. *)
Definition arrayIndex (key : jsstring) : option Z :=
  match key with
  | [] => None
  | u :: rest =>
      if bool_decide (u = chr "0") && negb (bool_decide (rest = [])) then None
      else i ← decimal 0 key; if i <=? 4294967294 then Some i else None
  end.

Section Objects.
Context {V : Type}.

Definition object : Type := list (jsstring * V).

Definition hasOwn (key : jsstring) (o : object) : bool :=
  bool_decide (key ∈ o.*1).

(** Assignment to an existing own property: the value changes, the place
    in the order does not. *)
Fixpoint overwrite (key : jsstring) (v : V) (o : object) : object :=
  match o with
  | [] => []
  | (k, w) :: rest =>
      if decide (k = key) then (k, v) :: rest else (k, w) :: overwrite key v rest
  end.

(** A new array-index property takes its place among the array indices. *)
Fixpoint insertIndexed (i : Z) (key : jsstring) (v : V) (o : object) : object :=
  match o with
  | [] => [(key, v)]
  | (k, w) :: rest =>
      match arrayIndex k with
      | Some j => if i <? j then (key, v) :: o else (k, w) :: insertIndexed i key v rest
      | None => (key, v) :: o
      end
  end.

(** [o[key] = v] on an object created by [{}], for an object [v].  The
    key [__proto__] is the accessor inherited from [Object.prototype]:
    the assignment calls its setter, which changes the prototype of [o]
    and creates no own property. *)
Definition set (key : jsstring) (v : V) (o : object) : object :=
  if bool_decide (key = str "__proto__") then o
  else if hasOwn key o then overwrite key v o
  else
    match arrayIndex key with
    | Some i => insertIndexed i key v o
    | None => o ++ [(key, v)]
    end.

(** [Object.values(o)] *)
Definition values (o : object) : list V := o.*2.
End Objects.
Global Arguments object : clear implicits.

(** *** configWithSelectedClusters, and the selection of contexts *)

(** The wizard's steps. *)
Inductive Step : Type :=
| LoadKubeConfig
| SelectClusters
| ValidateKubeConfig
| ConfigureClusters
| Success.

Section Dialog.
(** The entries of a kubeconfig are objects of which the code reads the
    fields below and which it passes on whole. *)
Context {Cluster User Context : Type}.
Variable cluster_name : Cluster -> jsstring.      (* c.name *)
Variable user_name : User -> jsstring.            (* c.name *)
Variable context_name : Context -> jsstring.      (* c.name *)
Variable context_cluster : Context -> jsstring.   (* c.context.cluster *)
Variable context_user : Context -> jsstring.      (* c.context.user *)

(** [interface kubeconfig]; [users] may be missing ([config.users?.find]). *)
Record kubeconfig : Type := {
  clusters : list Cluster;
  users : option (list User);
  contexts : list Context;
  currentContext : jsstring;
}.

(** The three collections the [forEach] callback updates. *)
Record collected : Type := {
  collectedClusters : object Cluster;
  collectedUsers : object User;
  collectedContexts : list Context;
}.

(** The callback of [selectedClusters.forEach]. *)
Definition collect (config : kubeconfig) (acc : collected) (clusterName : jsstring)
  : collected :=
  match List.find (fun c => bool_decide (context_name c = clusterName)) (contexts config) with
  | None => acc
  | Some context =>
      match List.find (fun c => bool_decide (cluster_name c = context_cluster context))
              (clusters config) with
      | None => acc
      | Some cluster =>
          let user :=
            users ← users config;
            List.find (fun c => bool_decide (user_name c = context_user context)) users in
          {| collectedClusters := set (cluster_name cluster) cluster (collectedClusters acc);
             collectedUsers :=
               match user with
               | Some user => set (user_name user) user (collectedUsers acc)
               | None => collectedUsers acc
               end;
             collectedContexts := collectedContexts acc ++ [context] |}
      end
  end.

Definition configWithSelectedClusters (config : kubeconfig)
    (selectedClusters : list jsstring) : kubeconfig :=
  let acc :=
    foldl (collect config)
      {| collectedClusters := []; collectedUsers := []; collectedContexts := [] |}
      selectedClusters in
  {| clusters := values (collectedClusters acc);
     users := Some (values (collectedUsers acc));
     contexts := collectedContexts acc;
     currentContext := [] |}.

(** What the loop of [configWithSelectedClusters] keeps true of its three
    collections: every collected cluster and user is stored under its own
    name, comes from [config] and is stored once; no key is [__proto__];
    every collected context comes from [config], was asked for, and its
    cluster is among the collected ones unless it is called [__proto__]. *)
Definition collectedOk (config : kubeconfig) (selected : list jsstring)
    (acc : collected) : Prop :=
  NoDup (collectedClusters acc).*1
  /\ Forall (fun kv => cluster_name kv.2 = kv.1 /\ kv.2 ∈ clusters config
                       /\ kv.1 <> str "__proto__") (collectedClusters acc)
  /\ NoDup (collectedUsers acc).*1
  /\ Forall (fun kv => user_name kv.2 = kv.1
                       /\ exists us, users config = Some us /\ kv.2 ∈ us)
       (collectedUsers acc)
  /\ Forall (fun c => c ∈ contexts config /\ context_name c ∈ selected
                      /\ (context_cluster c <> str "__proto__" ->
                          context_cluster c ∈ (collectedClusters acc).*1))
       (collectedContexts acc).

(** The context that one name of the selection contributes, if any. *)
Definition selectedContext (config : kubeconfig) (clusterName : jsstring)
  : option Context :=
  context ← List.find (fun c => bool_decide (context_name c = clusterName))
              (contexts config);
  _ ← List.find (fun c => bool_decide (cluster_name c = context_cluster context))
        (clusters config);
  Some context.

(** The part of the component's state that the hooks below read and
    write: [state], [fileContent], [selectedClusters] and
    [contextNameErrors] (an object used as a map from context name to
    message, copied by spread and updated by a computed key or [delete]:
    its own properties are a finite map). *)
Record component : Type := {
  state : Step;
  fileContent : kubeconfig;
  selectedClusters : list jsstring;
  contextNameErrors : gmap jsstring string;
}.

(** The effect run when [fileContent] changes. *)
Definition fileContentEffect (st : component) : component :=
  if (0 <? len (contexts (fileContent st))) then
    {| state := SelectClusters;
       fileContent := fileContent st;
       selectedClusters := context_name <$> contexts (fileContent st);
       contextNameErrors := contextNameErrors st |}
  else st.

(** [validation.message || 'Invalid context name'] *)
Definition messageOrDefault (validation : validation) : string :=
  match message validation with
  | Some m => if bool_decide (m = ""%string) then "Invalid context name"%string else m
  | None => "Invalid context name"%string
  end.

(** [handleContextSelect(event, contextName)], with [checked] the value
    of [event.target.checked]. *)
Definition handleContextSelect (checked : bool) (contextName : jsstring)
    (st : component) : component :=
  let validation := validateContextName contextName in
  if negb (isValid validation) then
    {| state := state st;
       fileContent := fileContent st;
       selectedClusters := selectedClusters st;
       contextNameErrors :=
         <[contextName := messageOrDefault validation]> (contextNameErrors st) |}
  else
    {| state := state st;
       fileContent := fileContent st;
       selectedClusters :=
         if checked then selectedClusters st ++ [contextName]
         else filter (fun name => name <> contextName) (selectedClusters st);
       contextNameErrors := delete contextName (contextNameErrors st) |}.
End Dialog.
End Loader.


(* ===================================================================== *)
(** ** Plugin configuration (JavaScript, headlamp-plugin, config-validator.js) *)
(* ===================================================================== *)

Module Plugins.
Import Go JS.

(** The classes [\d] and [[0-9A-Za-z-]]. *)
Definition isDigit (u : Z) : bool := inRange (chr "0") (chr "9") u.
Definition isIdentUnit (u : Z) : bool :=
  inRange (chr "0") (chr "9") u || inRange (chr "A") (chr "Z") u
  || inRange (chr "a") (chr "z") u || bool_decide (u = chr "-").

(** [r?] *)
Definition optional {A} (r : Regex.regex A) : Regex.regex A :=
  Regex.Alt Regex.Eps r.

(** The body of the anchored pattern of [isValidVersion],
    [^\d+\.\d+\.\d+(-I(\.I)* )?(\+I(\.I)* )?$] with [I] for
    [[0-9A-Za-z-]+] (the blank before a closing parenthesis is not part of
    the pattern): three runs of digits separated by dots; then,
    optionally, a hyphen and a dot-separated list of identifiers; then,
    optionally, a plus sign and a dot-separated list of identifiers. *)
Definition versionPattern : Regex.regex Z :=
  let digits := Regex.Plus (Regex.Class isDigit) in
  let dot := Regex.Lit (str ".") in
  let identifier := Regex.Plus (Regex.Class isIdentUnit) in
  let identifiers := Regex.Seq identifier (Regex.Star (Regex.Seq dot identifier)) in
  Regex.Seq digits
    (Regex.Seq dot
       (Regex.Seq digits
          (Regex.Seq dot
             (Regex.Seq digits
                (Regex.Seq (optional (Regex.Seq (Regex.Lit (str "-")) identifiers))
                   (optional (Regex.Seq (Regex.Lit (str "+")) identifiers))))))).

Definition isValidVersion (version : jsstring) : bool :=
  if bool_decide (version = str "latest") then true
  else Regex.fullmatch versionPattern version.

(** The code units that occur in a version: those of an identifier, the
    dot and the plus sign. *)
Definition isVersionUnit (u : Z) : bool :=
  isIdentUnit u || bool_decide (u = chr ".") || bool_decide (u = chr "+").

(** Every class of a regular expression lies within [P]. *)
Fixpoint classesWithin {A} (P : A -> Prop) (r : Regex.regex A) : Prop :=
  match r with
  | Regex.Void | Regex.Eps => True
  | Regex.Class p => forall a, p a = true -> P a
  | Regex.Seq r1 r2 | Regex.Alt r1 r2 => classesWithin P r1 /\ classesWithin P r2
  | Regex.Star r1 => classesWithin P r1
  end.

Section Validator.
(** A plugin entry of the configuration, of which the validator reads
    [name] and [version]; [version] may be missing. *)
Context {Plugin : Type}.
Variable name : Plugin -> jsstring.
Variable version : Plugin -> option jsstring.

(** The message of the error that [validateVersions] throws. *)
Definition invalidVersion (plugin : Plugin) (v : jsstring) : jsstring :=
  str "Invalid version for plugin " ++ name plugin ++ str ": " ++ v.

(** [plugin.version && !this.isValidVersion(plugin.version)] *)
Definition rejectsVersion (plugin : Plugin) : option jsstring :=
  match version plugin with
  | Some v =>
      if negb (bool_decide (v = [])) && negb (isValidVersion v)
      then Some (invalidVersion plugin v) else None
  | None => None
  end.

(** [validateVersions(plugins)]: [Some message] when it throws, [None]
    when the loop ends. *)
Fixpoint validateVersions (plugins : list Plugin) : option jsstring :=
  match plugins with
  | [] => None
  | plugin :: rest =>
      match rejectsVersion plugin with
      | Some message => Some message
      | None => validateVersions rest
      end
  end.
End Validator.
End Plugins.

(* ===================================================================== *)
(** ** Batch installation of plugins (JavaScript, headlamp-plugin,
       class BatchInstaller) *)
(* ===================================================================== *)

Module Installer.
Import Go JS.

(** [status: 'success' | 'error'] *)
Inductive status : Type := success | error.

Global Instance status_eq_dec : EqDecision status.
Proof. solve_decision. Defined.

(** One entry of the array that [installFromConfig] resolves to. *)
Record installResult : Type := {
  resultName : jsstring;
  resultStatus : status;
  resultMessage : jsstring;
}.

Section BatchInstaller.
(** The world outside (file system, network, log), the plugin entries
    and the errors thrown, which are objects with a [message]. *)
Context {World Plugin Config Error : Type}.
Variable plugin_name : Plugin -> jsstring.          (* plugin.name *)
Variable config_plugins : Config -> list Plugin.    (* config.plugins *)
Variable error_message : Error -> jsstring.         (* error.message *)
(** [this.logger.info] and [this.logger.error], which write to the log and
    return; [this.configValidator.validateConfig], which reads the file
    and returns the configuration or throws; [this.installPlugin], which
    resolves or rejects. *)
Variable logger_info : jsstring -> World -> World.
Variable logger_error : jsstring -> World -> World.
Variable validateConfig : jsstring -> World -> (Config + Error) * World.
Variable installPlugin : Plugin -> World -> option Error * World.

(** The body of [for (const plugin of config.plugins)], from the plugins
    still to come and the results pushed so far. *)
Fixpoint installEach (plugins : list Plugin) (results : list installResult) (w : World)
  : list installResult * World :=
  match plugins with
  | [] => (results, w)
  | plugin :: rest =>
      let w := logger_info (str "Installing plugin: " ++ plugin_name plugin) w in
      match installPlugin plugin w with
      | (None, w) =>
          installEach rest
            (results ++ [{| resultName := plugin_name plugin;
                            resultStatus := success;
                            resultMessage := str "Plugin installed successfully" |}])
            w
      | (Some err, w) =>
          let w := logger_error (str "Failed to install plugin: " ++ plugin_name plugin) w in
          installEach rest
            (results ++ [{| resultName := plugin_name plugin;
                            resultStatus := error;
                            resultMessage := error_message err |}])
            w
      end
  end.

(** [installFromConfig(configPath)]: the array it resolves to, or the
    error it rejects with. *)
Definition installFromConfig (configPath : jsstring) (w : World)
  : (list installResult + Error) * World :=
  let w := logger_info (str "Loading plugin configuration from " ++ configPath) w in
  match validateConfig configPath w with
  | (inl config, w) =>
      let '(results, w) := installEach (config_plugins config) [] w in
      let successful := filter (fun r => resultStatus r = success) results in
      let failed := filter (fun r => resultStatus r = error) results in
      let w := logger_info (str "Batch installation completed") w in
      (inl results, w)
  | (inr err, w) =>
      let w := logger_error (str "Failed to process plugin configuration") w in
      (inr err, w)
  end.
End BatchInstaller.
End Installer.

(* ===================================================================== *)
(** ** What of a name survives the cleaning *)
(* ===================================================================== *)

Module Canonical.
Import Go.

(** The bytes that leave a letter or digit in the canonical name: the
    ASCII letters and digits themselves, and the four characters that the
    replacement table spells out ([=] as [-eq-], [+] as [-plus-], [@] as
    [-at-], [*] as [-star-]). *)
Definition leavesWord (c : ascii) : bool :=
  isAlphanumeric (byteval c)
  || bool_decide (c ∈ ["="%char; "+"%char; "@"%char; "*"%char]).
End Canonical.

(* ===================================================================== *)
(** ** Sample data for the loader dialog *)
(* ===================================================================== *)

Module Samples.
Import Go JS Loader.

(** Entries of a kubeconfig file, reduced to the fields the dialog
    reads: a cluster is its name and server, a user its name and token, a
    context its name and the names of its cluster and user. *)
Definition cluster (name server : string) : jsstring * jsstring :=
  (str name, str server).
Definition user (name token : string) : jsstring * jsstring :=
  (str name, str token).
Definition context (name cluster user : string) : jsstring * (jsstring * jsstring) :=
  (str name, (str cluster, str user)).

Abbreviation kubeconfig :=
  (@Loader.kubeconfig (jsstring * jsstring) (jsstring * jsstring)
     (jsstring * (jsstring * jsstring))).

Definition configWithSelectedClusters (config : kubeconfig)
    (selectedClusters : list jsstring) : kubeconfig :=
  Loader.configWithSelectedClusters fst fst fst (fun c => c.2.1) (fun c => c.2.2)
    config selectedClusters.

(** A file with three contexts; one of the clusters is called
    [__proto__], one of the contexts has the one-letter name [a]. *)
Definition config : kubeconfig :=
  {| clusters := [ cluster "prod" "https://prod.example.com";
                   cluster "__proto__" "https://proto.example.com";
                   cluster "dev" "https://dev.example.com" ];
     users := Some [ user "admin" "token-1"; user "viewer" "token-2" ];
     contexts := [ context "prod-admin" "prod" "admin";
                   context "odd" "__proto__" "viewer";
                   context "a" "dev" "admin" ];
     currentContext := str "prod-admin" |}.

(** Plugin entries, reduced to name and version. *)
Definition plugin (name : string) (version : option string)
  : jsstring * option jsstring :=
  (str name, str <$> version).

(** The component when the file has just been read. *)
Definition loaded : Loader.component :=
  {| state := LoadKubeConfig;
     fileContent := config;
     selectedClusters := [];
     contextNameErrors := ∅ |}.
End Samples.

(* ===================================================================== *)
(** ** Facts about the string primitives *)
(* ===================================================================== *)

Module StrFacts.
Import Str.
Section Facts.
Context {A : Type} {eqA : EqDecision A}.
Implicit Types (s old new sep sub p t : list A) (parts : list (list A)).
Local Open Scope nat_scope.

Lemma hasPrefix_app p t : hasPrefix p (p ++ t) = true.
Proof.
  induction p as [|a p IH]; simpl; [done|].
  rewrite bool_decide_eq_true_2 by done. exact IH.
Qed.

Lemma hasPrefix_spec p s : hasPrefix p s = true <-> exists t, s = p ++ t.
Proof.
  split.
  - revert s. induction p as [|a p IH]; intros s Hp.
    + by exists s.
    + destruct s as [|b s]; simpl in Hp; [done|].
      apply andb_true_iff in Hp as [Hab Hp].
      apply bool_decide_eq_true in Hab as ->.
      destruct (IH _ Hp) as [t ->]. by exists t.
  - intros [t ->]. apply hasPrefix_app.
Qed.

Lemma contains_spec sub s :
  contains sub s = true <-> exists s1 s2, s = s1 ++ sub ++ s2.
Proof.
  split.
  - induction s as [|c s IH]; simpl; intros Hc.
    + rewrite orb_false_r in Hc. apply hasPrefix_spec in Hc as [t Ht].
      by exists [], t.
    + apply orb_true_iff in Hc as [Hc|Hc].
      * apply hasPrefix_spec in Hc as [t Ht]. by exists [], t.
      * destruct (IH Hc) as (s1 & s2 & ->). by exists (c :: s1), s2.
  - intros (s1 & s2 & ->). induction s1 as [|c s1 IH]; simpl.
    + destruct (sub ++ s2) eqn:E; simpl.
      * rewrite orb_false_r, <- E. apply hasPrefix_app.
      * rewrite <- E, hasPrefix_app. done.
    + rewrite IH. apply orb_true_r.
Qed.

Lemma contains_false_app_inv sub s1 s2 :
  contains sub (s1 ++ s2) = false -> contains sub s1 = false /\ contains sub s2 = false.
Proof.
  intros Hc. split; apply not_true_is_false; intros Hc';
    apply contains_spec in Hc' as (t1 & t2 & ->);
    assert (contains sub ((t1 ++ sub ++ t2) ++ s2) = true) as Hx
    || assert (contains sub (s1 ++ t1 ++ sub ++ t2) = true) as Hx;
    try congruence; apply contains_spec.
  - exists t1, (t2 ++ s2). by rewrite <- !app_assoc.
  - exists (s1 ++ t1), t2. by rewrite <- !app_assoc.
Qed.

(** One-element patterns. *)

Lemma replaceAll_char s c new : replaceAll s [c] new = s ≫= substOne c new.
Proof.
  unfold replaceAll. induction s as [|x s IH]; [done|].
  cbn [replaceFrom hasPrefix length Nat.sub]. rewrite bind_cons, andb_true_r.
  unfold substOne at 1. rewrite IH. simpl.
  destruct (decide (x = c)) as [->|Hne].
  - by rewrite bool_decide_eq_true_2.
  - by rewrite bool_decide_eq_false_2.
Qed.

Lemma contains_char c s : contains [c] s = true <-> c ∈ s.
Proof.
  rewrite contains_spec. split.
  - intros (s1 & s2 & ->). set_solver.
  - intros (s1 & s2 & ->)%list_elem_of_split. by exists s1, s2.
Qed.

Lemma contains_char_false c s : contains [c] s = false <-> c ∉ s.
Proof. rewrite <- contains_char. by destruct (contains [c] s). Qed.

Lemma count_char c s : count [c] s = length (filter (fun x => x = c) s).
Proof.
  unfold count. induction s as [|x s IH]; [done|].
  cbn [countFrom hasPrefix length Nat.sub]. rewrite andb_true_r, filter_cons.
  destruct (decide (x = c)) as [->|Hne].
  - rewrite bool_decide_eq_true_2 by done. simpl. by rewrite IH.
  - rewrite bool_decide_eq_false_2 by done. done.
Qed.

Lemma split_cons x s c :
  split (x :: s) [c] =
    if decide (x = c) then [] :: split s [c]
    else match split s [c] with
         | part :: rest => (x :: part) :: rest
         | [] => [[x]]
         end.
Proof.
  unfold split. cbn [splitFrom hasPrefix length Nat.sub]. rewrite andb_true_r.
  destruct (decide (x = c)) as [->|Hne].
  - by rewrite bool_decide_eq_true_2.
  - by rewrite bool_decide_eq_false_2.
Qed.

Lemma split_nonempty s c : split s [c] <> [].
Proof.
  destruct s as [|x s]; [done|]. rewrite split_cons.
  destruct (decide (x = c)); [done|]. by destruct (split s [c]).
Qed.

Lemma join_cons_cons part part' rest sep :
  join (part :: part' :: rest) sep = part ++ sep ++ join (part' :: rest) sep.
Proof. done. Qed.

Lemma join_split s c : join (split s [c]) [c] = s.
Proof.
  induction s as [|x s IH]; [done|]. rewrite split_cons.
  pose proof (split_nonempty s c) as Hne.
  destruct (split s [c]) as [|part rest]; [done|].
  destruct (decide (x = c)) as [->|_].
  - rewrite join_cons_cons, IH. done.
  - destruct rest as [|part' rest].
    + simpl in *. by rewrite IH.
    + rewrite join_cons_cons. rewrite join_cons_cons in IH. by rewrite <- IH.
Qed.

Lemma split_no_sep s c : c ∉ s -> split s [c] = [s].
Proof.
  induction s as [|x s IH]; [done|]. intros Hc.
  apply not_elem_of_cons in Hc as [Hx Hs].
  rewrite split_cons, decide_False by done. by rewrite IH.
Qed.

Lemma split_parts_no_sep s c : Forall (fun part => c ∉ part) (split s [c]).
Proof.
  induction s as [|x s IH].
  - repeat constructor. apply not_elem_of_nil.
  - rewrite split_cons. destruct (decide (x = c)) as [->|Hne].
    + constructor; [apply not_elem_of_nil|done].
    + destruct (split s [c]) as [|part rest].
      * repeat constructor. apply not_elem_of_cons.
        split; [congruence|apply not_elem_of_nil].
      * apply Forall_cons in IH as [Hpart Hrest].
        constructor; [|done]. apply not_elem_of_cons. split; [congruence|done].
Qed.

Lemma elem_of_join_part x part parts sep :
  x ∈ part -> part ∈ parts -> x ∈ join parts sep.
Proof.
  intros Hx. induction parts as [|q [|q' rest] IH]; intros Hp.
  - by apply elem_of_nil in Hp.
  - apply list_elem_of_singleton in Hp as ->. done.
  - rewrite join_cons_cons. apply elem_of_cons in Hp as [->|Hp].
    + set_solver.
    + rewrite !elem_of_app. right; right. by apply IH.
Qed.

Lemma Forall_split (P : A -> Prop) s c :
  Forall P s -> Forall (Forall P) (split s [c]).
Proof.
  intros Hs. apply Forall_forall. intros part Hpart.
  apply Forall_forall. intros x Hx.
  rewrite Forall_forall in Hs. apply Hs.
  rewrite <- (join_split s c). by eapply elem_of_join_part.
Qed.

Lemma Forall_join (P : A -> Prop) parts sep :
  Forall (Forall P) parts -> Forall P sep -> Forall P (join parts sep).
Proof.
  intros Hparts Hsep. induction parts as [|q [|q' rest] IH].
  - constructor.
  - by inversion Hparts.
  - rewrite join_cons_cons. inversion Hparts; subst.
    rewrite !Forall_app. auto.
Qed.

(** The parts of a string with no separator at either end and no two
    separators in a row are all non-empty. *)
Lemma split_parts_nonempty s c :
  contains [c; c] s = false -> last s <> Some c ->
  match split s [c] with
  | [] => False
  | part :: rest =>
      (part = [] <-> s = [] \/ head s = Some c) /\ Forall (fun q => q <> []) rest
  end.
Proof.
  induction s as [|x s IH]; intros Hcc Hlast.
  - simpl. split; [tauto|constructor].
  - rewrite split_cons.
    assert (contains [c; c] s = false) as Hcc'.
    { change (x :: s) with ([x] ++ s) in Hcc.
      by apply contains_false_app_inv in Hcc as [_ ?]. }
    assert (s <> [] -> last s <> Some c) as Hlast'.
    { destruct s; [done|]. by rewrite last_cons_cons in Hlast. }
    destruct (decide (x = c)) as [->|Hne].
    + split; [simpl; tauto|].
      assert (s <> []) as Hs by (intros ->; by apply Hlast).
      assert (head s <> Some c) as Hhead.
      { intros Hh. apply head_Some in Hh as [s' ->].
        simpl in Hcc. rewrite !bool_decide_eq_true_2 in Hcc by done. done. }
      specialize (IH Hcc' (Hlast' Hs)).
      destruct (split s [c]) as [|part rest]; [done|].
      destruct IH as [IH1 IH2]. constructor; [|done]. tauto.
    + assert (last s <> Some c) as Hl.
      { destruct s; [done|]. by apply Hlast'. }
      specialize (IH Hcc' Hl).
      destruct (split s [c]) as [|part rest]; [done|].
      destruct IH as [IH1 IH2]. split; [|done].
      split; [done|]. intros [?|[=]]; done.
Qed.

Lemma length_join parts (c : A) :
  parts <> [] ->
  S (length (join parts [c])) = sum_list_with (fun part => S (length part)) parts.
Proof.
  intros Hne. induction parts as [|q [|q' rest] IH]; [done| |].
  - simpl. lia.
  - rewrite join_cons_cons, !length_app. specialize (IH ltac:(done)).
    simpl in *. lia.
Qed.

Lemma head_join part rest sep :
  part <> [] -> head (join (part :: rest) sep) = head part.
Proof.
  intros Hne. destruct rest; [done|]. rewrite join_cons_cons.
  destruct part; done.
Qed.
End Facts.
End StrFacts.

(* ===================================================================== *)
(** ** Derivatives decide the language of a regular expression *)
(* ===================================================================== *)

Module RegexFacts.
Import Regex.
Section Facts.
Context {A : Type}.
Implicit Types (r : regex A) (s : list A) (a : A).

Lemma nullable_spec r : nullable r = true <-> lang r [].
Proof.
  split.
  - induction r; simpl; intros Hn; try done.
    + constructor.
    + apply andb_true_iff in Hn as [H1 H2].
      change (@nil A) with (@nil A ++ []). constructor; auto.
    + apply orb_true_iff in Hn as [H1|H2];
        [apply lang_alt_l|apply lang_alt_r]; auto.
    + constructor.
  - intros Hl. remember [] as s eqn:Hs.
    induction Hl; simpl; subst; try done.
    + apply app_eq_nil in Hs as [-> ->]. by rewrite IHHl1, IHHl2.
    + by rewrite IHHl.
    + rewrite IHHl by done. apply orb_true_r.
Qed.

Lemma deriv_complete a r s : lang r (a :: s) -> lang (deriv a r) s.
Proof.
  intros Hl. remember (a :: s) as s0 eqn:Hs. revert s Hs.
  induction Hl as [|p b Hp|r1 r2 s1 s2 H1 IH1 H2 IH2|r1 r2 s0 H1 IH1
                  |r1 r2 s0 H2 IH2| |r1 s1 s2 H1 IH1 H2 IH2];
    intros s Hs; simpl; try done.
  - injection Hs as -> <-. rewrite Hp. constructor.
  - destruct s1 as [|b s1]; simpl in Hs.
    + subst s2. apply nullable_spec in H1. rewrite H1.
      apply lang_alt_r. by apply IH2.
    + injection Hs as -> <-.
      assert (lang (Seq (deriv a r1) r2) (s1 ++ s2)) as Hseq
        by (constructor; auto).
      destruct (nullable r1); [by apply lang_alt_l|done].
  - apply lang_alt_l. auto.
  - apply lang_alt_r. auto.
  - destruct s1 as [|b s1]; simpl in Hs.
    + subst s2. by apply IH2.
    + injection Hs as -> <-. constructor; auto.
Qed.

Lemma deriv_sound a r s : lang (deriv a r) s -> lang r (a :: s).
Proof.
  revert s. induction r as [| |p|r1 IH1 r2 IH2|r1 IH1 r2 IH2|r1 IH1];
    intros s Hl; simpl in Hl.
  - inversion Hl.
  - inversion Hl.
  - destruct (p a) eqn:Hp; inversion Hl; subst. by constructor.
  - assert (lang (Seq (deriv a r1) r2) s -> lang (Seq r1 r2) (a :: s)) as Hseq.
    { intros Hx. inversion Hx as [| |? ? s1 s2 Hx1 Hx2| | | |]; subst.
      change (a :: s1 ++ s2) with ((a :: s1) ++ s2). constructor; auto. }
    destruct (nullable r1) eqn:Hn; [|auto].
    inversion Hl; subst; [auto|].
    change (a :: s) with ([] ++ a :: s). constructor; [|auto].
    by apply nullable_spec.
  - inversion Hl; subst; [apply lang_alt_l|apply lang_alt_r]; auto.
  - inversion Hl as [| |? ? s1 s2 Hx1 Hx2| | | |]; subst.
    change (a :: s1 ++ s2) with ((a :: s1) ++ s2). constructor; auto.
Qed.

Theorem fullmatch_spec r s : fullmatch r s = true <-> lang r s.
Proof.
  revert r. induction s as [|a s IH]; intros r; simpl.
  - apply nullable_spec.
  - rewrite IH. split; [apply deriv_sound|apply deriv_complete].
Qed.

(** Inversion and introduction for the shapes used in the patterns. *)

Lemma lang_seq_inv r1 r2 s :
  lang (Seq r1 r2) s -> exists s1 s2, s = s1 ++ s2 /\ lang r1 s1 /\ lang r2 s2.
Proof. inversion 1; subst; eauto. Qed.

Lemma lang_class_inv p s : lang (Class p) s -> exists a, s = [a] /\ p a = true.
Proof. inversion 1; subst; eauto. Qed.

Lemma lang_star_class p s : lang (Star (Class p)) s <-> Forall (fun a => p a = true) s.
Proof.
  split.
  - intros Hl. remember (Star (Class p)) as r eqn:Hr.
    induction Hl; try done.
    injection Hr as ->. apply Forall_app. split; [|auto].
    apply lang_class_inv in Hl1 as (a & -> & Hp). by repeat constructor.
  - induction 1 as [|a s Ha Hs IH]; [constructor|].
    change (a :: s) with ([a] ++ s). constructor; [by constructor|done].
Qed.

Lemma lang_plus_class p s :
  lang (Plus (Class p)) s <-> s <> [] /\ Forall (fun a => p a = true) s.
Proof.
  unfold Plus. split.
  - intros (s1 & s2 & -> & (a & -> & Hp)%lang_class_inv & Hs2%lang_star_class)%lang_seq_inv.
    split; [done|]. by constructor.
  - intros [Hne Hs]. destruct Hs as [|a s Ha Hs]; [done|].
    change (a :: s) with ([a] ++ s). constructor; [by constructor|].
    by apply lang_star_class.
Qed.

Lemma lang_lit `{EqDecision A} (lit s : list A) : lang (Lit lit) s <-> s = lit.
Proof.
  revert s. induction lit as [|c lit IH]; intros s; simpl.
  - split; [by inversion 1|intros ->; constructor].
  - split.
    + intros (s1 & s2 & -> & (a & -> & Hp)%lang_class_inv & Hs2%IH)%lang_seq_inv.
      apply bool_decide_eq_true in Hp. by subst.
    + intros ->. change (c :: lit) with ([c] ++ lit).
      constructor; [|by apply IH]. constructor. by apply bool_decide_eq_true.
Qed.
End Facts.
End RegexFacts.


(* ===================================================================== *)
(** ** Tables of one-character replacements *)
(* ===================================================================== *)

Module TableFacts.
Import Str StrFacts.
Section Facts.
Context {A : Type} {eqA : EqDecision A}.
Implicit Types (s : list A) (tbl : list (list A * list A)).
Local Open Scope nat_scope.

Lemma substTable_notin tbl x : [x] ∉ tbl.*1 -> substTable tbl x = [x].
Proof.
  induction tbl as [|[old new] tbl IH]; [done|]. simpl. intros Hx.
  apply not_elem_of_cons in Hx as [Hne Hx].
  rewrite decide_False by done. auto.
Qed.

Lemma bind_id_on (f : A -> list A) s : Forall (fun y => f y = [y]) s -> s ≫= f = s.
Proof.
  induction 1 as [|y s Hy Hs IH]; [done|]. rewrite bind_cons, Hy, IH. done.
Qed.

Lemma closedTable_tail p tbl : closedTable (p :: tbl) -> closedTable tbl.
Proof.
  intros Hc q y Hq Hy Hin. eapply (Hc q y); [by right|done|].
  rewrite fmap_cons. by right.
Qed.

(** Applying the pairs one after the other, each over the whole string,
    is one pass that substitutes element by element. *)
Lemma foldl_step_subst (step : list A -> list A * list A -> list A) tbl s :
  (forall s c new, step s ([c], new) = s ≫= substOne c new) ->
  singleChars tbl -> closedTable tbl ->
  foldl step s tbl = s ≫= substTable tbl.
Proof.
  intros Hstep. revert s. induction tbl as [|[old new] tbl IH]; intros s Hsingle Hclosed.
  - simpl. symmetry. apply bind_id_on. by apply Forall_true.
  - inversion Hsingle as [|? ? Hlen Hsingle']; subst. simpl in Hlen.
    destruct old as [|c [|? ?]]; try done.
    cbn [foldl]. rewrite Hstep, IH; [|done|by eapply closedTable_tail].
    assert (Forall (fun y => substTable tbl y = [y]) new) as Hnew.
    { apply Forall_forall. intros y Hy. apply substTable_notin. intros Hin.
      eapply (Hclosed ([c], new) y); [by left|done|]. rewrite fmap_cons. by right. }
    clear -Hnew. induction s as [|x s IHs]; [done|].
    rewrite !bind_cons, bind_app, IHs. f_equal.
    unfold substOne. simpl. destruct (decide (x = c)) as [->|Hne].
    + rewrite decide_True by done. by apply bind_id_on.
    + rewrite decide_False by congruence. by rewrite bind_singleton.
Qed.

Lemma substTable_Permutation tbl tbl' x :
  NoDup tbl.*1 -> tbl ≡ₚ tbl' -> substTable tbl x = substTable tbl' x.
Proof.
  intros Hnd Hperm. induction Hperm as [|[old new] l l' Hp IH|[o1 n1] [o2 n2] l|l l' l'' H1 IH1 H2 IH2].
  - done.
  - simpl. rewrite fmap_cons in Hnd. apply NoDup_cons in Hnd as [_ Hnd].
    by rewrite IH.
  - simpl. rewrite !fmap_cons in Hnd.
    apply NoDup_cons in Hnd as [Hne _]. simpl in Hne.
    apply not_elem_of_cons in Hne as [Hne _].
    repeat case_decide; congruence.
  - rewrite IH1 by done. apply IH2. by rewrite <- H1.
Qed.

Lemma singleChars_Permutation tbl tbl' : tbl ≡ₚ tbl' -> singleChars tbl -> singleChars tbl'.
Proof. unfold singleChars. by intros ->. Qed.

Lemma closedTable_Permutation tbl tbl' : tbl ≡ₚ tbl' -> closedTable tbl -> closedTable tbl'.
Proof.
  intros Hp Hc q y Hq Hy. rewrite <- Hp in Hq. rewrite <- Hp. exact (Hc q y Hq Hy).
Qed.

(** The order of the pairs does not matter. *)
Lemma foldl_step_Permutation (step : list A -> list A * list A -> list A) tbl tbl' s :
  (forall s c new, step s ([c], new) = s ≫= substOne c new) ->
  singleChars tbl -> closedTable tbl -> NoDup tbl.*1 -> tbl' ≡ₚ tbl ->
  foldl step s tbl' = foldl step s tbl.
Proof.
  intros Hstep Hs Hc Hnd Hp.
  symmetry in Hp.
  rewrite (foldl_step_subst step tbl), (foldl_step_subst step tbl');
    eauto using singleChars_Permutation, closedTable_Permutation.
  apply list_bind_ext; [|done]. intros x.
  symmetry. by apply substTable_Permutation.
Qed.

(** [s.split(c).join(new)] is [ReplaceAll(s, c, new)]. *)
Lemma join_split_subst s c new : join (split s [c]) new = s ≫= substOne c new.
Proof.
  induction s as [|x s IH]; [done|]. rewrite split_cons, bind_cons, <- IH.
  pose proof (split_nonempty s c) as Hne. unfold substOne.
  destruct (split s [c]) as [|part rest]; [done|].
  destruct (decide (x = c)) as [->|_].
  - by rewrite join_cons_cons.
  - destruct rest; [done|]. by rewrite !join_cons_cons.
Qed.
End Facts.
End TableFacts.

(* ===================================================================== *)
(** ** Trimming, and collapsing doubled separators *)
(* ===================================================================== *)

Module TrimFacts.
Import Str StrFacts.
Section Facts.
Context {A : Type} {eqA : EqDecision A}.
Implicit Types (s pre post : list A) (cut : A -> bool).
Local Open Scope nat_scope.

Lemma trimLeft_split cut s :
  exists pre, s = pre ++ trimLeft cut s /\ Forall (fun c => cut c = true) pre.
Proof.
  induction s as [|c s (pre & IH1 & IH2)]; [by exists []|]. simpl.
  destruct (cut c) eqn:Hc.
  - exists (c :: pre). split; [by rewrite IH1 at 1|by constructor].
  - by exists [].
Qed.

Lemma trimLeft_head cut s c : head (trimLeft cut s) = Some c -> cut c = false.
Proof.
  induction s as [|x s IH]; [done|]. simpl.
  destruct (cut x) eqn:Hx; [done|]. by intros [= <-].
Qed.

Lemma trimLeft_id cut s :
  (forall c, head s = Some c -> cut c = false) -> trimLeft cut s = s.
Proof. destruct s as [|x s]; [done|]. intros Hh. simpl. by rewrite (Hh x). Qed.

Lemma trimRight_split cut s :
  exists post, s = trimRight cut s ++ post /\ Forall (fun c => cut c = true) post.
Proof.
  induction s as [|c s (post & IH1 & IH2)]; [by exists []|]. simpl.
  destruct (trimRight cut s) as [|y r] eqn:Hr.
  - simpl in IH1. subst post. destruct (cut c) eqn:Hc.
    + exists (c :: s). split; [done|by constructor].
    + by exists s.
  - exists post. split; [|done]. by rewrite IH1 at 1.
Qed.

Lemma trimRight_last cut s c : last (trimRight cut s) = Some c -> cut c = false.
Proof.
  induction s as [|x s IH]; [done|]. simpl.
  destruct (trimRight cut s) as [|y r] eqn:Hr.
  - destruct (cut x) eqn:Hx; [done|]. by intros [= <-].
  - by rewrite last_cons_cons.
Qed.

Lemma trimRight_id cut s :
  (forall c, last s = Some c -> cut c = false) -> trimRight cut s = s.
Proof.
  induction s as [|x s IH]; [done|]. intros Hl. simpl.
  destruct s as [|y s].
  - simpl. by rewrite (Hl x).
  - rewrite IH; [done|]. intros c Hc. apply Hl. by rewrite last_cons_cons.
Qed.

Lemma trim_split cut s :
  exists pre post, s = pre ++ trim cut s ++ post
    /\ Forall (fun c => cut c = true) pre /\ Forall (fun c => cut c = true) post.
Proof.
  unfold trim. destruct (trimLeft_split cut s) as (pre & H1 & H2).
  destruct (trimRight_split cut (trimLeft cut s)) as (post & H3 & H4).
  exists pre, post. split; [|done]. by rewrite <- H3.
Qed.

Lemma trim_last cut s c : last (trim cut s) = Some c -> cut c = false.
Proof. apply trimRight_last. Qed.

Lemma trim_head cut s c : head (trim cut s) = Some c -> cut c = false.
Proof.
  unfold trim. destruct (trimRight_split cut (trimLeft cut s)) as (post & H3 & _).
  intros Hh. apply (trimLeft_head cut s). rewrite H3.
  destruct (trimRight cut (trimLeft cut s)); [done|]. done.
Qed.

Lemma trim_id cut s :
  (forall c, head s = Some c -> cut c = false) ->
  (forall c, last s = Some c -> cut c = false) -> trim cut s = s.
Proof. intros Hh Hl. unfold trim. rewrite trimLeft_id by done. by apply trimRight_id. Qed.

Lemma Forall_trim (P : A -> Prop) cut s : Forall P s -> Forall P (trim cut s).
Proof.
  destruct (trim_split cut s) as (pre & post & Hs & _). intros HP.
  rewrite Hs in HP. by apply Forall_app in HP as [_ [? _]%Forall_app].
Qed.

Lemma contains_trim sub cut s : contains sub s = false -> contains sub (trim cut s) = false.
Proof.
  destruct (trim_split cut s) as (pre & post & Hs & _). intros Hc.
  rewrite Hs in Hc. apply contains_false_app_inv in Hc as [_ Hc].
  by apply contains_false_app_inv in Hc as [Hc _].
Qed.

(** Replacing [dd] by [d], once over the string. *)

Lemma replace_dd_length (d : A) skip s :
  length (replaceFrom [d; d] [d] skip s) <= length s.
Proof.
  revert skip. induction s as [|x s IH]; intros skip; [done|].
  cbn [replaceFrom]. destruct skip as [|k].
  - destruct (hasPrefix [d; d] (x :: s)).
    + specialize (IH 1). simpl in *. lia.
    + specialize (IH 0). simpl in *. lia.
  - specialize (IH k). simpl. lia.
Qed.

Lemma replace_dd_shrinks (d : A) s :
  contains [d; d] s = true -> length (replaceAll s [d; d] [d]) < length s.
Proof.
  unfold replaceAll. induction s as [|x s IH]; [done|].
  cbn [contains replaceFrom]. destruct (hasPrefix [d; d] (x :: s)) eqn:Hp.
  - intros _. pose proof (replace_dd_length d 1 s) as Hl.
    apply hasPrefix_spec in Hp as [t Ht]. injection Ht as -> ->.
    simpl in *. pose proof (replace_dd_length d 0 t). lia.
  - simpl. intros Hc. specialize (IH Hc). lia.
Qed.

Lemma replace_dd_Forall (P : A -> Prop) (d : A) skip s :
  P d -> Forall P s -> Forall P (replaceFrom [d; d] [d] skip s).
Proof.
  intros Hd Hs. revert skip. induction Hs as [|x s Hx Hs IH]; intros skip; [constructor|].
  cbn [replaceFrom]. destruct skip as [|k]; [|apply IH].
  destruct (hasPrefix [d; d] (x :: s)); simpl; constructor; auto.
Qed.

(** Splitting undoes joining when no part holds the separator. *)

Lemma split_app_sep (c : A) q s : c ∉ q -> split (q ++ c :: s) [c] = q :: split s [c].
Proof.
  induction q as [|x q IH]; intros Hq.
  - simpl. rewrite split_cons. by rewrite decide_True.
  - apply not_elem_of_cons in Hq as [Hx Hq]. simpl.
    rewrite split_cons, decide_False by done. by rewrite IH.
Qed.

Lemma split_join (c : A) (parts : list (list A)) :
  parts <> [] -> Forall (fun part => c ∉ part) parts ->
  split (join parts [c]) [c] = parts.
Proof.
  intros Hne Hparts. induction Hparts as [|q [|q' rest] Hq Hrest IH]; [done| |].
  - simpl. by apply split_no_sep.
  - rewrite join_cons_cons.
    change (q ++ [c] ++ join (q' :: rest) [c]) with (q ++ c :: join (q' :: rest) [c]).
    rewrite split_app_sep by done. by rewrite IH.
Qed.

Lemma last_join (parts : list (list A)) sep q :
  q <> [] -> last parts = Some q -> last (join parts sep) = last q.
Proof.
  intros Hq. induction parts as [|p [|p' rest] IH]; [done| |].
  - by intros [= ->].
  - rewrite last_cons_cons. intros Hl. specialize (IH Hl).
    rewrite join_cons_cons, !last_app, IH.
    destruct (last q) eqn:E; [done|]. by apply last_None in E.
Qed.

Lemma contains_dd_app (d : A) s1 s2 :
  contains [d; d] s1 = false -> contains [d; d] s2 = false ->
  last s1 <> Some d \/ head s2 <> Some d ->
  contains [d; d] (s1 ++ s2) = false.
Proof.
  intros H1 H2 Hb. induction s1 as [|x s1 IH]; [done|].
  cbn [contains] in H1. apply orb_false_iff in H1 as [Hp H1].
  cbn [app contains]. apply orb_false_iff. split.
  - destruct s1 as [|y s1].
    + simpl. destruct s2 as [|z s2]; [by rewrite andb_false_r|].
      simpl. rewrite andb_true_r. apply not_true_is_false.
      intros [Hx Hz]%andb_true_iff.
      apply bool_decide_eq_true in Hx, Hz. subst. by destruct Hb.
    + simpl in *. by rewrite andb_true_r in *.
  - apply IH; [done|]. destruct Hb as [Hb|Hb]; [|by right].
    destruct s1 as [|y s1]; [|left; by rewrite last_cons_cons in Hb].
    left. done.
Qed.

Lemma contains_dd_notin (d : A) s : d ∉ s -> contains [d; d] s = false.
Proof.
  intros Hd. apply not_true_is_false. intros (s1 & s2 & ->)%contains_spec.
  apply Hd. set_solver.
Qed.

(** Squeezing runs, and the pass that replaces [dd] by [d]. *)

Lemma squeezeFrom_fixed (d : A) s :
  contains [d; d] s = false ->
  squeezeFrom d false s = s /\ (head s <> Some d -> squeezeFrom d true s = s).
Proof.
  induction s as [|x s IH]; [done|]. cbn [contains]. intros [Hp Hc]%orb_false_iff.
  destruct (IH Hc) as [IH1 IH2]. cbn [squeezeFrom].
  destruct (decide (x = d)) as [->|Hne].
  - assert (head s <> Some d) as Hh.
    { intros [t ->]%head_Some. simpl in Hp.
      by rewrite !bool_decide_eq_true_2 in Hp. }
    split; [by rewrite IH2|]. by intros [].
  - by rewrite IH1.
Qed.

Lemma squeeze_fixed (d : A) s : contains [d; d] s = false -> squeeze d s = s.
Proof. intros Hc. by apply squeezeFrom_fixed. Qed.

Lemma squeezeFrom_replace_dd (d : A) s b :
  squeezeFrom d b (replaceAll s [d; d] [d]) = squeezeFrom d b s.
Proof.
  unfold replaceAll. remember (length s) as n eqn:Hn.
  revert s b Hn. induction n as [n IH] using lt_wf_ind. intros s b Hn.
  destruct s as [|x s]; [done|]. cbn [replaceFrom].
  destruct (hasPrefix [d; d] (x :: s)) eqn:Hp.
  - apply hasPrefix_spec in Hp as [t Ht]. injection Ht as -> ->.
    cbn [length Nat.sub app replaceFrom squeezeFrom].
    rewrite !decide_True by done.
    rewrite (IH (length t)) by (simpl in Hn; lia || done).
    by destruct b.
  - cbn [squeezeFrom]. rewrite !(IH (length s)) by (simpl in Hn; lia || done).
    done.
Qed.
End Facts.
End TrimFacts.

(* ===================================================================== *)
(** ** The server-side canonicalizer *)
(* ===================================================================== *)

Module GoFacts.
Import Str StrFacts TrimFacts Regex RegexFacts TableFacts Go Spec.

(** *** Bytes *)

Lemma byteval_range c : 0 <= byteval c < 256.
Proof. by destruct c as [[] [] [] [] [] [] [] []]; vm_compute. Qed.

Lemma byte_of_byteval c : byte_of (byteval c) = c.
Proof.
  unfold byte_of, byteval. rewrite N2Z.id. apply ascii_N_embedding.
Qed.

Lemma byteval_byte_of z : 0 <= z < 256 -> byteval (byte_of z) = z.
Proof.
  intros Hz. unfold byte_of, byteval.
  rewrite N_ascii_embedding by lia. lia.
Qed.

Lemma byteval_inj c1 c2 : byteval c1 = byteval c2 -> c1 = c2.
Proof. apply byteval_Inj. Qed.

(** *** The replacement table: the order of the visit is irrelevant *)

Lemma replacements_singleChars : singleChars replacements.
Proof. repeat constructor. Qed.

Lemma replacements_NoDup : NoDup replacements.*1.
Proof. apply (bool_decide_unpack _). by vm_compute. Qed.

Lemma replacements_closed : closedTable replacements.
Proof.
  assert (Forall (fun p => Forall (fun y => [y] ∉ replacements.*1) p.2) replacements) as Hall
    by (apply (bool_decide_unpack _); by vm_compute).
  intros p y Hp Hy. rewrite Forall_forall in Hall.
  specialize (Hall p Hp). rewrite Forall_forall in Hall. by apply Hall.
Qed.

Lemma applyReplacements_foldl order s :
  applyReplacements order s = foldl (fun acc p => replaceAll acc p.1 p.2) s order.
Proof.
  unfold applyReplacements. revert s.
  induction order as [|[old new] order IH]; intros s; [done|]. simpl. apply IH.
Qed.

Lemma applyReplacements_subst s :
  applyReplacements replacements s = s ≫= substTable replacements.
Proof.
  rewrite applyReplacements_foldl.
  apply (foldl_step_subst (fun acc p => replaceAll acc p.1 p.2)).
  - intros. apply replaceAll_char.
  - apply replacements_singleChars.
  - apply replacements_closed.
Qed.

Lemma applyReplacements_Permutation order s :
  order ≡ₚ replacements ->
  applyReplacements order s = applyReplacements replacements s.
Proof.
  intros Hp. rewrite !applyReplacements_foldl.
  apply (foldl_step_Permutation (fun acc p => replaceAll acc p.1 p.2));
    auto using replacements_singleChars, replacements_closed, replacements_NoDup.
  intros. apply replaceAll_char.
Qed.

(** *** Sanitising: [strings.Map] leaves label characters only *)

Lemma labelChar_byte_of z :
  97 <= z <= 122 \/ 48 <= z <= 57 \/ z = 45 -> labelChar (byte_of z) = true.
Proof.
  intros Hz. unfold labelChar, lowerAlnum, inRange.
  rewrite byteval_byte_of by lia. chr_values.
  destruct Hz as [Hz|[Hz| ->]].
  - replace (97 <=? z) with true by lia. replace (z <=? 122) with true by lia. done.
  - replace (48 <=? z) with true by lia. replace (z <=? 57) with true by lia.
    simpl. by rewrite orb_true_r.
  - by vm_compute.
Qed.

Lemma sanitizeRune_range r :
  let r' := sanitizeRune r in 97 <= r' <= 122 \/ 48 <= r' <= 57 \/ r' = 45.
Proof.
  unfold sanitizeRune, unicode_ToLower, inRange. chr_values.
  repeat case_match; lia.
Qed.

Lemma encodeRune_ascii r : 0 <= r <= 127 -> encodeRune r = [byte_of r].
Proof.
  intros Hr. unfold encodeRune, inRange.
  replace (0 <=? r) with true by lia. replace (r <=? 127) with true by lia. done.
Qed.

Lemma MapFrom_sanitize_label skip s : Forall (fun c => labelChar c = true) (MapFrom sanitizeRune skip s).
Proof.
  revert skip. induction s as [|c s IH]; intros skip; [constructor|].
  cbn [MapFrom]. destruct skip as [|k]; [|apply IH].
  destruct (decodeRune (c :: s)) as [r width].
  pose proof (sanitizeRune_range r) as Hr. simpl in Hr.
  replace (sanitizeRune r <? 0) with false by lia.
  rewrite encodeRune_ascii by lia. simpl. constructor; [|apply IH].
  by apply labelChar_byte_of.
Qed.

Lemma Map_sanitize_label s : Forall (fun c => labelChar c = true) (Map sanitizeRune s).
Proof. apply MapFrom_sanitize_label. Qed.

(** *** Character classes *)

Lemma str_hyphen : str "-" = ["-"%char].
Proof. done. Qed.

Lemma str_hyphens : str "--" = ["-"%char; "-"%char].
Proof. done. Qed.

Lemma lowerAlnum_labelChar c : lowerAlnum c = true -> labelChar c = true.
Proof. unfold labelChar. by intros ->. Qed.

Lemma lowerAlnum_not_hyphen c : lowerAlnum c = true -> c <> "-"%char.
Proof. by intros Hc ->. Qed.

Lemma labelChar_cases c : labelChar c = true -> lowerAlnum c = true \/ c = "-"%char.
Proof.
  unfold labelChar. intros [Hc|Hc]%orb_true_iff; [by left|right].
  by apply bool_decide_eq_true in Hc.
Qed.

Lemma lowerAlnum_isAlphanumeric c :
  lowerAlnum c = true -> isAlphanumeric (byteval c) = true.
Proof.
  unfold lowerAlnum, isAlphanumeric, inRange.
  intros [Hc|Hc]%orb_true_iff; rewrite Hc; [done|]. by rewrite orb_true_r.
Qed.

Lemma isHyphen_false c : isHyphen c = false <-> c <> "-"%char.
Proof. unfold isHyphen. apply bool_decide_eq_false. Qed.

(** *** Clean names *)

Lemma Word_no_hyphen part : Word part -> "-"%char ∉ part.
Proof.
  intros [_ Hp] Hin. rewrite Forall_forall in Hp.
  by apply (lowerAlnum_not_hyphen _ (Hp _ Hin)).
Qed.

Lemma Word_label part : Word part -> Forall (fun c => labelChar c = true) part.
Proof. intros [_ Hp]. eapply Forall_impl; [done|]. apply lowerAlnum_labelChar. Qed.

Lemma Word_head part : Word part -> exists c, head part = Some c /\ lowerAlnum c = true.
Proof.
  intros [Hne Hp]. destruct part as [|c part]; [done|].
  exists c. split; [done|]. by inversion Hp.
Qed.

Lemma Word_last part : Word part -> exists c, last part = Some c /\ lowerAlnum c = true.
Proof.
  intros [Hne Hp]. destruct (last part) as [c|] eqn:Hl; [|by apply last_None in Hl].
  exists c. split; [done|]. rewrite Forall_forall in Hp.
  by apply Hp, last_Some_elem_of.
Qed.

Section CleanFacts.
Context (r : gostring) (parts : list gostring).
Hypothesis Hne : parts <> [].
Hypothesis Hwords : Forall Word parts.
Hypothesis Hr : r = join parts (str "-").

Lemma Clean_split : split r (str "-") = parts.
Proof.
  subst r. rewrite str_hyphen. apply split_join; [done|].
  eapply Forall_impl; [done|]. apply Word_no_hyphen.
Qed.

Lemma Clean_head_Some : exists c, head r = Some c /\ lowerAlnum c = true.
Proof.
  subst r. destruct Hwords as [|part rest Hpart _]; [done|].
  rewrite head_join by apply Hpart. by apply Word_head.
Qed.

Lemma Clean_last_Some : exists c, last r = Some c /\ lowerAlnum c = true.
Proof.
  subst r. destruct (last parts) as [q|] eqn:Hl; [|by apply last_None in Hl].
  assert (Word q) as Hq.
  { rewrite Forall_forall in Hwords. by apply Hwords, last_Some_elem_of. }
  rewrite (last_join _ _ q) by (done || apply Hq). by apply Word_last.
Qed.

Lemma Clean_nonempty : r <> [].
Proof. destruct Clean_head_Some as (c & Hc & _). by intros ->. Qed.

Lemma Clean_label : Forall (fun c => labelChar c = true) r.
Proof.
  subst r. apply Forall_join; [|by repeat constructor].
  eapply Forall_impl; [done|]. apply Word_label.
Qed.
End CleanFacts.

Lemma Clean_no_dd r : Clean r -> contains (str "--") r = false.
Proof.
  intros (parts & Hne & Hwords & ->). rewrite str_hyphens, str_hyphen.
  induction Hwords as [|q [|q' rest] Hq Hrest IH]; [done| |].
  - simpl. by apply contains_dd_notin, Word_no_hyphen.
  - rewrite join_cons_cons. apply contains_dd_app.
    + by apply contains_dd_notin, Word_no_hyphen.
    + apply contains_dd_app; [done|by apply IH|]. right.
      destruct (Clean_head_Some _ (q' :: rest) ltac:(done) Hrest eq_refl)
        as (c & Hc & Hal).
      rewrite str_hyphen in Hc. rewrite Hc. intros [= ->]. done.
    + left. destruct (Word_last _ Hq) as (c & -> & Hal). intros [= ->]. done.
Qed.

Lemma Clean_intro t :
  t <> [] -> Forall (fun c => labelChar c = true) t ->
  (forall c, head t = Some c -> c <> "-"%char) ->
  (forall c, last t = Some c -> c <> "-"%char) ->
  contains (str "--") t = false -> Clean t.
Proof.
  intros Hne Hlabel Hhead Hlast Hdd. exists (split t (str "-")).
  rewrite str_hyphen, str_hyphens in *.
  pose proof (split_parts_nonempty t "-"%char Hdd) as Hsplit.
  pose proof (Forall_split _ t "-"%char Hlabel) as Hparts.
  pose proof (split_parts_no_sep t "-"%char) as Hnosep.
  split; [apply split_nonempty|]. split; [|by rewrite join_split].
  assert (Forall (fun q => q <> []) (split t ["-"%char])) as Hnonempty.
  { destruct (split t ["-"%char]) as [|part rest]; [constructor|].
    destruct Hsplit as [Hpart Hrest].
    { intros Hl. by apply (Hlast _ Hl). }
    constructor; [|done]. intros Hp. apply Hpart in Hp as [?|Hh]; [done|].
    by apply (Hhead _ Hh). }
  apply Forall_forall. intros q Hq. rewrite Forall_forall in Hnonempty, Hparts, Hnosep.
  split; [by apply Hnonempty|]. apply Forall_forall. intros c Hc.
  specialize (Hparts q Hq). rewrite Forall_forall in Hparts.
  destruct (labelChar_cases c (Hparts c Hc)) as [?| ->]; [done|].
  by destruct (Hnosep q Hq).
Qed.

(** *** The collapsing loop terminates *)

Lemma collapseLoop_Some fuel s :
  (length s <= fuel)%nat ->
  exists r, collapseLoop fuel s = Some r
    /\ contains (str "--") r = false
    /\ (Forall (fun c => labelChar c = true) s -> Forall (fun c => labelChar c = true) r).
Proof.
  revert s. induction fuel as [|fuel IH]; intros s Hlen.
  - destruct s; [|simpl in Hlen; lia]. by exists [].
  - cbn [collapseLoop]. destruct (contains (str "--") s) eqn:Hc.
    + pose proof (replace_dd_shrinks "-"%char s Hc) as Hlt.
      rewrite str_hyphens, str_hyphen.
      destruct (IH (replaceAll s ["-"%char; "-"%char] ["-"%char])) as (r & Hr & Hdd & Hlab);
        [lia|].
      exists r. split; [done|]. split; [done|]. intros Hs. apply Hlab.
      by apply replace_dd_Forall.
    + by exists s.
Qed.

(** *** [cleanup]: a clean name, or [x--x] when nothing is left *)

Lemma collapseLoop_squeeze fuel s r :
  collapseLoop fuel s = Some r -> r = squeeze "-"%char s.
Proof.
  revert s. induction fuel as [|fuel IH]; intros s; cbn [collapseLoop];
    destruct (contains (str "--") s) eqn:Hc; try done.
  - intros [= <-]. symmetry. by apply squeeze_fixed.
  - intros Hr. apply IH in Hr. rewrite Hr. apply squeezeFrom_replace_dd.
  - intros [= <-]. symmetry. by apply squeeze_fixed.
Qed.

Lemma cleanup_cases order name :
  let t := trim isHyphen
             (squeeze "-"%char (Map sanitizeRune (applyReplacements order name))) in
  (t = [] /\ cleanup order name = Some (str "x--x"))
  \/ (Clean t /\ cleanup order name = Some t).
Proof.
  intros t. subst t. unfold cleanup.
  pose proof (Map_sanitize_label (applyReplacements order name)) as Hlab.
  destruct (collapseLoop_Some (length (Map sanitizeRune (applyReplacements order name)))
              (Map sanitizeRune (applyReplacements order name)) ltac:(done))
    as (r1 & Hloop & Hdd & Hlab1).
  rewrite Hloop. apply collapseLoop_squeeze in Hloop as <-.
  specialize (Hlab1 Hlab). cbn [mbind option_bind].
  pose proof (Forall_trim _ isHyphen r1 Hlab1) as Hlab2.
  pose proof (contains_trim _ isHyphen r1 Hdd) as Hdd2.
  pose proof (trim_head isHyphen r1) as Hhead.
  pose proof (trim_last isHyphen r1) as Hlast.
  destruct (trim isHyphen r1) as [|c t] eqn:Ht.
  - by left.
  - assert (Clean (c :: t)) as Hclean.
    { apply Clean_intro; try done.
      - intros c' Hc'. by apply isHyphen_false, Hhead.
      - intros c' Hc'. by apply isHyphen_false, Hlast. }
    right. split; [done|].
    destruct Hclean as (parts & Hne & Hwords & Hr).
    destruct (Clean_head_Some _ _ Hne Hwords Hr) as (c' & [= <-] & Hal).
    destruct (Clean_last_Some _ _ Hne Hwords Hr) as (l & Hl & Hall).
    rewrite (lowerAlnum_isAlphanumeric _ Hal). cbn [negb].
    rewrite Hl. cbn [mbind option_bind].
    by rewrite (lowerAlnum_isAlphanumeric _ Hall).
Qed.

Lemma cleanup_spec order name :
  exists r, cleanup order name = Some r /\ (r = str "x--x" \/ Clean r).
Proof.
  destruct (cleanup_cases order name) as [[_ Hc]|[Hclean Hc]]; eauto.
Qed.

(** *** [truncateParts] and [truncate] *)

Lemma take_Word k part : (1 <= k)%nat -> Word part -> Word (take k part).
Proof.
  intros Hk [Hne Hp]. split; [|by apply Forall_take].
  destruct part; [done|]. destruct k; [lia|done].
Qed.

(** The per-part budget leaves room for the hyphens. *)
Lemma targetLen_budget n :
  1 <= n -> 1 <= Z.quot (63 - (n - 1)) n -> n * (Z.quot (63 - (n - 1)) n + 1) <= 64.
Proof.
  intros Hn Ht.
  assert (0 <= 63 - (n - 1)) as Hnum.
  { destruct (decide (0 <= 63 - (n - 1))) as [|Hneg]; [done|].
    pose proof (Z.quot_opp_l (-(63 - (n - 1))) n ltac:(lia)) as Hq.
    rewrite Z.opp_involutive in Hq.
    pose proof (Z.quot_pos (-(63 - (n - 1))) n ltac:(lia) ltac:(lia)). lia. }
  rewrite Z.quot_div_nonneg in * by lia.
  pose proof (Z.mul_div_le (63 - (n - 1)) n ltac:(lia)). lia.
Qed.

Lemma sum_parts_bound (k : nat) (parts : list gostring) :
  Forall (fun part => (length part <= k)%nat) parts ->
  (sum_list_with (fun part => S (length part)) parts <= length parts * S k)%nat.
Proof. induction 1 as [|q rest Hq Hrest IH]; simpl; lia. Qed.

Lemma truncPart_Word targetLen part : 1 <= targetLen -> Word part -> Word (truncPart targetLen part).
Proof.
  intros Ht Hw. unfold truncPart. destruct (len part >? targetLen); [|done].
  apply take_Word; [lia|done].
Qed.

Lemma truncPart_length targetLen part :
  0 <= targetLen -> (length (truncPart targetLen part) <= Z.to_nat targetLen)%nat.
Proof.
  intros Ht. unfold truncPart, len. destruct (Z.gtb_spec (Z.of_nat (length part)) targetLen).
  - rewrite length_take. lia.
  - lia.
Qed.

Lemma truncPart_take targetLen part :
  0 <= targetLen -> truncPart targetLen part = take (Z.to_nat targetLen) part.
Proof.
  intros Ht. unfold truncPart, len. destruct (Z.gtb_spec (Z.of_nat (length part)) targetLen);
    [done|]. rewrite take_ge; [done|lia].
Qed.

Lemma truncateParts_Clean parts :
  parts <> [] -> Forall Word parts ->
  exists r, truncateParts parts MaxDNSLabelLength = Some r /\ Clean r /\ len r <= 63.
Proof.
  intros Hne Hwords. unfold truncateParts, MaxDNSLabelLength.
  assert (1 <= len parts) as Hn.
  { unfold len. destruct parts; [done|]. simpl. lia. }
  rewrite bool_decide_eq_false_2 by lia.
  destruct (Z.ltb_spec (Z.quot (63 - (len parts - 1)) (len parts)) 1) as [Hlt|Hge].
  - destruct parts as [|part rest]; [done|].
    assert (exists q, last (part :: rest) = Some q) as [q Hq].
    { destruct (last (part :: rest)) eqn:E; [eauto|]. by apply last_None in E. }
    rewrite last_lookup in Hq. simpl in Hq.
    replace (length (part :: rest) - 1)%nat with (length rest) by (simpl; lia).
    rewrite Hq. cbn [lookup list_lookup mbind option_bind].
    assert (Word q) as Hwq.
    { rewrite Forall_forall in Hwords. by eapply Hwords, list_elem_of_lookup_2. }
    inversion Hwords as [|? ? Hwp _]; subst.
    destruct Hwp as [Hp1 Hp2], Hwq as [Hq1 Hq2].
    destruct part as [|c part]; [done|]. destruct q as [|c' q]; [done|].
    cbn [slice1 mbind option_bind].
    exists ([c] ++ str "-" ++ [c']). split; [done|]. split; [|by vm_compute].
    exists [[c]; [c']]. split; [done|]. split; [|done].
    inversion Hp2; inversion Hq2; subst. repeat constructor; done.
  - set (targetLen := Z.quot (63 - (len parts - 1)) (len parts)) in *.
    eexists. split; [done|]. split.
    + eexists. split; [|split; [|done]].
      * by destruct parts.
      * apply Forall_fmap. eapply Forall_impl; [done|].
        intros part Hw. apply (truncPart_Word targetLen part Hge Hw).
    + pose proof (targetLen_budget (len parts) Hn Hge) as Hb. fold targetLen in Hb.
      pose proof (length_join ((fun part => if len part >? targetLen
                     then take (Z.to_nat targetLen) part else part) <$> parts) "-"%char) as Hlen.
      rewrite <- str_hyphen in Hlen. specialize (Hlen ltac:(by destruct parts)).
      pose proof (sum_parts_bound (Z.to_nat targetLen)
                    (truncPart targetLen <$> parts)) as Hsum.
      unfold truncPart in Hsum at 2. rewrite length_fmap in Hsum.
      assert (Forall (fun part => (length part <= Z.to_nat targetLen)%nat)
                (truncPart targetLen <$> parts)) as Hall.
      { apply Forall_fmap, Forall_forall. intros part _.
        apply truncPart_length. lia. }
      specialize (Hsum Hall). unfold len in *. nia.
Qed.

Lemma truncate_Clean r :
  Clean r -> exists r', truncate r = Some r' /\ Clean r' /\ len r' <= 63.
Proof.
  intros Hclean. pose proof Hclean as (parts & Hne & Hwords & Hr).
  unfold truncate, MaxDNSLabelLength.
  destruct (Z.gtb_spec (len r) 63) as [Hlong|Hshort]; [|by exists r].
  destruct (contains (str "-") r) eqn:Hc.
  - rewrite (Clean_split r parts) by done. by apply truncateParts_Clean.
  - exists (take (Z.to_nat 63) r). split; [done|].
    rewrite str_hyphen in Hc. apply contains_char_false in Hc.
    assert (Word r) as Hw.
    { split; [by eapply Clean_nonempty|].
      pose proof (Clean_label r parts Hwords Hr) as Hlab.
      apply Forall_forall. intros c Hin. rewrite Forall_forall in Hlab.
      destruct (labelChar_cases c (Hlab c Hin)) as [?| ->]; done. }
    split.
    + exists [take (Z.to_nat 63) r]. split; [done|]. split; [|done].
      constructor; [|done]. apply take_Word; [lia|done].
    + unfold len. rewrite length_take. lia.
Qed.

(** *** [MakeDNSFriendly] returns, and what it returns *)

Lemma MakeDNSFriendlyWith_spec order name :
  name <> [] -> isGKE name = false ->
  exists r, MakeDNSFriendlyWith order name = Some r
    /\ (r = str "x--x" \/ (Clean r /\ len r <= 63)).
Proof.
  intros Hne Hgke. unfold MakeDNSFriendlyWith.
  rewrite bool_decide_eq_false_2, Hgke by done.
  destruct (cleanup_spec order name) as (r & -> & [-> | Hclean]).
  - exists (str "x--x"). split; [done|by left].
  - destruct (truncate_Clean r Hclean) as (r' & Ht & Hclean' & Hlen).
    cbn [mbind option_bind]. rewrite Ht. cbn [mbind option_bind].
    destruct Hclean' as (parts & Hp & Hw & Hr).
    rewrite bool_decide_eq_false_2 by (by eapply Clean_nonempty).
    exists r'. split; [done|]. right. split; [by exists parts|done].
Qed.

Lemma MakeDNSFriendlyWith_total order name :
  exists r, MakeDNSFriendlyWith order name = Some r.
Proof.
  destruct (decide (name = [])) as [->|Hne]; [by eexists|].
  destruct (isGKE name) eqn:Hgke.
  - exists name. unfold MakeDNSFriendlyWith.
    by rewrite bool_decide_eq_false_2, Hgke.
  - destruct (MakeDNSFriendlyWith_spec order name Hne Hgke) as (r & Hr & _). eauto.
Qed.

Lemma MakeDNSFriendlyWith_Permutation order name :
  order ≡ₚ replacements -> MakeDNSFriendlyWith order name = MakeDNSFriendly name.
Proof.
  intros Hp. unfold MakeDNSFriendly, MakeDNSFriendlyWith, cleanup.
  by rewrite (applyReplacements_Permutation order).
Qed.

(** *** The patterns *)

Lemma Clean_dnsLabelOrSingle r : Clean r -> fullmatch dnsLabelOrSingle r = true.
Proof.
  intros (parts & Hne & Hwords & Hr). apply fullmatch_spec.
  destruct (Clean_head_Some r parts Hne Hwords Hr) as (h & Hh & Hhal).
  destruct (Clean_last_Some r parts Hne Hwords Hr) as (l & Hl & Hlal).
  pose proof (Clean_label r parts Hwords Hr) as Hlab.
  apply head_Some in Hh as [t Ht]. rewrite Ht in *.
  change (h :: t) with ([h] ++ t). constructor; [by constructor|].
  destruct t as [|y t]; [apply lang_alt_l; constructor|].
  apply lang_alt_r. rewrite last_cons_cons in Hl.
  apply last_Some in Hl as [mid Hmid]. rewrite Hmid in *.
  constructor; [|by constructor]. apply lang_star_class.
  change ([h] ++ mid ++ [l]) with (h :: mid ++ [l]) in Hlab.
  apply Forall_cons in Hlab as [_ Hlab]. by apply Forall_app in Hlab as [? _].
Qed.

Lemma gkePattern_inv name :
  fullmatch gkePattern name = true ->
  exists s1 s2 s3, name = str "gke_" ++ s1 ++ str "_" ++ s2 ++ str "_" ++ s3.
Proof.
  intros Hm. apply fullmatch_spec in Hm. unfold gkePattern in Hm.
  apply lang_seq_inv in Hm as (p0 & r0 & -> & ->%lang_lit & Hm).
  apply lang_seq_inv in Hm as (s1 & r1 & -> & _ & Hm).
  apply lang_seq_inv in Hm as (u1 & r2 & -> & ->%lang_lit & Hm).
  apply lang_seq_inv in Hm as (s2 & r3 & -> & _ & Hm).
  apply lang_seq_inv in Hm as (u2 & s3 & -> & ->%lang_lit & _).
  by exists s1, s2, s3.
Qed.

Lemma gkePattern_isGKE name : fullmatch gkePattern name = true -> isGKE name = true.
Proof.
  intros Hm. destruct (gkePattern_inv name Hm) as (s1 & s2 & s3 & Hname).
  unfold isGKE. rewrite Hm, andb_true_r. apply andb_true_iff. split.
  - rewrite Hname. apply hasPrefix_app.
  - rewrite Hname. change (str "_") with ["_"%char]. rewrite count_char.
    rewrite !filter_app, !length_app.
    assert (length (filter (fun x => x = "_"%char) (str "gke_")) = 1%nat) as -> by done.
    assert (length (filter (fun x => x = "_"%char) ["_"%char]) = 1%nat) as -> by done.
    apply Z.geb_le. lia.
Qed.

(** *** A clean name of at most 63 bytes is a fixed point *)

Lemma label_ascii c :
  labelChar c = true ->
  (byteval c <? 0x80) = true /\ sanitizeRune (byteval c) = byteval c
  /\ substTable replacements c = [c] /\ c <> "_"%char.
Proof.
  destruct c as [[] [] [] [] [] [] [] []]; intros Hc; try discriminate Hc;
    by vm_compute.
Qed.

Lemma Map_label s : Forall (fun c => labelChar c = true) s -> Map sanitizeRune s = s.
Proof.
  unfold Map. induction 1 as [|c s Hc Hs IH]; [done|].
  destruct (label_ascii c Hc) as (Hlt & Hsan & _).
  cbn [MapFrom decodeRune]. rewrite Hlt, Hsan.
  pose proof (byteval_range c) as Hrange.
  replace (byteval c <? 0) with false by lia.
  rewrite encodeRune_ascii by lia. rewrite byte_of_byteval.
  simpl. by rewrite IH.
Qed.

Lemma applyReplacements_label s :
  Forall (fun c => labelChar c = true) s -> applyReplacements replacements s = s.
Proof.
  intros Hs. rewrite applyReplacements_subst. apply bind_id_on.
  eapply Forall_impl; [done|]. intros c Hc. by apply label_ascii.
Qed.

Lemma isGKE_label s : Forall (fun c => labelChar c = true) s -> isGKE s = false.
Proof.
  intros Hs. unfold isGKE.
  destruct (hasPrefix (str "gke_") s) eqn:Hp; [|done].
  apply hasPrefix_spec in Hp as [t ->]. rewrite Forall_forall in Hs.
  assert (labelChar "_"%char = true) as Hu by (apply Hs; set_solver).
  done.
Qed.

Lemma collapseLoop_fixed fuel s : contains (str "--") s = false -> collapseLoop fuel s = Some s.
Proof. intros Hc. destruct fuel; cbn [collapseLoop]; by rewrite Hc. Qed.

Lemma cleanup_Clean r : Clean r -> cleanup replacements r = Some r.
Proof.
  intros Hclean. pose proof Hclean as (parts & Hne & Hwords & Hr).
  pose proof (Clean_label r parts Hwords Hr) as Hlab.
  destruct (Clean_head_Some r parts Hne Hwords Hr) as (h & Hh & Hhal).
  destruct (Clean_last_Some r parts Hne Hwords Hr) as (l & Hl & Hlal).
  unfold cleanup. rewrite applyReplacements_label, Map_label by done.
  rewrite collapseLoop_fixed by (by apply Clean_no_dd). cbn [mbind option_bind].
  rewrite trim_id.
  - apply head_Some in Hh as [t Ht]. rewrite Ht in *.
    rewrite (lowerAlnum_isAlphanumeric _ Hhal). cbn [negb].
    rewrite Hl. cbn [mbind option_bind].
    by rewrite (lowerAlnum_isAlphanumeric _ Hlal).
  - intros c Hc. rewrite Hh in Hc. injection Hc as <-.
    by apply isHyphen_false, lowerAlnum_not_hyphen.
  - intros c Hc. rewrite Hl in Hc. injection Hc as <-.
    by apply isHyphen_false, lowerAlnum_not_hyphen.
Qed.

Lemma MakeDNSFriendly_Clean r : Clean r -> len r <= 63 -> MakeDNSFriendly r = Some r.
Proof.
  intros Hclean Hlen. pose proof Hclean as (parts & Hne & Hwords & Hr).
  pose proof (Clean_nonempty r parts Hne Hwords Hr) as Hnonempty.
  unfold MakeDNSFriendly, MakeDNSFriendlyWith.
  rewrite bool_decide_eq_false_2 by done.
  rewrite isGKE_label by (by eapply Clean_label).
  rewrite cleanup_Clean by done. cbn [mbind option_bind].
  unfold truncate, MaxDNSLabelLength.
  destruct (Z.gtb_spec (len r) 63); [lia|]. cbn [mbind option_bind].
  by rewrite bool_decide_eq_false_2.
Qed.

(** Every result but [x--x] is a fixed point. *)
Lemma MakeDNSFriendly_fixed name r :
  MakeDNSFriendly name = Some r -> r <> str "x--x" -> MakeDNSFriendly r = Some r.
Proof.
  intros Hr Hx. destruct (decide (name = [])) as [->|Hne].
  - injection Hr as <-. by vm_compute.
  - destruct (isGKE name) eqn:Hgke.
    + unfold MakeDNSFriendly, MakeDNSFriendlyWith in Hr.
      rewrite bool_decide_eq_false_2, Hgke in Hr by done. injection Hr as <-.
      unfold MakeDNSFriendly, MakeDNSFriendlyWith.
      by rewrite bool_decide_eq_false_2, Hgke.
    + destruct (MakeDNSFriendlyWith_spec replacements name Hne Hgke)
        as (r' & Hr' & Hcases).
      unfold MakeDNSFriendly in Hr. rewrite Hr in Hr'. injection Hr' as <-.
      destruct Hcases as [?|[Hclean Hlen]]; [done|].
      by apply MakeDNSFriendly_Clean.
Qed.

(** *** The truncation, against its description *)

Lemma truncate_truncateSpec r :
  Clean r -> 63 < len r -> truncate r = Some (truncateSpec r).
Proof.
  intros Hclean Hlong. pose proof Hclean as (parts & Hne & Hwords & Hr).
  unfold truncate, truncateSpec, MaxDNSLabelLength.
  destruct (Z.gtb_spec (len r) 63); [|lia].
  rewrite str_hyphen.
  destruct (contains ["-"%char] r) eqn:Hc.
  - apply contains_char in Hc. rewrite bool_decide_eq_true_2 by done.
    rewrite <- str_hyphen, (Clean_split r parts) by done.
    unfold truncateParts.
    assert (1 <= len parts) as Hn.
    { unfold len. destruct parts; [done|]. simpl. lia. }
    rewrite bool_decide_eq_false_2 by lia.
    destruct (Z.ltb_spec (Z.quot (63 - (len parts - 1)) (len parts)) 1) as [Hlt|Hge].
    + assert ((63 - (len parts - 1)) / len parts < 1) as Hdiv.
      { destruct (decide (0 <= 63 - (len parts - 1))) as [Hpos|Hneg].
        - by rewrite <- Z.quot_div_nonneg by lia.
        - pose proof (Z.div_lt_upper_bound (63 - (len parts - 1)) (len parts) 1). lia. }
      rewrite bool_decide_eq_false_2 by lia.
      destruct parts as [|part rest]; [done|].
      assert (exists q, last (part :: rest) = Some q) as [q Hq].
      { destruct (last (part :: rest)) eqn:E; [eauto|]. by apply last_None in E. }
      rewrite Hq. rewrite last_lookup in Hq. simpl in Hq.
      replace (length (part :: rest) - 1)%nat with (length rest) by (simpl; lia).
      rewrite Hq. cbn [lookup list_lookup mbind option_bind head default].
      assert (Word q) as [Hq1 _].
      { rewrite Forall_forall in Hwords. by eapply Hwords, list_elem_of_lookup_2. }
      inversion Hwords as [|? ? [Hp1 _] _]; subst.
      destruct part as [|c part]; [done|]. destruct q as [|c' q]; [done|].
      done.
    + assert (0 <= 63 - (len parts - 1)) as Hnum.
      { pose proof (targetLen_budget (len parts) Hn Hge). nia. }
      rewrite <- Z.quot_div_nonneg by lia.
      rewrite bool_decide_eq_true_2 by lia. do 2 f_equal.
      apply list_fmap_ext. intros i part _.
      apply (truncPart_take (Z.quot (63 - (len parts - 1)) (len parts))). lia.
  - apply contains_char_false in Hc. by rewrite bool_decide_eq_false_2.
Qed.

(** *** ASCII strings under [strings.Map] *)

Lemma Map_ascii s : Forall isASCII s -> Map sanitizeRune s = sanitizeByte <$> s.
Proof.
  unfold Map. induction 1 as [|c s Hc Hs IH]; [done|].
  cbn [MapFrom decodeRune]. unfold isASCII in Hc.
  replace (byteval c <? 0x80) with true by lia.
  pose proof (sanitizeRune_range (byteval c)) as Hr. simpl in Hr.
  replace (sanitizeRune (byteval c) <? 0) with false by lia.
  rewrite encodeRune_ascii by lia. simpl. by rewrite IH.
Qed.

End GoFacts.

(* ===================================================================== *)
(** ** The string primitives under an injective change of alphabet *)
(* ===================================================================== *)

Module MapFacts.
Import Str StrFacts TrimFacts Regex.
Section Facts.
Context {A B : Type} {eqA : EqDecision A} {eqB : EqDecision B}.
Context (f : A -> B) {f_inj : Inj (=) (=) f}.
Implicit Types (s sub : list A).
Local Open Scope nat_scope.

Lemma bool_decide_inj (a c : A) : bool_decide (f a = f c) = bool_decide (a = c).
Proof. apply bool_decide_ext. split; [apply f_inj|by intros ->]. Qed.

Lemma hasPrefix_fmap (p : list A) s : hasPrefix (f <$> p) (f <$> s) = hasPrefix p s.
Proof.
  revert s. induction p as [|a p IH]; intros [|b s]; simpl; try done.
  by rewrite bool_decide_inj, IH.
Qed.

Lemma contains_fmap sub s : contains (f <$> sub) (f <$> s) = contains sub s.
Proof.
  induction s as [|b s IH].
  - pose proof (hasPrefix_fmap sub []) as Hp. simpl in *. by rewrite Hp.
  - pose proof (hasPrefix_fmap sub (b :: s)) as Hp. rewrite fmap_cons in *.
    cbn [contains]. by rewrite Hp, IH.
Qed.

Lemma split_fmap s (c : A) : split (f <$> s) [f c] = fmap (M:=list) f <$> split s [c].
Proof.
  induction s as [|x s IH]; [done|].
  rewrite fmap_cons, !split_cons, IH.
  destruct (decide (x = c)) as [->|Hne].
  - by rewrite decide_True.
  - rewrite decide_False by (intros ?%f_inj; done).
    by destruct (split s [c]).
Qed.

Lemma join_fmap (parts : list (list A)) sep :
  join (fmap (M:=list) f <$> parts) (f <$> sep) = f <$> join parts sep.
Proof.
  induction parts as [|q [|q' rest] IH]; [done..|].
  rewrite !fmap_cons, join_cons_cons. rewrite fmap_cons in IH.
  rewrite IH, join_cons_cons, !fmap_app. done.
Qed.

Lemma trimLeft_fmap (cut : A -> bool) (cut' : B -> bool) s :
  (forall a, cut' (f a) = cut a) ->
  trimLeft cut' (f <$> s) = f <$> trimLeft cut s.
Proof.
  intros Hcut. induction s as [|x s IH]; [done|].
  rewrite fmap_cons. cbn [trimLeft]. rewrite Hcut, IH. by destruct (cut x).
Qed.

Lemma trimRight_fmap (cut : A -> bool) (cut' : B -> bool) s :
  (forall a, cut' (f a) = cut a) ->
  trimRight cut' (f <$> s) = f <$> trimRight cut s.
Proof.
  intros Hcut. induction s as [|x s IH]; [done|].
  rewrite fmap_cons. cbn [trimRight]. rewrite IH, Hcut.
  by destruct (trimRight cut s), (cut x).
Qed.

Lemma trim_fmap (cut : A -> bool) (cut' : B -> bool) s :
  (forall a, cut' (f a) = cut a) ->
  trim cut' (f <$> s) = f <$> trim cut s.
Proof.
  intros Hcut. unfold trim.
  by rewrite (trimLeft_fmap cut), (trimRight_fmap cut).
Qed.

Lemma length_split s (c : A) : length (split s [c]) = S (count [c] s).
Proof.
  rewrite count_char. induction s as [|x s IH]; [done|].
  rewrite split_cons, filter_cons.
  destruct (decide (x = c)); simpl; [by rewrite IH|].
  pose proof (split_nonempty s c). by destruct (split s [c]).
Qed.

Lemma regexRel_nullable r r' : regexRel f r r' -> nullable r' = nullable r.
Proof. induction 1; simpl; congruence. Qed.

Lemma regexRel_deriv a r r' : regexRel f r r' -> regexRel f (deriv a r) (deriv (f a) r').
Proof.
  induction 1 as [| |p p' Hp|r1 r2 r1' r2' H1 IH1 H2 IH2|r1 r2 r1' r2' H1 IH1 H2 IH2|r r' H IH];
    simpl; try by constructor.
  - rewrite Hp. destruct (p a); constructor.
  - rewrite (regexRel_nullable r1 r1') by done.
    destruct (nullable r1); repeat constructor; done.
  - repeat constructor; done.
Qed.

Lemma regexRel_fullmatch r r' s : regexRel f r r' -> fullmatch r' (f <$> s) = fullmatch r s.
Proof.
  revert r r'. induction s as [|a s IH]; intros r r' Hrel; simpl.
  - by apply regexRel_nullable.
  - apply IH. by apply regexRel_deriv.
Qed.

Lemma regexRel_Lit (lit : list A) : regexRel f (Lit lit) (Lit (f <$> lit)).
Proof.
  induction lit as [|c lit IH]; simpl; repeat constructor; [|done].
  intros a. apply bool_decide_inj.
Qed.
End Facts.
End MapFacts.

(* ===================================================================== *)
(** ** The client-side mirror *)
(* ===================================================================== *)

Module JSFacts.
Import Str StrFacts TrimFacts Regex RegexFacts TableFacts MapFacts Go Spec GoFacts.

(** *** The replacement step *)

Lemma JS_replacements_singleChars : singleChars JS.replacements.
Proof. repeat constructor. Qed.

Lemma JS_replacements_closed : closedTable JS.replacements.
Proof.
  assert (Forall (fun p => Forall (fun y => [y] ∉ JS.replacements.*1) p.2) JS.replacements)
    as Hall by (apply (bool_decide_unpack _); by vm_compute).
  intros p y Hp Hy. rewrite Forall_forall in Hall.
  specialize (Hall p Hp). rewrite Forall_forall in Hall. by apply Hall.
Qed.

Lemma JS_applyReplacements_subst t :
  JS.applyReplacements JS.replacements t = t ≫= substTable JS.replacements.
Proof.
  unfold JS.applyReplacements.
  transitivity (foldl (fun acc p => join (split acc p.1) p.2) t JS.replacements).
  { generalize JS.replacements. intros tbl. revert t.
    induction tbl as [|[old new] tbl IH]; intros t; [done|]. simpl. apply IH. }
  apply (foldl_step_subst (fun acc p => join (split acc p.1) p.2)).
  - intros. apply join_split_subst.
  - apply JS_replacements_singleChars.
  - apply JS_replacements_closed.
Qed.

Lemma substTable_byteval c :
  substTable JS.replacements (byteval c) = byteval <$> substTable Go.replacements c.
Proof. by destruct c as [[] [] [] [] [] [] [] []]; vm_compute. Qed.

Lemma applyReplacements_agree order s :
  order ≡ₚ Go.replacements ->
  JS.applyReplacements JS.replacements (byteval <$> s)
  = byteval <$> Go.applyReplacements order s.
Proof.
  intros Hp. rewrite (applyReplacements_Permutation order) by done.
  rewrite JS_applyReplacements_subst, applyReplacements_subst.
  induction s as [|c s IH]; [done|].
  rewrite fmap_cons, !bind_cons, fmap_app, IH. f_equal. apply substTable_byteval.
Qed.

(** *** Agreement with the server on ASCII names *)

Lemma isHyphen_byteval c : JS.isHyphen (byteval c) = Go.isHyphen c.
Proof. unfold JS.isHyphen, Go.isHyphen, chr. apply bool_decide_inj, _. Qed.

Lemma labelUnit_byteval c : JS.labelUnit (byteval c) = gkeSegmentChar c.
Proof.
  unfold JS.labelUnit, JS.lowerAlnumUnit, gkeSegmentChar, chr. f_equal.
  apply bool_decide_inj, _.
Qed.

Lemma gke_regexRel : regexRel byteval gkePattern JS.gkeRegex.
Proof.
  unfold gkePattern, JS.gkeRegex, Plus.
  repeat first
    [ apply (regexRel_Lit byteval)
    | apply rel_class; intros a; apply labelUnit_byteval
    | constructor ].
Qed.

Lemma isGKE_agree name : JS.isGKE (byteval <$> name) = Go.isGKE name.
Proof.
  unfold JS.isGKE, Go.isGKE.
  rewrite (hasPrefix_fmap byteval (str "gke_")).
  rewrite (regexRel_fullmatch byteval gkePattern) by apply gke_regexRel.
  do 2 f_equal. change (JS.str "_") with [byteval "_"%char].
  rewrite (split_fmap byteval). unfold len. rewrite length_fmap, length_split.
  change (str "_") with ["_"%char].
  destruct (Z.geb_spec (Z.of_nat (S (count ["_"%char] name))) 4),
           (Z.geb_spec (Z.of_nat (count ["_"%char] name)) 3); lia || done.
Qed.

Lemma perChar_agree c :
  isASCII c ->
  JS.sanitize (JS.toLowerCaseUnit (byteval c) ≫= substTable JS.replacements)
  = byteval <$> (sanitizeByte <$> substTable Go.replacements c).
Proof.
  destruct c as [[] [] [] [] [] [] [] []]; intros Hc; try (by vm_compute in Hc);
    by vm_compute.
Qed.

Lemma substTable_ascii c : isASCII c -> Forall isASCII (substTable Go.replacements c).
Proof.
  destruct c as [[] [] [] [] [] [] [] []]; intros Hc; try (by vm_compute in Hc);
    repeat constructor.
Qed.

Lemma pipeline_agree s :
  Forall isASCII s ->
  JS.sanitize (JS.applyReplacements JS.replacements (JS.toLowerCase (byteval <$> s)))
  = byteval <$> Map sanitizeRune (Go.applyReplacements Go.replacements s).
Proof.
  intros Hs. rewrite JS_applyReplacements_subst, applyReplacements_subst.
  rewrite Map_ascii by (apply Forall_bind; eapply Forall_impl; [done|apply substTable_ascii]).
  unfold JS.toLowerCase, JS.sanitize.
  induction Hs as [|c s Hc Hs IH]; [done|].
  rewrite fmap_cons, !bind_cons, !bind_app, !fmap_app, IH. f_equal.
  by apply perChar_agree.
Qed.

Lemma collapseFrom_agree b t :
  JS.collapseFrom b (byteval <$> t) = byteval <$> squeezeFrom "-"%char b t.
Proof.
  revert b. induction t as [|x t IH]; intros b; [done|].
  rewrite fmap_cons. cbn [JS.collapseFrom squeezeFrom].
  rewrite isHyphen_byteval. unfold Go.isHyphen.
  destruct (decide (x = "-"%char)) as [->|Hne].
  - rewrite bool_decide_eq_true_2 by done. destruct b; rewrite IH; done.
  - rewrite bool_decide_eq_false_2 by done. by rewrite IH.
Qed.

Lemma truncate_agree r :
  JS.truncate (byteval <$> r)
  = byteval <$> (if len r >? 63 then truncateSpec r else r).
Proof.
  unfold JS.truncate, JS.MAX_DNS_LABEL_LENGTH, truncateSpec.
  assert (len (byteval <$> r) = len r) as -> by (unfold len; by rewrite length_fmap).
  destruct (len r >? 63); [|done].
  rewrite (contains_fmap byteval (str "-")). rewrite str_hyphen.
  destruct (contains ["-"%char] r) eqn:Hc.
  - apply contains_char in Hc. rewrite bool_decide_eq_true_2 by done.
    change (JS.str "-") with [byteval "-"%char].
    rewrite (split_fmap byteval).
    assert (len (fmap (M:=list) byteval <$> split r ["-"%char]) = len (split r ["-"%char]))
      as -> by (unfold len; by rewrite length_fmap).
    set (parts := split r ["-"%char]).
    set (targetLen := (63 - (len parts - 1)) / len parts).
    destruct (Z.geb_spec targetLen 1) as [Hge|Hlt].
    + rewrite bool_decide_eq_true_2 by lia.
      assert (take (Z.to_nat targetLen) <$> (fmap (M:=list) byteval <$> parts)
              = fmap (M:=list) byteval <$> (take (Z.to_nat targetLen) <$> parts)) as ->.
      { rewrite <- !list_fmap_compose. apply list_fmap_ext.
        intros; simpl; by rewrite fmap_take. }
      apply (join_fmap byteval _ ["-"%char]).
    + rewrite bool_decide_eq_false_2 by lia.
      unfold JS.part. rewrite !list_lookup_fmap, length_fmap.
      rewrite <- head_lookup.
      replace (parts !! (length parts - 1)%nat) with (last parts)
        by (rewrite last_lookup; f_equal; lia).
      rewrite !fmap_app, !fmap_take.
      by destruct (head parts), (last parts).
  - apply contains_char_false in Hc. rewrite bool_decide_eq_false_2 by done.
    by rewrite fmap_take.
Qed.

Lemma ensureAlnumEnds_Clean t :
  Clean t -> JS.ensureAlnumEnds (byteval <$> t) = byteval <$> t.
Proof.
  intros (parts & Hp & Hw & Hr).
  destruct (Clean_head_Some t parts Hp Hw Hr) as (h & Hh & Hhal).
  destruct (Clean_last_Some t parts Hp Hw Hr) as (l & Hl & Hlal).
  unfold JS.ensureAlnumEnds, JS.startsAlnum, JS.endsAlnum.
  rewrite bool_decide_eq_false_2
    by (intros ?%fmap_nil_inv; by eapply (Clean_nonempty t)).
  assert (head (byteval <$> t) = Some (byteval h)) as ->
    by (destruct t; [done|by injection Hh as ->]).
  cbn [orb].
  change (JS.lowerAlnumUnit (byteval h)) with (lowerAlnum h). rewrite Hhal. cbn [negb].
  rewrite fmap_last, Hl. cbn [fmap option_fmap option_map].
  change (JS.lowerAlnumUnit (byteval l)) with (lowerAlnum l). by rewrite Hlal.
Qed.

Lemma truncate_cases t :
  Clean t ->
  let r := if len t >? 63 then truncateSpec t else t in
  truncate t = Some r /\ r <> [].
Proof.
  intros Hclean r. subst r.
  destruct (truncate_Clean t Hclean) as (r' & Hr' & (parts' & Hp' & Hw' & Hj) & _).
  pose proof (Clean_nonempty r' parts' Hp' Hw' Hj) as Hne.
  destruct (Z.gtb_spec (len t) 63) as [Hlong|Hshort].
  - rewrite (truncate_truncateSpec t Hclean Hlong) in *. by injection Hr' as <-.
  - unfold truncate, MaxDNSLabelLength in *.
    destruct (Z.gtb_spec (len t) 63); [lia|]. by injection Hr' as <-.
Qed.

(** X16.  On ASCII names the two implementations return the same text:
    the server returns, and the code units that the client returns are, one
    for one, the bytes of the server's result. *)
Theorem makeDNSFriendly_agree_ascii name :
  Forall isASCII name ->
  exists r, MakeDNSFriendly name = Some r
    /\ JS.makeDNSFriendly (byteval <$> name) = byteval <$> r.
Proof.
  intros Hascii. unfold JS.makeDNSFriendly, MakeDNSFriendly, MakeDNSFriendlyWith.
  destruct (decide (name = [])) as [->|Hne]; [by eexists|].
  rewrite (bool_decide_eq_false_2 (name = [])) by done.
  rewrite bool_decide_eq_false_2 by (by destruct name).
  rewrite isGKE_agree. destruct (isGKE name); [by eexists|].
  rewrite pipeline_agree by done.
  unfold JS.collapse. rewrite collapseFrom_agree.
  rewrite (trim_fmap byteval Go.isHyphen) by apply isHyphen_byteval.
  destruct (cleanup_cases Go.replacements name) as [[Ht Hc]|[Hclean Hc]];
    fold (squeeze "-"%char (Map sanitizeRune (applyReplacements replacements name))) in *;
    rewrite Hc; cbn [mbind option_bind].
  - rewrite Ht. by exists (str "x--x").
  - set (t := trim Go.isHyphen _) in *.
    destruct (truncate_cases t Hclean) as [Htr Hne'].
    rewrite Htr. cbn [mbind option_bind].
    rewrite bool_decide_eq_false_2 by done.
    eexists. split; [done|].
    rewrite ensureAlnumEnds_Clean, truncate_agree by done.
    rewrite bool_decide_eq_false_2; [done|]. by intros ?%fmap_nil_inv.
Qed.
End JSFacts.

(* ===================================================================== *)
(** ** The context store *)
(* ===================================================================== *)

Module StoreFacts.
Import Go GoFacts Store.
Section Facts.
Context {Object JSONErr : Type}.
Variable json_Marshal : Object -> result JSONErr gostring.
Variable json_Unmarshal : gostring -> result JSONErr CustomObject.

Local Abbreviation AddContext := (Store.AddContext json_Marshal json_Unmarshal).
Local Abbreviation effectiveName := (Store.effectiveName json_Marshal json_Unmarshal).
Local Abbreviation decodeInfo := (Store.decodeInfo json_Marshal json_Unmarshal).
Local Abbreviation GetContexts := (@Store.GetContexts Object JSONErr).

Lemma MakeDNSFriendly_total name : exists r, MakeDNSFriendly name = Some r.
Proof. apply MakeDNSFriendlyWith_total. Qed.

Lemma AddContext_Ok p st ctx name key :
  heap st !! p = Some ctx -> effectiveName ctx = Ok name ->
  MakeDNSFriendly name = Some key ->
  AddContext p st
  = Some (Ok (), {| heap := <[p := setName key ctx]> (heap st);
                    cache := cache_Set key p (cache st) |}).
Proof.
  intros Hp Hname Hkey. unfold Store.AddContext.
  rewrite Hp. cbn [mbind option_bind]. rewrite Hname, Hkey. done.
Qed.

Lemma AddContext_Err p st ctx err :
  heap st !! p = Some ctx -> effectiveName ctx = Err err ->
  AddContext p st = Some (Err (ErrJSON err), st).
Proof.
  intros Hp Hname. unfold Store.AddContext.
  rewrite Hp. cbn [mbind option_bind]. by rewrite Hname.
Qed.

Lemma effectiveName_Err ctx err :
  effectiveName ctx = Err err <->
  exists info, headlampInfo ctx = Some info /\ decodeInfo info = Err err.
Proof.
  unfold Store.effectiveName. split.
  - destruct (headlampInfo ctx) as [info|]; [|done].
    destruct (decodeInfo info) as [obj|e] eqn:Hd.
    + by case_bool_decide.
    + intros [= ->]. eauto.
  - intros (info & -> & ->). done.
Qed.

(** Entries that are alive at [now], as [GetAll] returns them. *)
Lemma cache_GetAll_insert_live (now : Z) key (e : entry ptr) c :
  isExpired now e = false ->
  cache_GetAll now (<[key := e]> c) = <[key := value e]> (cache_GetAll now c).
Proof.
  intros Hlive. unfold cache_GetAll.
  rewrite map_filter_insert_True by done. by rewrite fmap_insert.
Qed.

Lemma cache_GetAll_expired (now : Z) key (e : entry ptr) c :
  c !! key = Some e -> isExpired now e = true ->
  cache_GetAll now c = cache_GetAll now (delete key c).
Proof.
  intros Hkey Hexp. unfold cache_GetAll. rewrite map_filter_delete.
  rewrite delete_id; [done|]. apply map_lookup_filter_None. right.
  intros e' He'. rewrite Hkey in He'. injection He' as <-. simpl. congruence.
Qed.

Lemma GetContexts_length now st :
  exists l, GetContexts now st = Ok l
            /\ length l = size (cache_GetAll now (cache st)).
Proof.
  eexists. split; [done|]. by rewrite length_fmap, length_map_to_list.
Qed.
End Facts.
End StoreFacts.

(* ===================================================================== *)
(** ** The stateless-cluster registry *)
(* ===================================================================== *)

Module RegistryFacts.
Import JS Registry.
Section Facts.
Context {Blob : Type}.
Variable decode : Blob -> option (list KubeconfigContext).

Local Abbreviation recordMatches := (Registry.recordMatches decode).
Local Abbreviation replaceFirst := (Registry.replaceFirst decode).

Lemma replaceFirst_None clusterName newBlob rs :
  Forall (fun r => recordMatches clusterName r = false) rs ->
  replaceFirst clusterName newBlob rs = None.
Proof.
  induction 1 as [|r rs Hr Hrs IH]; [done|]. simpl. by rewrite Hr, IH.
Qed.

Lemma replaceFirst_app clusterName newBlob rs r rest :
  Forall (fun r => recordMatches clusterName r = false) rs ->
  recordMatches clusterName r = true ->
  replaceFirst clusterName newBlob (rs ++ r :: rest)
  = Some (rs ++ {| id := id r; kubeconfig := newBlob |} :: rest).
Proof.
  induction 1 as [|r0 rs Hr0 Hrs IH]; intros Hr; simpl.
  - by rewrite Hr.
  - by rewrite Hr0, IH.
Qed.
End Facts.
End RegistryFacts.

(* ===================================================================== *)
(** * The stated properties *)
(* ===================================================================== *)

Import Str StrFacts TrimFacts Regex RegexFacts TableFacts MapFacts.
Import Go Spec GoFacts JSFacts.

(** ** Canonicalizer *)

(** The embeddings reproduce the repository's own test table, server and
    client. *)
Example TestMakeDNSFriendly_server :
  Forall (fun tc => MakeDNSFriendly (utf8 tc.1) = Some (str tc.2)) Examples.testCases.
Proof. repeat (constructor; [by vm_compute|]). constructor. Qed.

Example TestMakeDNSFriendly_client :
  Forall (fun tc => JS.makeDNSFriendly (JS.utf16 tc.1) = JS.str tc.2) Examples.testCases.
Proof. repeat (constructor; [by vm_compute|]). constructor. Qed.

(** C1.  The claim is that server and client return the same text for
    every input.  They do not: on the name [a], KELVIN SIGN (U+212A), [b]
    the server, which lowers [A-Z] only, replaces the sign by a hyphen and
    returns [a-b], while the client, which lowers the whole string first,
    turns the sign into [k] and returns [akb].  (On ASCII names the two
    agree: [JSFacts.makeDNSFriendly_agree_ascii].) *)
Theorem makeDNSFriendly_differs_on_kelvin_sign :
  MakeDNSFriendly (utf8 [0x61; 0x212A; 0x62]) = Some (str "a-b")
  /\ JS.makeDNSFriendly (JS.utf16 [0x61; 0x212A; 0x62]) = JS.str "akb"
  /\ JS.str "akb" <> byteval <$> str "a-b".
Proof. by vm_compute. Qed.

(** C2, as stated, fails: the one-letter name [a] is not empty and not a
    GKE name, it is returned as it is, and [a] does not match
    [^[a-z0-9][a-z0-9-]*[a-z0-9]$], which needs two characters. *)
Lemma MakeDNSFriendly_single_letter_not_dnsLabel :
  str "a" <> []
  /\ fullmatch gkePattern (str "a") = false
  /\ MakeDNSFriendly (str "a") = Some (str "a")
  /\ fullmatch dnsLabel (str "a") = false.
Proof. by vm_compute. Qed.

(** C2, amended.  For every non-empty name: if it matches the GKE pattern
    it is returned unchanged; otherwise the result has at most 63 bytes
    and matches [^[a-z0-9]([a-z0-9-]*[a-z0-9])?$], that is, it matches
    [^[a-z0-9][a-z0-9-]*[a-z0-9]$] as soon as it has two bytes, and is one
    letter or digit otherwise. *)
Theorem MakeDNSFriendly_label name :
  name <> [] ->
  if fullmatch gkePattern name
  then MakeDNSFriendly name = Some name
  else exists r, MakeDNSFriendly name = Some r
         /\ fullmatch dnsLabelOrSingle r = true
         /\ (2 <= len r -> fullmatch dnsLabel r = true)
         /\ len r <= 63.
Proof.
  intros Hne. destruct (fullmatch gkePattern name) eqn:Hm.
  - apply gkePattern_isGKE in Hm. unfold MakeDNSFriendly, MakeDNSFriendlyWith.
    by rewrite bool_decide_eq_false_2, Hm.
  - assert (isGKE name = false) as Hgke by (unfold isGKE; by rewrite Hm, andb_false_r).
    destruct (MakeDNSFriendlyWith_spec replacements name Hne Hgke)
      as (r & Hr & [-> | [Hclean Hlen]]).
    + exists (str "x--x"). split; [exact Hr|]. by vm_compute.
    + exists r. split; [done|]. split; [by apply Clean_dnsLabelOrSingle|].
      split; [|done]. intros Htwo.
      pose proof (Clean_dnsLabelOrSingle r Hclean) as Hl.
      apply fullmatch_spec in Hl. apply fullmatch_spec.
      apply lang_seq_inv in Hl as (s1 & s2 & -> & Hs1 & Hs2).
      constructor; [done|]. inversion Hs2 as [| | |? ? ? Heps|? ? ? Hrest| |]; subst; [|done].
      inversion Heps; subst. apply lang_class_inv in Hs1 as (a & -> & _).
      unfold len in Htwo. simpl in Htwo. lia.
Qed.

Lemma MakeDNSFriendly_label_witness :
  str "my cluster.name" <> []
  /\ if fullmatch gkePattern (str "my cluster.name")
     then MakeDNSFriendly (str "my cluster.name") = Some (str "my cluster.name")
     else exists r, MakeDNSFriendly (str "my cluster.name") = Some r
            /\ fullmatch dnsLabelOrSingle r = true
            /\ (2 <= len r -> fullmatch dnsLabel r = true)
            /\ len r <= 63.
Proof. split; [done|]. apply (MakeDNSFriendly_label (str "my cluster.name")). done. Defined.

(** C3.  The claim is idempotence.  The code breaks it where nothing is
    left after cleaning: the name [-] is turned into [x--x] (the prefix
    [x-] and the suffix [-x] around the empty string), which has two
    hyphens in a row, and [x--x] is turned into [x-x].  (Every other
    result is a fixed point: [GoFacts.MakeDNSFriendly_fixed].) *)
Theorem MakeDNSFriendly_not_idempotent_on_hyphen :
  MakeDNSFriendly (str "-") = Some (str "x--x")
  /\ MakeDNSFriendly (str "x--x") = Some (str "x-x")
  /\ str "x--x" <> str "x-x".
Proof. by vm_compute. Qed.

(** C4.  When the cleaned-up name [r] is longer than 63 bytes, the result
    is the truncation of [r] as the specification words it
    ([truncateSpec]): split on [-], per-part budget
    [floor((63 - (n-1)) / n)], every part cut to the budget and rejoined,
    or first character, [-], first character of the last part when the
    budget is below one, or the first 63 bytes when there is no hyphen;
    and seventy [a] give sixty-three [a]. *)
Theorem MakeDNSFriendly_truncates_as_specified :
  (forall name r,
      name <> [] -> isGKE name = false ->
      cleanup replacements name = Some r -> 63 < len r ->
      MakeDNSFriendly name = Some (truncateSpec r))
  /\ MakeDNSFriendly (replicate 70 "a"%char) = Some (replicate 63 "a"%char).
Proof.
  split; [|by vm_compute].
  intros name r Hne Hgke Hc Hlong.
  destruct (cleanup_spec replacements name) as (r' & Hr' & Hcases).
  rewrite Hc in Hr'. injection Hr' as <-.
  destruct Hcases as [->|Hclean]; [by vm_compute in Hlong|].
  unfold MakeDNSFriendly, MakeDNSFriendlyWith.
  rewrite bool_decide_eq_false_2, Hgke, Hc by done. cbn [mbind option_bind].
  destruct (truncate_cases r Hclean) as [Ht Hnonempty].
  replace (len r >? 63) with true in * by lia.
  rewrite Ht. cbn [mbind option_bind]. by rewrite bool_decide_eq_false_2.
Qed.

Lemma MakeDNSFriendly_truncates_as_specified_witness :
  let name := mjoin (replicate 30 (str "ab-")) in
  let r := take 89 name in
  (name <> [] /\ isGKE name = false /\ cleanup replacements name = Some r /\ 63 < len r)
  /\ MakeDNSFriendly name = Some (truncateSpec r)
  /\ truncateSpec r = mjoin (replicate 29 (str "a-")) ++ str "a".
Proof.
  intros name r.
  assert (name <> [] /\ isGKE name = false /\ cleanup replacements name = Some r
          /\ 63 < len r) as H by (by vm_compute).
  split; [exact H|]. split; [|by vm_compute].
  destruct H as (H1 & H2 & H3 & H4).
  exact (proj1 MakeDNSFriendly_truncates_as_specified name r H1 H2 H3 H4).
Defined.

(** C10.  No pattern character occurs in any replacement text, so the
    twelve replacements give the same string in whatever order the pairs
    are applied: the server's loop over its map, in any order of visit,
    yields what the table's textual order yields, the client's
    split-and-join over the same table in its fixed order yields the same
    sequence, and the name returned by the server does not depend on the
    order of the visit. *)
Theorem replacement_order_irrelevant order :
  order ≡ₚ replacements ->
  length replacements = 12%nat
  /\ closedTable replacements
  /\ (forall s, applyReplacements order s = applyReplacements replacements s)
  /\ (forall s, JS.applyReplacements JS.replacements (byteval <$> s)
                = byteval <$> applyReplacements order s)
  /\ (forall name, MakeDNSFriendlyWith order name = MakeDNSFriendly name).
Proof.
  intros Hp. split; [done|]. split; [apply replacements_closed|].
  split; [intros; by apply applyReplacements_Permutation|].
  split; [intros; by apply applyReplacements_agree|].
  intros. by apply MakeDNSFriendlyWith_Permutation.
Qed.

Lemma replacement_order_irrelevant_witness :
  reverse replacements ≡ₚ replacements
  /\ forall s, applyReplacements (reverse replacements) s = applyReplacements replacements s.
Proof.
  assert (reverse replacements ≡ₚ replacements) as Hp by apply reverse_Permutation.
  split; [exact Hp|].
  exact (proj1 (proj2 (proj2 (replacement_order_irrelevant (reverse replacements) Hp)))).
Defined.

(** ** Context store *)

Import Store StoreFacts.

Section ContextStoreClaims.
Context {Object JSONErr : Type}.
Variable json_Marshal : Object -> result JSONErr gostring.
Variable json_Unmarshal : gostring -> result JSONErr CustomObject.

Local Abbreviation AddContext := (Store.AddContext json_Marshal json_Unmarshal).
Local Abbreviation GetContexts := (@Store.GetContexts Object JSONErr).
Local Abbreviation GetContext := (@Store.GetContext Object JSONErr).
Local Abbreviation UpdateTTL := (@Store.UpdateTTL Object JSONErr).
Local Abbreviation AddContextWithKeyAndTTL := (@Store.AddContextWithKeyAndTTL Object JSONErr).

Lemma AddContext_inv p st st' :
  AddContext p st = Some (Ok (), st') ->
  exists ctx name key,
    heap st !! p = Some ctx
    /\ effectiveName json_Marshal json_Unmarshal ctx = Ok name
    /\ MakeDNSFriendly name = Some key
    /\ st' = {| heap := <[p := setName key ctx]> (heap st);
                cache := cache_Set key p (cache st) |}.
Proof.
  unfold Store.AddContext. destruct (heap st !! p) as [ctx|] eqn:Hp; [|done].
  cbn [mbind option_bind].
  destruct (effectiveName json_Marshal json_Unmarshal ctx) as [name|err] eqn:Hname;
    [|done].
  destruct (MakeDNSFriendly name) as [key|] eqn:Hkey; [|done].
  cbn [mbind option_bind]. intros [= <-]. by exists ctx, name, key.
Qed.

(** C5.  After a successful [AddContext], a second successful
    [AddContext] whose context ends up with the same canonical [Name]
    overwrites the entry stored under that name: [GetContext] on the
    name returns the second context, and [GetContexts] returns as many
    contexts as before the second call. *)
Theorem AddContext_same_name_overwrites (now : Z) p1 p2 st st1 st2 c1 c2 :
  AddContext p1 st = Some (Ok (), st1) ->
  AddContext p2 st1 = Some (Ok (), st2) ->
  heap st1 !! p1 = Some c1 -> heap st2 !! p2 = Some c2 ->
  Name c1 = Name c2 ->
  GetContext now (Name c2) st2 = Ok p2
  /\ exists l1 l2,
      GetContexts now st1 = Ok l1 /\ GetContexts now st2 = Ok l2
      /\ length l2 = length l1.
Proof.
  intros H1 H2 Hc1 Hc2 Hname.
  apply AddContext_inv in H1 as (ctx1 & n1 & k1 & Hp1 & _ & _ & ->).
  apply AddContext_inv in H2 as (ctx2 & n2 & k2 & Hp2 & _ & _ & ->).
  cbn [heap cache] in *.
  rewrite lookup_insert_eq in Hc1, Hc2. injection Hc1 as <-. injection Hc2 as <-.
  cbn [Name setName] in *. subst k2.
  unfold Store.GetContext, cache_Get, cache_Set. cbn [cache].
  rewrite lookup_insert_eq. split; [done|].
  destruct (GetContexts_length (JSONErr:=JSONErr) now
              {| heap := <[p1:=setName k1 ctx1]> (heap st);
                 cache := cache_Set k1 p1 (cache st) |}) as (l1 & Hl1 & Hlen1).
  destruct (GetContexts_length (JSONErr:=JSONErr) now
              {| heap := <[p2:=setName k1 ctx2]> (<[p1:=setName k1 ctx1]> (heap st));
                 cache := cache_Set k1 p2 (cache_Set k1 p1 (cache st)) |})
    as (l2 & Hl2 & Hlen2).
  exists l1, l2. split; [done|]. split; [done|].
  rewrite Hlen1, Hlen2. cbn [cache]. unfold cache_Set.
  rewrite insert_insert_eq, !cache_GetAll_insert_live by done.
  rewrite !map_size_insert. done.
Qed.

(** C6.  For a context at a valid pointer, [AddContext] fails exactly
    when the context carries a [headlamp_info] extension that does not
    decode: it then returns the decode error and leaves heap and cache as
    they were; in every other case it succeeds. *)
Theorem AddContext_fails_only_on_malformed_extension p st ctx :
  heap st !! p = Some ctx ->
  match headlampInfo ctx with
  | Some info =>
      match decodeInfo json_Marshal json_Unmarshal info with
      | Err err => AddContext p st = Some (Err (ErrJSON err), st)
      | Ok _ => exists st', AddContext p st = Some (Ok (), st')
      end
  | None => exists st', AddContext p st = Some (Ok (), st')
  end.
Proof.
  intros Hp.
  assert (forall name, effectiveName json_Marshal json_Unmarshal ctx = Ok name ->
                       exists st', AddContext p st = Some (Ok (), st')) as Hok.
  { intros name Hname. destruct (MakeDNSFriendly_total name) as [key Hkey].
    eexists. by eapply AddContext_Ok. }
  destruct (headlampInfo ctx) as [info|] eqn:Hinfo.
  - destruct (decodeInfo json_Marshal json_Unmarshal info) as [obj|err] eqn:Hd.
    + unfold effectiveName in Hok. rewrite Hinfo, Hd in Hok.
      case_bool_decide; eauto.
    + eapply AddContext_Err; [done|]. apply effectiveName_Err. eauto.
  - apply (Hok (Name ctx)). unfold effectiveName. by rewrite Hinfo.
Qed.

(** C7.  After [AddContextWithKeyAndTTL(ctx, k, d)] at time [now]:
    [GetContext(k)] returns the context (its [Name] canonicalized) at
    every time before [now + d] and [NotFound] at every time after, when
    the entry is also left out of [GetContexts]; [UpdateTTL(k, d')] at a
    time [t1] before the expiry succeeds and moves the expiry to
    [t1 + d']; and [UpdateTTL] on an absent key is [NotFound]. *)
Theorem TTL_entry_expires (now d : Z) p k st ctx :
  heap st !! p = Some ctx ->
  exists st1 name,
    AddContextWithKeyAndTTL now p k d st = Some (Ok (), st1)
    /\ MakeDNSFriendly (Name ctx) = Some name
    /\ heap st1 !! p = Some (setName name ctx)
    /\ (forall t, t < now + d -> GetContext t k st1 = Ok p)
    /\ (forall t, now + d < t ->
          GetContext t k st1 = Err ErrNotFound
          /\ GetContexts t st1
             = GetContexts t {| heap := heap st1; cache := delete k (cache st1) |})
    /\ (forall t1 d', t1 < now + d ->
          exists st2,
            UpdateTTL t1 k d' st1 = (Ok (), st2)
            /\ cache st2 !! k = Some {| value := p; expiresAt := Some (t1 + d') |}
            /\ (forall t, t < t1 + d' -> GetContext t k st2 = Ok p)
            /\ (forall t, t1 + d' < t -> GetContext t k st2 = Err ErrNotFound))
    /\ (forall t k' d' st0,
          cache st0 !! k' = None -> UpdateTTL t k' d' st0 = (Err ErrNotFound, st0)).
Proof.
  intros Hp. destruct (MakeDNSFriendly_total (Name ctx)) as [name Hname].
  eexists _, name. unfold Store.AddContextWithKeyAndTTL.
  rewrite Hp. cbn [mbind option_bind]. rewrite Hname. cbn [mbind option_bind].
  split; [done|]. split; [done|]. cbn [heap cache].
  split; [by rewrite lookup_insert_eq|].
  unfold Store.GetContext, cache_Get, cache_SetWithTTL. cbn [cache].
  split; [|split; [|split]].
  - intros t Ht. rewrite lookup_insert_eq. unfold isExpired. cbn [expiresAt value].
    by replace (now + d <? t) with false by lia.
  - intros t Ht. rewrite lookup_insert_eq. unfold isExpired. cbn [expiresAt value].
    replace (now + d <? t) with true by lia. split; [done|].
    unfold Store.GetContexts. cbn [cache]. do 3 f_equal.
    eapply cache_GetAll_expired; [apply lookup_insert_eq|].
    unfold isExpired. cbn [expiresAt]. lia.
  - intros t1 d' Ht1. unfold Store.UpdateTTL, cache_UpdateTTL. cbn [cache heap].
    rewrite lookup_insert_eq. cbn [value]. eexists. split; [done|]. cbn [cache].
    rewrite insert_insert_eq, lookup_insert_eq. split; [done|].
    unfold isExpired. cbn [expiresAt value]. split; intros t Ht.
    + by replace (t1 + d' <? t) with false by lia.
    + by replace (t1 + d' <? t) with true by lia.
  - intros t k' d' st0 Hk. unfold Store.UpdateTTL, cache_UpdateTTL. rewrite Hk.
    by destruct st0.
Qed.
End ContextStoreClaims.

Lemma AddContext_same_name_overwrites_witness :
  let key := str "my-cluster" in
  let c1 := setName key (Examples.plain (str "My Cluster")) in
  let c2 := setName key (Examples.plain (str "my.cluster")) in
  let st1 := {| heap := <[1%positive := c1]> (heap Examples.st0);
                cache := cache_Set key 1%positive (cache Examples.st0) |} in
  let st2 := {| heap := <[2%positive := c2]> (heap st1);
                cache := cache_Set key 2%positive (cache st1) |} in
  (AddContext Examples.marshal Examples.unmarshal 1%positive Examples.st0 = Some (Ok (), st1)
   /\ AddContext Examples.marshal Examples.unmarshal 2%positive st1 = Some (Ok (), st2)
   /\ heap st1 !! 1%positive = Some c1 /\ heap st2 !! 2%positive = Some c2
   /\ Name c1 = Name c2)
  /\ GetContext (JSONErr:=string) 0 (Name c2) st2 = Ok 2%positive
  /\ exists l1 l2,
      GetContexts (JSONErr:=string) 0 st1 = Ok l1
      /\ GetContexts (JSONErr:=string) 0 st2 = Ok l2
      /\ length l2 = length l1.
Proof.
  intros key c1 c2 st1 st2.
  assert (AddContext Examples.marshal Examples.unmarshal 1%positive Examples.st0
          = Some (Ok (), st1)) as H1 by reflexivity.
  assert (AddContext Examples.marshal Examples.unmarshal 2%positive st1
          = Some (Ok (), st2)) as H2 by reflexivity.
  assert (heap st1 !! 1%positive = Some c1) as H3 by reflexivity.
  assert (heap st2 !! 2%positive = Some c2) as H4 by reflexivity.
  assert (Name c1 = Name c2) as H5 by reflexivity.
  split; [by repeat split|].
  exact (AddContext_same_name_overwrites Examples.marshal Examples.unmarshal 0
           1%positive 2%positive Examples.st0 st1 st2 c1 c2 H1 H2 H3 H4 H5).
Defined.

Lemma AddContext_fails_only_on_malformed_extension_witness :
  heap Examples.st0 !! 3%positive = Some (Examples.withInfo (str "broken") false)
  /\ AddContext Examples.marshal Examples.unmarshal 3%positive Examples.st0
     = Some (Err (ErrJSON "json: error calling MarshalJSON"%string), Examples.st0).
Proof.
  split; [reflexivity|].
  exact (AddContext_fails_only_on_malformed_extension Examples.marshal Examples.unmarshal
           3%positive Examples.st0 (Examples.withInfo (str "broken") false) eq_refl).
Defined.

Lemma TTL_entry_expires_witness :
  heap Examples.st0 !! 1%positive = Some (Examples.plain (str "My Cluster"))
  /\ exists st1 name,
      AddContextWithKeyAndTTL (JSONErr:=string) 0 1%positive (str "session-1")
        2000000000 Examples.st0 = Some (Ok (), st1)
      /\ MakeDNSFriendly (str "My Cluster") = Some name
      /\ GetContext (JSONErr:=string) 1000000000 (str "session-1") st1 = Ok 1%positive
      /\ GetContext (JSONErr:=string) 3000000000 (str "session-1") st1 = Err ErrNotFound.
Proof.
  split; [reflexivity|].
  destruct (TTL_entry_expires (JSONErr:=string) 0 2000000000 1%positive (str "session-1")
              Examples.st0 (Examples.plain (str "My Cluster")) eq_refl)
    as (st1 & name & Hadd & Hname & _ & Hbefore & Hafter & _).
  exists st1, name. split; [exact Hadd|]. split; [exact Hname|].
  split; [apply Hbefore; lia|]. apply Hafter. lia.
Defined.

(** ** Stateless-cluster registry *)

Import Registry RegistryFacts.

Section RegistryClaims.
Context {Blob : Type}.
Variable decode : Blob -> option (list KubeconfigContext).

(** C8.  When no stored record matches the cluster name,
    [findAndReplaceKubeconfig] without [create] rejects with the message
    "No context found matching the cluster name" and leaves the registry
    as it was; with [create] it appends the new blob as one new record. *)
Theorem findAndReplace_no_match clusterName newBlob reg :
  Forall (fun r => recordMatches decode clusterName r = false) (records reg) ->
  findAndReplaceKubeconfig decode clusterName newBlob false reg
  = (Rejected "No context found matching the cluster name", reg)
  /\ exists reg',
      findAndReplaceKubeconfig decode clusterName newBlob true reg = (Resolved (), reg')
      /\ records reg' = records reg ++ [{| id := nextId reg; kubeconfig := newBlob |}]
      /\ length (records reg') = S (length (records reg)).
Proof.
  intros Hnone. unfold findAndReplaceKubeconfig.
  rewrite (replaceFirst_None decode) by done. split; [done|].
  eexists. split; [done|]. split; [done|]. cbn [records].
  rewrite length_app. simpl. lia.
Qed.

(** C9.  Two blobs stored for distinct cluster names (each matches its
    own name and not the other's), in a registry where nothing matched
    either name: [findAndReplaceKubeconfig] on one of the names replaces
    the blob of that record only; the number of records is the same and
    the other record, identity and blob, is as before. *)
Theorem findAndReplace_replaces_only_match name1 name2 blob1 blob2 newBlob reg0 :
  Forall (fun r => recordMatches decode name1 r = false) (records reg0) ->
  Forall (fun r => recordMatches decode name2 r = false) (records reg0) ->
  blobMatches decode name1 blob1 = true -> blobMatches decode name2 blob1 = false ->
  blobMatches decode name2 blob2 = true -> blobMatches decode name1 blob2 = false ->
  let reg := (storeStatelessClusterKubeconfig blob2
                (storeStatelessClusterKubeconfig blob1 reg0).2).2 in
  let r1 := {| id := nextId reg0; kubeconfig := blob1 |} in
  let r2 := {| id := nextId reg0 + 1; kubeconfig := blob2 |} in
  records reg = records reg0 ++ [r1; r2]
  /\ (exists reg',
        findAndReplaceKubeconfig decode name1 newBlob false reg = (Resolved (), reg')
        /\ records reg'
           = records reg0 ++ [{| id := id r1; kubeconfig := newBlob |}; r2]
        /\ length (records reg') = length (records reg))
  /\ (exists reg',
        findAndReplaceKubeconfig decode name2 newBlob false reg = (Resolved (), reg')
        /\ records reg'
           = records reg0 ++ [r1; {| id := id r2; kubeconfig := newBlob |}]
        /\ length (records reg') = length (records reg)).
Proof.
  intros H01 H02 H11 H21 H22 H12 reg r1 r2.
  assert (records reg = records reg0 ++ [r1; r2]) as Hreg.
  { subst reg r1 r2. cbn [storeStatelessClusterKubeconfig snd records nextId].
    by rewrite <- app_assoc. }
  split; [done|]. unfold findAndReplaceKubeconfig. rewrite Hreg. split.
  - rewrite (replaceFirst_app decode name1 newBlob (records reg0) r1 [r2]) by done.
    eexists. split; [done|]. split; [done|]. cbn [records]. by rewrite !length_app.
  - change (records reg0 ++ [r1; r2]) with (records reg0 ++ [r1] ++ [r2]).
    rewrite app_assoc.
    rewrite (replaceFirst_app decode name2 newBlob (records reg0 ++ [r1]) r2 []).
    + eexists. split; [done|]. rewrite <- app_assoc. split; [done|].
      cbn [records]. rewrite !length_app. simpl. lia.
    + apply Forall_app. split; [done|]. by repeat constructor.
    + done.
Qed.
End RegistryClaims.

(** The TTL part of [TestContextStore], with the clock made explicit: the
    context is added at time 0 with a TTL of two seconds, read, its TTL is
    renewed, it is read again, and five seconds later it is gone. *)
Example TestContextStore_ttl :
  let key := str "testwithttl" in
  let st : State bool :=
    {| heap := {[ 1%positive := Examples.plain key ]}; cache := ∅ |} in
  exists st1 st2,
    AddContextWithKeyAndTTL (JSONErr:=string) 0 1%positive key 2000000000 st
    = Some (Ok (), st1)
    /\ GetContext (JSONErr:=string) 0 key st1 = Ok 1%positive
    /\ Name <$> heap st1 !! 1%positive = Some key
    /\ UpdateTTL (JSONErr:=string) 0 key 2000000000 st1 = (Ok (), st2)
    /\ GetContext (JSONErr:=string) 0 key st2 = Ok 1%positive
    /\ GetContext (JSONErr:=string) 5000000000 key st2 = Err ErrNotFound.
Proof. intros key st. do 2 eexists. repeat split; reflexivity. Qed.

Lemma findAndReplace_no_match_witness :
  let reg := (storeStatelessClusterKubeconfig (Examples.blobOf "first-cluster") empty).2 in
  Forall (fun r => recordMatches Examples.decodeBlob (JS.str "second-cluster") r = false)
    (records reg)
  /\ findAndReplaceKubeconfig Examples.decodeBlob (JS.str "second-cluster")
       (Examples.blobOf "second-cluster") false reg
     = (Rejected "No context found matching the cluster name", reg).
Proof.
  intros reg.
  assert (Forall (fun r => recordMatches Examples.decodeBlob (JS.str "second-cluster") r = false)
            (records reg)) as H by (subst reg; simpl; by repeat constructor).
  split; [exact H|].
  exact (proj1 (findAndReplace_no_match Examples.decodeBlob (JS.str "second-cluster")
                  (Examples.blobOf "second-cluster") reg H)).
Defined.

Lemma findAndReplace_replaces_only_match_witness :
  let reg := (storeStatelessClusterKubeconfig (Examples.blobOf "second-cluster")
                (storeStatelessClusterKubeconfig (Examples.blobOf "test-cluster") empty).2).2 in
  exists reg',
    findAndReplaceKubeconfig Examples.decodeBlob (JS.str "test-cluster")
      (Examples.blobOf "replacement") false reg = (Resolved (), reg')
    /\ kubeconfig <$> records reg'
       = [Examples.blobOf "replacement"; Examples.blobOf "second-cluster"].
Proof.
  intros reg.
  destruct (findAndReplace_replaces_only_match Examples.decodeBlob
              (JS.str "test-cluster") (JS.str "second-cluster")
              (Examples.blobOf "test-cluster") (Examples.blobOf "second-cluster")
              (Examples.blobOf "replacement") empty
              ltac:(constructor) ltac:(constructor)
              eq_refl eq_refl eq_refl eq_refl)
    as (_ & (reg' & Hrun & Hrecords & _) & _).
  exists reg'. split; [exact Hrun|]. by rewrite Hrecords.
Defined.

(* ===================================================================== *)
(** * Further properties of the code *)
(* ===================================================================== *)

(** ** The client-side mirror on arbitrary names *)

Module ClientFacts.
Import JS.

Lemma labelUnit_range u : labelUnit u = true -> 0 <= u < 256.
Proof.
  unfold labelUnit, lowerAlnumUnit, inRange. chr_values.
  intros H. repeat (apply orb_true_iff in H as [H|H]);
    try (apply andb_true_iff in H; lia).
  apply bool_decide_eq_true in H. lia.
Qed.

(** A string of label code units is a string of label bytes. *)
Lemma label_units_bytes u :
  Forall (fun x => labelUnit x = true) u ->
  exists s, u = byteval <$> s /\ Forall (fun c => labelChar c = true) s.
Proof.
  intros Hu. exists (byte_of <$> u). split.
  - rewrite <- list_fmap_compose. symmetry.
    rewrite <- (list_fmap_id u) at 2. apply Forall_fmap_ext_1.
    eapply Forall_impl; [done|]. intros x Hx. simpl.
    apply byteval_byte_of. by apply labelUnit_range.
  - apply Forall_fmap. eapply Forall_impl; [done|]. intros x Hx. simpl.
    change (labelChar (byte_of x)) with (gkeSegmentChar (byte_of x)).
    rewrite <- labelUnit_byteval, byteval_byte_of; [done|by apply labelUnit_range].
Qed.

Lemma sanitize_label u : Forall (fun x => labelUnit x = true) (sanitize u).
Proof.
  unfold sanitize. apply Forall_fmap, Forall_forall. intros x _. simpl.
  by destruct (labelUnit x) eqn:Hx.
Qed.

(** What the steps after the sanitizing make of a string of label bytes:
    [x--x], or a clean name of at most 63 bytes. *)
Lemma finish_label s :
  Forall (fun c => labelChar c = true) s ->
  exists r,
    (r = Go.str "x--x" \/ (Clean r /\ len r <= 63))
    /\ truncate (ensureAlnumEnds (trim isHyphen (collapse (byteval <$> s))))
       = byteval <$> r.
Proof.
  intros Hs. unfold collapse. rewrite collapseFrom_agree.
  rewrite (trim_fmap byteval Go.isHyphen) by apply isHyphen_byteval.
  destruct (cleanup_cases Go.replacements s) as [[Ht _]|[Hclean _]];
    rewrite applyReplacements_label, Map_label in * by done;
    fold (squeeze "-"%char s) in *.
  - rewrite Ht. exists (Go.str "x--x"). split; [by left|]. by vm_compute.
  - set (t := trim Go.isHyphen _) in *.
    destruct (truncate_Clean t Hclean) as (r & Hr & Hclean' & Hlen).
    destruct (truncate_cases t Hclean) as [Htr _]. rewrite Hr in Htr.
    injection Htr as ->.
    eexists. split; [right; split; [exact Hclean'|exact Hlen]|].
    by rewrite ensureAlnumEnds_Clean, truncate_agree.
Qed.

Lemma makeDNSFriendly_cases name :
  name <> [] -> isGKE name = false ->
  exists r, makeDNSFriendly name = byteval <$> r
    /\ (r = Go.str "x--x" \/ (Clean r /\ len r <= 63)).
Proof.
  intros Hne Hgke. unfold makeDNSFriendly.
  rewrite bool_decide_eq_false_2, Hgke by done. cbv zeta.
  destruct (label_units_bytes _
              (sanitize_label (applyReplacements replacements (toLowerCase name))))
    as (s & -> & Hs).
  destruct (finish_label s Hs) as (r & Hcases & ->).
  exists r. split; [|done].
  rewrite bool_decide_eq_false_2; [done|].
  intros Hnil%fmap_nil_inv. destruct Hcases as [->|[Hclean _]]; [done|].
  destruct Hclean as (parts & Hp & Hw & Hr). by eapply (Clean_nonempty r).
Qed.

(** A clean name of at most 63 bytes goes through the client unchanged. *)
Lemma makeDNSFriendly_Clean_bytes r :
  Clean r -> len r <= 63 -> makeDNSFriendly (byteval <$> r) = byteval <$> r.
Proof.
  intros Hclean Hlen. pose proof Hclean as (parts & Hp & Hw & Hr).
  pose proof (Clean_label r parts Hw Hr) as Hlab.
  pose proof (Clean_nonempty r parts Hp Hw Hr) as Hne.
  destruct (Clean_head_Some r parts Hp Hw Hr) as (h & Hh & Hhal).
  destruct (Clean_last_Some r parts Hp Hw Hr) as (l & Hl & Hlal).
  unfold makeDNSFriendly.
  rewrite bool_decide_eq_false_2 by (by intros ?%fmap_nil_inv).
  rewrite isGKE_agree, isGKE_label by done. cbv zeta.
  rewrite pipeline_agree
    by (eapply Forall_impl; [exact Hlab|]; intros c Hc;
        destruct (label_ascii c Hc) as (Hlt & _); unfold isASCII; lia).
  rewrite applyReplacements_label, Map_label by done.
  unfold collapse. rewrite collapseFrom_agree.
  fold (squeeze "-"%char r). rewrite squeeze_fixed
    by (rewrite <- str_hyphens; by apply Clean_no_dd).
  rewrite (trim_fmap byteval Go.isHyphen) by apply isHyphen_byteval.
  rewrite trim_id.
  - rewrite ensureAlnumEnds_Clean, truncate_agree by done.
    replace (len r >? 63) with false by lia.
    rewrite bool_decide_eq_false_2; [done|]. by intros ?%fmap_nil_inv.
  - intros c Hc. rewrite Hh in Hc. injection Hc as <-.
    by apply isHyphen_false, lowerAlnum_not_hyphen.
  - intros c Hc. rewrite Hl in Hc. injection Hc as <-.
    by apply isHyphen_false, lowerAlnum_not_hyphen.
Qed.

(** The code units of a clean name. *)
Lemma Clean_units r :
  Clean r ->
  Forall (fun u => labelUnit u = true) (byteval <$> r)
  /\ startsAlnum (byteval <$> r) = true /\ endsAlnum (byteval <$> r) = true
  /\ contains (str "--") (byteval <$> r) = false.
Proof.
  intros Hclean. pose proof Hclean as (parts & Hp & Hw & Hr).
  destruct (Clean_head_Some r parts Hp Hw Hr) as (h & Hh & Hhal).
  destruct (Clean_last_Some r parts Hp Hw Hr) as (l & Hl & Hlal).
  split.
  { apply Forall_fmap. eapply Forall_impl; [by eapply Clean_label|].
    intros c Hc. simpl. by rewrite labelUnit_byteval. }
  split.
  { unfold startsAlnum. destruct r; [done|]. by injection Hh as ->. }
  split.
  { unfold endsAlnum. by rewrite fmap_last, Hl. }
  change (str "--") with (byteval <$> Go.str "--").
  rewrite (contains_fmap byteval). by apply Clean_no_dd.
Qed.

(** Label code units that start and end with a letter or digit, without
    two hyphens in a row, are the bytes of a clean name. *)
Lemma clean_units name :
  Forall (fun u => labelUnit u = true) name ->
  startsAlnum name = true -> endsAlnum name = true ->
  contains (str "--") name = false ->
  exists r, name = byteval <$> r /\ Clean r.
Proof.
  intros Hlab Hstart Hend Hdd.
  destruct (label_units_bytes name Hlab) as (r & -> & Hr).
  exists r. split; [done|]. apply Clean_intro; [| | | |].
  - intros ->. done.
  - done.
  - intros c Hc. unfold startsAlnum in Hstart.
    destruct r as [|c' r]; [done|]. injection Hc as ->. simpl in Hstart.
    intros ->. done.
  - intros c Hc. unfold endsAlnum in Hend. rewrite fmap_last, Hc in Hend.
    simpl in Hend. intros ->. done.
  - change (str "--") with (byteval <$> Go.str "--") in Hdd.
    by rewrite (contains_fmap byteval) in Hdd.
Qed.

End ClientFacts.

(** ** The pattern of a DNS label on clean names *)

Module LabelFacts.
Import JS Loader.

Lemma dnsLabel_two r : fullmatch dnsLabel r = true -> 2 <= len r.
Proof.
  intros Hm. apply fullmatch_spec in Hm.
  apply lang_seq_inv in Hm as (s1 & s2 & -> & (a & -> & _)%lang_class_inv & Hm).
  apply lang_seq_inv in Hm as (s3 & s4 & -> & _ & (b & -> & _)%lang_class_inv).
  unfold len. rewrite !length_app. simpl. lia.
Qed.

Lemma Clean_dnsLabel r : Clean r -> fullmatch dnsLabel r = (2 <=? len r).
Proof.
  intros Hclean. destruct (Z.leb_spec 2 (len r)) as [Htwo|Hone].
  - pose proof (Clean_dnsLabelOrSingle r Hclean) as Hl.
    apply fullmatch_spec in Hl. apply fullmatch_spec.
    apply lang_seq_inv in Hl as (s1 & s2 & -> & Hs1 & Hs2).
    constructor; [done|]. inversion Hs2 as [| | |? ? ? Heps|? ? ? Hrest| |]; subst; [|done].
    inversion Heps; subst. apply lang_class_inv in Hs1 as (a & -> & _).
    unfold len in Htwo. simpl in Htwo. lia.
  - destruct (fullmatch dnsLabel r) eqn:Hm; [|done].
    apply dnsLabel_two in Hm. lia.
Qed.

Lemma validDNSLabel_regexRel : regexRel byteval dnsLabel validDNSLabel.
Proof.
  unfold dnsLabel, validDNSLabel.
  repeat first
    [ apply rel_class; intros a; first [apply labelUnit_byteval | reflexivity]
    | constructor ].
Qed.

Lemma validDNSLabel_bytes r :
  fullmatch validDNSLabel (byteval <$> r) = fullmatch dnsLabel r.
Proof. apply (regexRel_fullmatch byteval), validDNSLabel_regexRel. Qed.

Lemma len_bytes (r : gostring) : len (byteval <$> r) = len r.
Proof. unfold len. by rewrite length_fmap. Qed.

(** A GKE name has at least the four code units of its prefix. *)
Lemma isGKE_len name : isGKE name = true -> 4 <= len name.
Proof.
  unfold isGKE. intros [[Hp _]%andb_true_iff _]%andb_true_iff.
  apply hasPrefix_spec in Hp as [t ->]. unfold len. rewrite length_app. simpl. lia.
Qed.

Lemma makeDNSFriendly_GKE name : isGKE name = true -> makeDNSFriendly name = name.
Proof.
  intros Hgke. unfold makeDNSFriendly. rewrite Hgke.
  rewrite bool_decide_eq_false_2; [done|]. intros ->. done.
Qed.

End LabelFacts.

(** ** Client: makeDNSFriendly and validateContextName *)

(** X1.  The client's [makeDNSFriendly], on every non-empty name that is
    not a GKE name, whatever code units it is made of: the result is not
    empty, has at most 63 code units, consists of [[a-z0-9-]] only, starts
    and ends with a letter or digit, and has two hyphens in a row only when
    it is [x--x]. *)
Theorem makeDNSFriendly_client_label name :
  name <> [] -> JS.isGKE name = false ->
  JS.makeDNSFriendly name <> []
  /\ len (JS.makeDNSFriendly name) <= 63
  /\ Forall (fun u => JS.labelUnit u = true) (JS.makeDNSFriendly name)
  /\ JS.startsAlnum (JS.makeDNSFriendly name) = true
  /\ JS.endsAlnum (JS.makeDNSFriendly name) = true
  /\ (contains (JS.str "--") (JS.makeDNSFriendly name) = true ->
      JS.makeDNSFriendly name = JS.str "x--x").
Proof.
  intros Hne Hgke.
  destruct (ClientFacts.makeDNSFriendly_cases name Hne Hgke) as (r & -> & [->|[Hclean Hlen]]).
  { repeat split; try done. by repeat constructor. }
  destruct (ClientFacts.Clean_units r Hclean) as (Hlab & Hstart & Hend & Hdd).
  pose proof Hclean as (parts & Hp & Hw & Hr).
  split; [intros ?%fmap_nil_inv; by eapply (Clean_nonempty r)|].
  split; [by rewrite LabelFacts.len_bytes|].
  rewrite Hdd. by repeat split.
Qed.

Lemma makeDNSFriendly_client_label_witness :
  let name := JS.utf16 [0x4D; 0x79; 0x20; 0x6D4B; 0x8BD5; 0x2E; 0x43] in
  (name <> [] /\ JS.isGKE name = false)
  /\ JS.makeDNSFriendly name = JS.str "my-c"
  /\ len (JS.makeDNSFriendly name) <= 63.
Proof.
  intros name.
  assert (name <> []) as H1 by done.
  assert (JS.isGKE name = false) as H2 by reflexivity.
  split; [by split|]. split; [reflexivity|].
  exact (proj1 (proj2 (makeDNSFriendly_client_label name H1 H2))).
Defined.

(** X2.  The names that the client's [makeDNSFriendly] returns as they
    are, for which the dialog shows no "will be saved as" caption: the GKE
    names, and the names of at most 63 code units made of [[a-z0-9-]] that
    start and end with a letter or digit and have no two hyphens in a
    row. *)
Theorem makeDNSFriendly_client_fixed_points name :
  JS.makeDNSFriendly name = name
  <-> JS.isGKE name = true
      \/ (Forall (fun u => JS.labelUnit u = true) name
          /\ JS.startsAlnum name = true /\ JS.endsAlnum name = true
          /\ contains (JS.str "--") name = false /\ len name <= 63).
Proof.
  split.
  - intros Hfix. destruct (decide (name = [])) as [->|Hne]; [done|].
    destruct (JS.isGKE name) eqn:Hgke; [by left|]. right.
    destruct (ClientFacts.makeDNSFriendly_cases name Hne Hgke)
      as (r & Hr & [->|[Hclean Hlen]]).
    { rewrite Hfix in Hr. subst name. by vm_compute in Hfix. }
    rewrite Hfix in Hr. subst name.
    destruct (ClientFacts.Clean_units r Hclean) as (Hlab & Hstart & Hend & Hdd).
    rewrite LabelFacts.len_bytes. by repeat split.
  - intros [Hgke|(Hlab & Hstart & Hend & Hdd & Hlen)].
    + by apply LabelFacts.makeDNSFriendly_GKE.
    + destruct (ClientFacts.clean_units name Hlab Hstart Hend Hdd) as (r & -> & Hclean).
      apply ClientFacts.makeDNSFriendly_Clean_bytes; [done|].
      by rewrite LabelFacts.len_bytes in Hlen.
Qed.

(** X3.  [validateContextName] decides by the length of the canonical
    name alone: an empty name is rejected as empty; any other name is
    accepted when [makeDNSFriendly] returns at least two code units and
    rejected with the message about letters, numbers and hyphens when it
    returns one.  The answer that the name must be 63 characters or less
    is never given. *)
Theorem validateContextName_by_length name :
  Loader.validateContextName name
  = (if bool_decide (name = []) then
       {| Loader.isValid := false;
          Loader.message := Some "Context name cannot be empty"%string |}
     else if 2 <=? len (JS.makeDNSFriendly name) then
       {| Loader.isValid := true; Loader.message := None |}
     else
       {| Loader.isValid := false;
          Loader.message := Some "Context name must contain only lowercase letters, numbers, and hyphens, and must start and end with a letter or number"%string |})
  /\ Loader.message (Loader.validateContextName name)
     <> Some "Context name must be 63 characters or less"%string.
Proof.
  match goal with |- ?closed_form /\ _ => assert closed_form as Heq end.
  { unfold Loader.validateContextName. case_bool_decide as Hne; [done|].
    destruct (JS.isGKE name) eqn:Hgke.
    - rewrite LabelFacts.makeDNSFriendly_GKE by done.
      pose proof (LabelFacts.isGKE_len name Hgke).
      by replace (2 <=? len name) with true by lia.
    - destruct (ClientFacts.makeDNSFriendly_cases name Hne Hgke)
        as (r & -> & [->|[Hclean Hlen]]); [done|].
      cbv zeta. rewrite LabelFacts.len_bytes. unfold JS.MAX_DNS_LABEL_LENGTH.
      replace (len r >? 63) with false by lia.
      rewrite LabelFacts.validDNSLabel_bytes, LabelFacts.Clean_dnsLabel by done.
      by destruct (2 <=? len r). }
  split; [exact Heq|]. rewrite Heq.
  case_bool_decide; [done|]. by destruct (2 <=? len (JS.makeDNSFriendly name)).
Qed.

(** ** Objects used as maps *)

Module ObjectFacts.
Import JS Loader.
Section Facts.
Context {V : Type}.
Implicit Types (o : object V) (key k : jsstring) (v w : V).

Lemma overwrite_keys key v o : (overwrite key v o).*1 = o.*1.
Proof.
  induction o as [|[k w] o IH]; [done|]. simpl.
  destruct (decide (k = key)); simpl; [done|f_equal; apply IH].
Qed.

Lemma elem_of_overwrite key v o k w :
  (k, w) ∈ overwrite key v o -> (k = key /\ w = v) \/ (k, w) ∈ o.
Proof.
  induction o as [|[k' w'] o IH]; [by intros ?%elem_of_nil|]. simpl.
  destruct (decide (k' = key)) as [->|Hne].
  - intros [[= -> ->]|Hin]%elem_of_cons; [by left|]. right. by right.
  - intros [[= -> ->]|Hin]%elem_of_cons; [right; by left|].
    destruct (IH Hin) as [?|?]; [by left|]. right. by right.
Qed.

Lemma overwrite_other key v o k w :
  k <> key -> (k, w) ∈ o -> (k, w) ∈ overwrite key v o.
Proof.
  intros Hne. induction o as [|[k' w'] o IH]; [by intros ?%elem_of_nil|]. simpl.
  intros [[= <- <-]|Hin]%elem_of_cons.
  - rewrite decide_False by done. by left.
  - destruct (decide (k' = key)); right; auto.
Qed.

Lemma overwrite_own key v o : key ∈ o.*1 -> (key, v) ∈ overwrite key v o.
Proof.
  induction o as [|[k' w'] o IH]; [by intros ?%elem_of_nil|]. simpl.
  destruct (decide (k' = key)) as [->|Hne]; [intros _; by left|].
  intros [?|Hin]%elem_of_cons; [done|]. right. auto.
Qed.

Lemma insertIndexed_Permutation i key v o : insertIndexed i key v o ≡ₚ (key, v) :: o.
Proof.
  induction o as [|[k w] o IH]; [done|]. simpl.
  destruct (arrayIndex k) as [j|]; [|done].
  destruct (i <? j); [done|]. rewrite IH. apply Permutation_swap.
Qed.

Lemma elem_of_set key v o k w :
  (k, w) ∈ set key v o -> (k = key /\ w = v) \/ (k, w) ∈ o.
Proof.
  unfold set. case_bool_decide; [by right|].
  destruct (hasOwn key o) eqn:Hown; [apply elem_of_overwrite|].
  intros Hin.
  assert ((k, w) ∈ (key, v) :: o) as [[= -> ->]|?]%elem_of_cons; [|by left|by right].
  revert Hin. destruct (arrayIndex key) as [i|].
  - by rewrite insertIndexed_Permutation.
  - rewrite Permutation_app_comm. by simpl.
Qed.

Lemma set_other key v o k w : k <> key -> (k, w) ∈ o -> (k, w) ∈ set key v o.
Proof.
  intros Hne Hin. unfold set. case_bool_decide; [done|].
  destruct (hasOwn key o) eqn:Hown; [by apply overwrite_other|].
  destruct (arrayIndex key) as [i|].
  - rewrite insertIndexed_Permutation. by right.
  - apply elem_of_app. by left.
Qed.

Lemma set_own key v o : key <> str "__proto__" -> (key, v) ∈ set key v o.
Proof.
  intros Hproto. unfold set. rewrite bool_decide_eq_false_2 by done.
  destruct (hasOwn key o) eqn:Hown.
  - apply overwrite_own. by apply bool_decide_eq_true in Hown.
  - destruct (arrayIndex key) as [i|].
    + rewrite insertIndexed_Permutation. by left.
    + apply elem_of_app. right. by left.
Qed.

Lemma set_NoDup key v o : NoDup o.*1 -> NoDup (set key v o).*1.
Proof.
  intros Hnd. unfold set. case_bool_decide as Hproto; [done|].
  destruct (hasOwn key o) eqn:Hown; [by rewrite overwrite_keys|].
  apply bool_decide_eq_false in Hown.
  assert (NoDup ((key, v) :: o).*1) as Hnd' by (simpl; by constructor).
  destruct (arrayIndex key) as [i|].
  - by rewrite insertIndexed_Permutation.
  - rewrite fmap_app. simpl. apply NoDup_app. split; [done|].
    split; [|apply NoDup_singleton].
    intros k Hk ->%list_elem_of_singleton. done.
Qed.
End Facts.
End ObjectFacts.

(** ** The loader dialog *)

Module LoaderFacts.
Import JS Loader ObjectFacts.

Lemma find_Some_elem_of {A} (f : A -> bool) l x :
  List.find f l = Some x -> x ∈ l /\ f x = true.
Proof. intros [?%list_elem_of_In ?]%find_some. done. Qed.

Lemma set_keys_mono {V} key (v : V) o k : k ∈ o.*1 -> k ∈ (set key v o).*1.
Proof.
  intros [[k' w] [Hk Hin]]%list_elem_of_fmap. simpl in Hk. subst k'.
  apply list_elem_of_fmap.
  destruct (decide (k = key)) as [->|Hne].
  - destruct (decide (key = str "__proto__")) as [Hp|Hp].
    + exists (key, w). split; [done|]. unfold set. by rewrite bool_decide_eq_true_2.
    + exists (key, v). split; [done|]. by apply set_own.
  - exists (k, w). split; [done|]. by apply set_other.
Qed.

(** Entries stored under their own names: the names of the values are
    the keys. *)
Lemma names_of_values {V} (name : V -> jsstring) (o : object V) :
  Forall (fun kv => name kv.2 = kv.1) o -> name <$> o.*2 = o.*1.
Proof.
  induction 1 as [|[k w] o Hkw Ho IH]; [done|].
  rewrite !fmap_cons. simpl in Hkw. simpl. by rewrite Hkw, IH.
Qed.

Section Facts.
Context {Cluster User Context : Type}.
Variable cluster_name : Cluster -> jsstring.
Variable user_name : User -> jsstring.
Variable context_name : Context -> jsstring.
Variable context_cluster : Context -> jsstring.
Variable context_user : Context -> jsstring.

Local Abbreviation collect :=
  (Loader.collect cluster_name user_name context_name context_cluster context_user).
Local Abbreviation collectedOk :=
  (Loader.collectedOk cluster_name user_name context_name context_cluster).
Local Abbreviation selectedContext :=
  (Loader.selectedContext cluster_name context_name context_cluster).
Implicit Types (config : @Loader.kubeconfig Cluster User Context)
  (acc : @Loader.collected Cluster User Context).

Lemma collectedOk_set_cluster config (cluster : Cluster) o :
  cluster ∈ clusters config ->
  Forall (fun kv => cluster_name kv.2 = kv.1 /\ kv.2 ∈ clusters config
                    /\ kv.1 <> str "__proto__") o ->
  Forall (fun kv => cluster_name kv.2 = kv.1 /\ kv.2 ∈ clusters config
                    /\ kv.1 <> str "__proto__") (set (cluster_name cluster) cluster o).
Proof.
  intros Hin Ho. apply Forall_forall. intros [k w] Hkw.
  destruct (decide (cluster_name cluster = str "__proto__")) as [Hp|Hp].
  - unfold set in Hkw. rewrite bool_decide_eq_true_2 in Hkw by done.
    rewrite Forall_forall in Ho. by apply Ho.
  - apply elem_of_set in Hkw as [[-> ->]|Hkw]; [done|].
    rewrite Forall_forall in Ho. by apply Ho.
Qed.

Lemma collect_ok config selected acc clusterName :
  clusterName ∈ selected ->
  collectedOk config selected acc ->
  collectedOk config selected (collect config acc clusterName).
Proof.
  intros Hsel (Hnd & Hcl & Hndu & Hus & Hctx). unfold Loader.collect.
  destruct (List.find _ (contexts config)) as [context|] eqn:Hfc; [|done].
  apply find_Some_elem_of in Hfc as [Hcin Hcname%bool_decide_eq_true].
  destruct (List.find _ (clusters config)) as [cluster|] eqn:Hfk; [|done].
  apply find_Some_elem_of in Hfk as [Hkin Hkname%bool_decide_eq_true].
  unfold Loader.collectedOk. cbn [collectedClusters collectedUsers collectedContexts].
  split; [by apply set_NoDup|].
  split; [by apply collectedOk_set_cluster|].
  split.
  { destruct (users config ≫= _) as [user|]; [by apply set_NoDup|done]. }
  split.
  { destruct (users config) as [us|] eqn:Hu; [|done]. cbn [mbind option_bind].
    destruct (List.find _ us) as [user|] eqn:Hfu; [|done].
    apply find_Some_elem_of in Hfu as [Huin _].
    apply Forall_forall. intros [k w] [[-> ->]|Hkw]%elem_of_set; [eauto|].
    rewrite Forall_forall in Hus. by apply Hus. }
  apply Forall_app. split.
  - eapply Forall_impl; [exact Hctx|]. intros c (? & ? & Hc).
    split; [done|]. split; [done|]. intros Hp. by apply set_keys_mono, Hc.
  - constructor; [|done]. split; [done|]. split; [by rewrite Hcname|].
    intros Hp. rewrite <- Hkname in *. apply list_elem_of_fmap.
    exists (cluster_name cluster, cluster). split; [done|]. by apply set_own.
Qed.

Lemma foldl_collect_ok config selected names acc :
  names ⊆ selected ->
  collectedOk config selected acc ->
  collectedOk config selected (foldl (collect config) acc names).
Proof.
  revert acc. induction names as [|n names IH]; intros acc Hsub Hacc; [done|].
  simpl. apply IH.
  - intros x Hx. apply Hsub. by right.
  - apply collect_ok; [|done]. apply Hsub. by left.
Qed.

Lemma collectedOk_start config selected :
  collectedOk config selected
    {| collectedClusters := []; collectedUsers := []; collectedContexts := [] |}.
Proof. repeat split; simpl; constructor. Qed.

Lemma collect_contexts config acc clusterName :
  collectedContexts (collect config acc clusterName)
  = collectedContexts acc ++ option_list (selectedContext config clusterName).
Proof.
  unfold Loader.collect, Loader.selectedContext.
  destruct (List.find _ (contexts config)) as [context|];
    cbn [mbind option_bind option_list]; [|by rewrite app_nil_r].
  destruct (List.find _ (clusters config)) as [cluster|];
    cbn [mbind option_bind option_list]; [done|by rewrite app_nil_r].
Qed.

Lemma foldl_collect_contexts config names acc :
  collectedContexts (foldl (collect config) acc names)
  = collectedContexts acc ++ omap (selectedContext config) names.
Proof.
  revert acc. induction names as [|n names IH]; intros acc; simpl.
  - by rewrite app_nil_r.
  - rewrite IH, collect_contexts, <- app_assoc. f_equal.
    by destruct (selectedContext config n).
Qed.
End Facts.
End LoaderFacts.

(** ** Loader dialog: the kubeconfig that is sent, and the selection *)

Section LoaderProperties.
Context {Cluster User Context : Type}.
Variable cluster_name : Cluster -> JS.jsstring.
Variable user_name : User -> JS.jsstring.
Variable context_name : Context -> JS.jsstring.
Variable context_cluster : Context -> JS.jsstring.
Variable context_user : Context -> JS.jsstring.

Local Abbreviation configWithSelectedClusters :=
  (Loader.configWithSelectedClusters cluster_name user_name context_name
     context_cluster context_user).
Local Abbreviation selectedContext :=
  (Loader.selectedContext cluster_name context_name context_cluster).
Local Abbreviation fileContentEffect := (Loader.fileContentEffect context_name).
Local Abbreviation handleContextSelect :=
  (@Loader.handleContextSelect Cluster User Context).
Implicit Types (config : @Loader.kubeconfig Cluster User Context)
  (st : @Loader.component Cluster User Context).

Lemma configWithSelectedClusters_ok config selectedClusters :
  Loader.collectedOk cluster_name user_name context_name context_cluster
    config selectedClusters
    (foldl (Loader.collect cluster_name user_name context_name context_cluster
              context_user config)
       {| Loader.collectedClusters := []; Loader.collectedUsers := [];
          Loader.collectedContexts := [] |} selectedClusters).
Proof.
  apply LoaderFacts.foldl_collect_ok; [done|apply LoaderFacts.collectedOk_start].
Qed.

(** X4.  In the kubeconfig that [configWithSelectedClusters] returns,
    the cluster a context refers to is among the clusters, with one
    exception: a cluster called [__proto__] is never among them (assigning
    to that key of the collecting object creates no property), so a
    context that refers to it is returned with a dangling reference. *)
Theorem configWithSelectedClusters_cluster_of_context config selectedClusters context :
  context ∈ Loader.contexts (configWithSelectedClusters config selectedClusters) ->
  (exists cluster,
      cluster ∈ Loader.clusters (configWithSelectedClusters config selectedClusters)
      /\ cluster_name cluster = context_cluster context)
  <-> context_cluster context <> JS.str "__proto__".
Proof.
  intros Hin.
  destruct (configWithSelectedClusters_ok config selectedClusters)
    as (_ & Hcl & _ & _ & Hctx).
  unfold Loader.configWithSelectedClusters in *. cbv zeta in *.
  cbn [Loader.contexts Loader.clusters] in *. unfold Loader.values.
  rewrite Forall_forall in Hcl. rewrite Forall_forall in Hctx. split.
  - intros (cluster & [[k w] [-> Hkw]]%list_elem_of_fmap & Hname).
    destruct (Hcl _ Hkw) as (Hk & _ & Hp). simpl in *. congruence.
  - intros Hp. destruct (Hctx _ Hin) as (_ & _ & Hkey).
    apply Hkey in Hp as [[k w] [Hk Hkw]]%list_elem_of_fmap. simpl in Hk. subst k.
    exists w. split; [apply list_elem_of_fmap; by exists (context_cluster context, w)|].
    by destruct (Hcl _ Hkw).
Qed.

(** X5.  The clusters and users that [configWithSelectedClusters]
    returns are entries of the given kubeconfig, no two clusters and no
    two users have the same name, and no cluster is called [__proto__]. *)
Theorem configWithSelectedClusters_clusters_and_users config selectedClusters :
  NoDup (cluster_name <$> Loader.clusters (configWithSelectedClusters config selectedClusters))
  /\ Forall (fun c => c ∈ Loader.clusters config /\ cluster_name c <> JS.str "__proto__")
       (Loader.clusters (configWithSelectedClusters config selectedClusters))
  /\ exists us,
       Loader.users (configWithSelectedClusters config selectedClusters) = Some us
       /\ NoDup (user_name <$> us)
       /\ Forall (fun u => exists us0, Loader.users config = Some us0 /\ u ∈ us0) us.
Proof.
  destruct (configWithSelectedClusters_ok config selectedClusters)
    as (Hnd & Hcl & Hndu & Hus & _).
  unfold Loader.configWithSelectedClusters. cbv zeta.
  cbn [Loader.clusters Loader.users]. unfold Loader.values.
  set (acc := foldl _ _ _) in *.
  pose proof (@LoaderFacts.names_of_values) as Hnames.
  split; [|split].
  - rewrite Hnames; [done|]. eapply Forall_impl; [exact Hcl|]. by intros ? (? & _).
  - apply Forall_fmap. eapply Forall_impl; [exact Hcl|].
    intros [k w] (Hk & Hin & Hp). simpl in *. split; [done|]. congruence.
  - eexists. split; [done|]. split.
    + rewrite Hnames; [done|]. eapply Forall_impl; [exact Hus|]. by intros ? (? & _).
    + apply Forall_fmap. eapply Forall_impl; [exact Hus|]. by intros ? (_ & ?).
Qed.

(** X6.  The contexts that [configWithSelectedClusters] returns are, in
    the order of the selection and once for every time a name is listed,
    the first context of that name whose cluster the kubeconfig has; a
    name without such a context contributes nothing; and the current
    context is dropped. *)
Theorem configWithSelectedClusters_contexts config selectedClusters :
  Loader.contexts (configWithSelectedClusters config selectedClusters)
  = omap (selectedContext config) selectedClusters
  /\ Forall (fun c => c ∈ Loader.contexts config /\ context_name c ∈ selectedClusters)
       (Loader.contexts (configWithSelectedClusters config selectedClusters))
  /\ Loader.currentContext (configWithSelectedClusters config selectedClusters) = [].
Proof.
  destruct (configWithSelectedClusters_ok config selectedClusters)
    as (_ & _ & _ & _ & Hctx).
  unfold Loader.configWithSelectedClusters. cbv zeta.
  cbn [Loader.contexts Loader.currentContext].
  split; [by rewrite LoaderFacts.foldl_collect_contexts|]. split; [|done].
  eapply Forall_impl; [exact Hctx|]. by intros c (? & ? & _).
Qed.

(** An invalid name is left in the selection by every event. *)
Lemma handleContextSelect_keeps_invalid checked contextName name st :
  Loader.isValid (Loader.validateContextName name) = false ->
  name ∈ Loader.selectedClusters st ->
  name ∈ Loader.selectedClusters (handleContextSelect checked contextName st).
Proof.
  intros Hinvalid Hin. unfold Loader.handleContextSelect.
  destruct (Loader.isValid (Loader.validateContextName contextName)) eqn:Hvalid;
    cbn [negb Loader.selectedClusters]; [|done].
  assert (name <> contextName) as Hne by (intros ->; congruence).
  destruct checked.
  - apply elem_of_app. by left.
  - by apply list_elem_of_filter.
Qed.

(** X7.  When a file has been read, all its contexts are selected,
    whatever their names; [handleContextSelect] returns early on a name
    that [validateContextName] rejects.  So a context with such a name is
    selected from the start and stays selected through every sequence of
    check and uncheck events, on whatever names. *)
Theorem invalid_name_stays_selected st context (events : list (bool * JS.jsstring)) :
  context ∈ Loader.contexts (Loader.fileContent st) ->
  Loader.isValid (Loader.validateContextName (context_name context)) = false ->
  context_name context
  ∈ Loader.selectedClusters
      (foldl (fun st ev => handleContextSelect ev.1 ev.2 st)
         (fileContentEffect st) events).
Proof.
  intros Hin Hinvalid.
  assert (context_name context ∈ Loader.selectedClusters (fileContentEffect st)) as Hsel.
  { unfold Loader.fileContentEffect.
    destruct (Z.ltb_spec 0 (len (Loader.contexts (Loader.fileContent st)))) as [_|Hlen].
    - cbn [Loader.selectedClusters]. apply list_elem_of_fmap. eauto.
    - unfold len in Hlen. destruct (Loader.contexts (Loader.fileContent st));
        [by apply elem_of_nil in Hin|simpl in Hlen; lia]. }
  revert Hsel. generalize (fileContentEffect st).
  induction events as [|[checked contextName] events IH]; intros st' Hsel; [done|].
  simpl. apply IH. by apply handleContextSelect_keeps_invalid.
Qed.
End LoaderProperties.

Lemma configWithSelectedClusters_cluster_of_context_witness :
  let out :=
    Samples.configWithSelectedClusters Samples.config [JS.str "odd"; JS.str "prod-admin"] in
  (Samples.context "prod-admin" "prod" "admin" ∈ Loader.contexts out
   /\ exists cluster, cluster ∈ Loader.clusters out /\ cluster.1 = JS.str "prod")
  /\ (Samples.context "odd" "__proto__" "viewer" ∈ Loader.contexts out
      /\ ~ exists cluster, cluster ∈ Loader.clusters out /\ cluster.1 = JS.str "__proto__").
Proof.
  intros out.
  assert (Samples.context "prod-admin" "prod" "admin" ∈ Loader.contexts out) as H1
    by (apply (bool_decide_unpack _); by vm_compute).
  assert (Samples.context "odd" "__proto__" "viewer" ∈ Loader.contexts out) as H2
    by (apply (bool_decide_unpack _); by vm_compute).
  split; (split; [assumption|]).
  - apply (configWithSelectedClusters_cluster_of_context fst fst fst
             (fun c => c.2.1) (fun c => c.2.2) Samples.config _ _ H1).
    by vm_compute.
  - intros H.
    apply (configWithSelectedClusters_cluster_of_context fst fst fst
             (fun c => c.2.1) (fun c => c.2.2) Samples.config _ _ H2) in H.
    by apply H.
Defined.

Lemma invalid_name_stays_selected_witness :
  let events := [(false, JS.str "a"); (false, JS.str "prod-admin"); (true, JS.str "a")] in
  (Samples.context "a" "dev" "admin" ∈ Loader.contexts (Loader.fileContent Samples.loaded)
   /\ Loader.isValid (Loader.validateContextName (JS.str "a")) = false)
  /\ JS.str "a"
     ∈ Loader.selectedClusters
         (foldl (fun st ev => Loader.handleContextSelect ev.1 ev.2 st)
            (Loader.fileContentEffect fst Samples.loaded) events).
Proof.
  intros events.
  assert (Samples.context "a" "dev" "admin"
          ∈ Loader.contexts (Loader.fileContent Samples.loaded)) as H1
    by (apply (bool_decide_unpack _); by vm_compute).
  assert (Loader.isValid (Loader.validateContextName (JS.str "a")) = false) as H2
    by reflexivity.
  split; [by split|].
  exact (invalid_name_stays_selected fst Samples.loaded
           (Samples.context "a" "dev" "admin") events H1 H2).
Defined.

(** ** Runes and bytes under [strings.Map] *)

Module RuneFacts.
Import Go Spec GoFacts Canonical.

Lemma lor_ge_l a b : 0 <= a -> 0 <= b -> 128 <= a -> 128 <= Z.lor a b.
Proof.
  intros Ha Hb H.
  assert (7 <= Z.log2 a) as Hla by (apply Z.log2_le_pow2; lia).
  assert (7 <= Z.log2 (Z.lor a b)) as Hl by (rewrite Z.log2_lor by lia; lia).
  assert (0 <= Z.lor a b) as Hnn by (apply Z.lor_nonneg; lia).
  destruct (decide (Z.lor a b = 0)) as [H0|H0]; [rewrite H0 in Hl; simpl in Hl; lia|].
  apply (Z.log2_le_pow2 (Z.lor a b) 7); lia.
Qed.

Lemma lor_ge_r a b : 0 <= a -> 0 <= b -> 128 <= b -> 128 <= Z.lor a b.
Proof. intros. rewrite Z.lor_comm. by apply lor_ge_l. Qed.

Lemma land_low b n k : 0 <= b -> 0 <= n -> k = Z.ones n -> 0 <= Z.land b k /\ Z.land b k = b mod 2 ^ n.
Proof.
  intros Hb Hn ->. split; [apply Z.land_nonneg; lia|]. by apply Z.land_ones.
Qed.

Lemma leadInfo_inv b0 sz lo hi :
  leadInfo b0 = Some (sz, lo, hi) ->
  0x80 <= lo /\ hi <= 0xBF
  /\ ((sz = 2%nat /\ 0xC2 <= b0 <= 0xDF)
      \/ (sz = 3%nat /\ (0xE1 <= b0 <= 0xEF \/ (b0 = 0xE0 /\ lo = 0xA0)))
      \/ (sz = 4%nat /\ (0xF1 <= b0 <= 0xF4 \/ (b0 = 0xF0 /\ lo = 0x90)))).
Proof.
  unfold leadInfo, inRange. repeat case_match; intros [= <- <- <-]; lia.
Qed.

(** A sequence that starts with a byte outside ASCII decodes to a rune
    outside ASCII, and the bytes it takes besides the first are outside
    ASCII too. *)
Lemma decodeRune_high c0 t0 r w :
  0x80 <= byteval c0 -> decodeRune (c0 :: t0) = (r, w) ->
  128 <= r /\ (1 <= w)%nat /\ Forall (fun c => 0x80 <= byteval c) (take (w - 1) t0).
Proof.
  intros Hc0. unfold decodeRune. replace (byteval c0 <? 0x80) with false by lia.
  assert (forall r w, (RuneError, 1%nat) = (r, w) ->
            128 <= r /\ (1 <= w)%nat /\ Forall (fun c => 0x80 <= byteval c) (take (w - 1) t0))
    as Herr.
  { intros ? ? [= <- <-]. split; [by vm_compute|]. split; [lia|]. simpl. constructor. }
  pose proof (byteval_range c0) as Hr0.
  destruct (leadInfo (byteval c0)) as [[[sz lo] hi]|] eqn:Hlead; [|apply Herr].
  apply leadInfo_inv in Hlead as (Hlo & Hhi & Hsz).
  destruct t0 as [|c1 t1]; [apply Herr|].
  pose proof (byteval_range c1) as Hr1.
  destruct (inRange lo hi (byteval c1)) eqn:H1; cbn [negb]; [|apply Herr].
  unfold inRange in H1.
  destruct (land_low (byteval c1) 6 0x3F) as [Hn1 Hm1]; [lia|lia|done|].
  destruct (Nat.leb_spec sz 2) as [Hs2|Hs2].
  { intros [= <- <-]. split; [|split; [lia|]].
    - destruct (land_low (byteval c0) 5 0x1F) as [Hn0 Hm0]; [lia|lia|done|].
      apply lor_ge_l; [apply Z.shiftl_nonneg; lia|lia|].
      rewrite Z.shiftl_mul_pow2, Hm0 by lia.
      change (2 ^ 5) with 32. change (2 ^ 6) with 64.
      assert (0xC2 <= byteval c0 <= 0xDF) as Hb by lia.
      Z.div_mod_to_equations. lia.
    - simpl. constructor; [lia|]. by rewrite take_0. }
  destruct t1 as [|c2 t2]; [apply Herr|].
  pose proof (byteval_range c2) as Hr2.
  destruct (inRange 0x80 0xBF (byteval c2)) eqn:H2; cbn [negb]; [|apply Herr].
  unfold inRange in H2.
  destruct (land_low (byteval c2) 6 0x3F) as [Hn2 Hm2]; [lia|lia|done|].
  destruct (Nat.leb_spec sz 3) as [Hs3|Hs3].
  { intros [= <- <-]. split; [|split; [lia|]].
    - destruct (land_low (byteval c0) 4 0x0F) as [Hn0 Hm0]; [lia|lia|done|].
      assert (0 <= Z.shiftl (Z.land (byteval c1) 0x3F) 6) by (apply Z.shiftl_nonneg; lia).
      assert (0 <= Z.lor (Z.shiftl (Z.land (byteval c1) 0x3F) 6) (Z.land (byteval c2) 0x3F))
        by (apply Z.lor_nonneg; lia).
      assert (0 <= Z.shiftl (Z.land (byteval c0) 0x0F) 12) by (apply Z.shiftl_nonneg; lia).
      assert (sz = 3%nat) as -> by lia.
      destruct Hsz as [[? _]|[[_ [Hb|[Hb ->]]]|[? _]]]; try lia.
      + apply lor_ge_l; [lia|lia|].
        rewrite Z.shiftl_mul_pow2, Hm0 by lia.
        change (2 ^ 4) with 16. change (2 ^ 12) with 4096.
        Z.div_mod_to_equations. lia.
      + apply lor_ge_r; [lia|lia|]. apply lor_ge_l; [lia|lia|].
        rewrite Z.shiftl_mul_pow2, Hm1 by lia.
        change (2 ^ 6) with 64. Z.div_mod_to_equations. lia.
    - simpl. constructor; [lia|]. constructor; [lia|]. by rewrite take_0. }
  destruct t2 as [|c3 t3]; [apply Herr|].
  pose proof (byteval_range c3) as Hr3.
  destruct (inRange 0x80 0xBF (byteval c3)) eqn:H3; cbn [negb]; [|apply Herr].
  unfold inRange in H3.
  intros [= <- <-]. split; [|split; [lia|]].
  - destruct (land_low (byteval c0) 3 0x07) as [Hn0 Hm0]; [lia|lia|done|].
    destruct (land_low (byteval c3) 6 0x3F) as [Hn3 Hm3]; [lia|lia|done|].
    assert (0 <= Z.shiftl (Z.land (byteval c2) 0x3F) 6) by (apply Z.shiftl_nonneg; lia).
    assert (0 <= Z.shiftl (Z.land (byteval c1) 0x3F) 12) by (apply Z.shiftl_nonneg; lia).
    assert (0 <= Z.shiftl (Z.land (byteval c0) 0x07) 18) by (apply Z.shiftl_nonneg; lia).
    assert (0 <= Z.lor (Z.shiftl (Z.land (byteval c2) 0x3F) 6) (Z.land (byteval c3) 0x3F))
      by (apply Z.lor_nonneg; lia).
    assert (0 <= Z.lor (Z.shiftl (Z.land (byteval c1) 0x3F) 12)
                   (Z.lor (Z.shiftl (Z.land (byteval c2) 0x3F) 6) (Z.land (byteval c3) 0x3F)))
      by (apply Z.lor_nonneg; lia).
    destruct Hsz as [[? _]|[[? _]|[_ [Hb|[Hb ->]]]]]; try lia.
    + apply lor_ge_l; [lia|lia|].
      rewrite Z.shiftl_mul_pow2, Hm0 by lia.
      change (2 ^ 3) with 8. change (2 ^ 18) with 262144.
      Z.div_mod_to_equations. lia.
    + apply lor_ge_r; [lia|lia|]. apply lor_ge_l; [lia|lia|].
      rewrite Z.shiftl_mul_pow2, Hm1 by lia.
      change (2 ^ 6) with 64. change (2 ^ 12) with 4096.
      Z.div_mod_to_equations. lia.
  - simpl. repeat (constructor; [lia|]). by rewrite take_0.
Qed.

Lemma sanitizeRune_high r : 128 <= r -> sanitizeRune r = chr "-".
Proof.
  intros Hr. unfold sanitizeRune, unicode_ToLower, inRange. chr_values.
  repeat case_match; lia.
Qed.

Lemma isAlphanumeric_high r : 128 <= r -> isAlphanumeric r = false.
Proof. intros Hr. unfold isAlphanumeric. chr_values. lia. Qed.

(** What [strings.Map] makes of one ASCII byte is a hyphen exactly when
    the byte is no letter and no digit. *)
Lemma sanitizeByte_hyphen c :
  byteval c < 0x80 ->
  (sanitizeByte c = "-"%char <-> isAlphanumeric (byteval c) = false).
Proof.
  destruct c as [[] [] [] [] [] [] [] []]; intros Hc; try (by vm_compute in Hc);
    vm_compute; split; congruence.
Qed.

Lemma MapFrom_hyphens s skip :
  Forall (fun c => 0x80 <= byteval c) (take skip s) ->
  Forall (fun c => c = "-"%char) (MapFrom sanitizeRune skip s)
  <-> Forall (fun c => isAlphanumeric (byteval c) = false) s.
Proof.
  revert skip. induction s as [|c s IH]; intros skip Hskip; [done|].
  cbn [MapFrom]. destruct skip as [|k].
  - destruct (decodeRune (c :: s)) as [r w] eqn:Hd.
    pose proof (sanitizeRune_range r) as Hr. simpl in Hr.
    replace (sanitizeRune r <? 0) with false by lia.
    rewrite encodeRune_ascii by lia. cbn [app]. rewrite !Forall_cons.
    destruct (Z.ltb_spec (byteval c) 0x80) as [Hlow|Hhigh].
    + unfold decodeRune in Hd. replace (byteval c <? 0x80) with true in Hd by lia.
      injection Hd as <- <-. change (1 - 1)%nat with 0%nat.
      rewrite (IH 0%nat) by (rewrite take_0; constructor).
      by rewrite <- (sanitizeByte_hyphen c Hlow).
    + destruct (decodeRune_high c s r w Hhigh Hd) as (Hr128 & Hw & Hrest).
      rewrite (IH (w - 1)%nat) by done.
      rewrite sanitizeRune_high, isAlphanumeric_high by lia.
      split; intros [_ ?]; split; done.
  - rewrite firstn_cons in Hskip. apply Forall_cons in Hskip as [Hc Hskip].
    rewrite (IH k) by done. rewrite Forall_cons, isAlphanumeric_high by lia.
    tauto.
Qed.

Lemma Map_hyphens s :
  Forall (fun c => c = "-"%char) (Map sanitizeRune s)
  <-> Forall (fun c => isAlphanumeric (byteval c) = false) s.
Proof. apply MapFrom_hyphens. rewrite take_0. constructor. Qed.

(** The replacement of one byte holds a letter or digit exactly when the
    byte is a letter or digit or one of [=], [+], [@], [*]. *)
Lemma substTable_word c :
  Forall (fun c => isAlphanumeric (byteval c) = false) (substTable replacements c)
  <-> leavesWord c = false.
Proof.
  assert (forallb (fun c => negb (isAlphanumeric (byteval c))) (substTable replacements c)
          = negb (leavesWord c)) as Hb
    by (destruct c as [[] [] [] [] [] [] [] []]; by vm_compute).
  rewrite <- negb_true_iff, <- Hb, forallb_forall, Forall_forall.
  split; intros H x Hx.
  - apply negb_true_iff, H. by apply list_elem_of_In.
  - apply negb_true_iff, H. by apply list_elem_of_In.
Qed.

Lemma trim_nil {A} (cut : A -> bool) (s : list A) :
  trim cut s = [] <-> Forall (fun c => cut c = true) s.
Proof.
  split.
  - intros Ht. destruct (trim_split cut s) as (pre & post & Hs & Hpre & Hpost).
    rewrite Ht in Hs. rewrite Hs. simpl. by apply Forall_app.
  - unfold trim. induction 1 as [|c s Hc Hs IH]; [done|]. simpl. by rewrite Hc.
Qed.

Lemma squeezeFrom_all {A} `{EqDecision A} (d : A) b (s : list A) :
  Forall (fun c => c = d) (squeezeFrom d b s) <-> Forall (fun c => c = d) s.
Proof.
  revert b. induction s as [|x s IH]; intros b; [done|]. cbn [squeezeFrom].
  destruct (decide (x = d)) as [->|Hne].
  - destruct b; rewrite ?Forall_cons, IH; tauto.
  - rewrite !Forall_cons, IH. tauto.
Qed.

(** Nothing is left of a name after the cleaning exactly when none of its
    bytes leaves a letter or digit. *)
Lemma cleaned_nil name :
  trim isHyphen (squeeze "-"%char (Map sanitizeRune (applyReplacements replacements name))) = []
  <-> Forall (fun c => leavesWord c = false) name.
Proof.
  rewrite trim_nil.
  assert (forall s, Forall (fun c => isHyphen c = true) s <-> Forall (fun c => c = "-"%char) s)
    as Hh.
  { intros s. apply Forall_iff. intros c. unfold isHyphen. apply bool_decide_eq_true. }
  rewrite Hh. unfold squeeze. rewrite squeezeFrom_all, Map_hyphens.
  rewrite applyReplacements_subst, Forall_bind.
  apply Forall_iff. intros c. apply substTable_word.
Qed.

End RuneFacts.

(** ** Clean names and the patterns, both ways *)

Module CanonicalFacts.
Import Go Spec GoFacts Canonical.

Lemma dnsLabelOrSingle_Clean r :
  fullmatch dnsLabelOrSingle r = true -> contains (str "--") r = false -> Clean r.
Proof.
  intros Hm Hdd. apply fullmatch_spec in Hm.
  apply lang_seq_inv in Hm as (s1 & s2 & -> & (a & -> & Ha)%lang_class_inv & Hs2).
  assert (Forall (fun c => labelChar c = true) s2
          /\ exists l, last ([a] ++ s2) = Some l /\ lowerAlnum l = true) as [Hlab (l & Hl & Hlal)].
  { inversion Hs2 as [| | |? ? ? Heps|? ? ? Hrest| |]; subst.
    - inversion Heps; subst. split; [constructor|]. by exists a.
    - apply lang_seq_inv in Hrest as (mid & s3 & -> & Hmid%lang_star_class
                                      & (b & -> & Hb)%lang_class_inv).
      split.
      + apply Forall_app. split; [done|]. constructor; [|done].
        by apply lowerAlnum_labelChar.
      + exists b. split; [|done]. by rewrite app_assoc, last_snoc. }
  apply Clean_intro; [done| | | |done].
  - constructor; [by apply lowerAlnum_labelChar|done].
  - intros c [= <-]. by apply lowerAlnum_not_hyphen.
  - intros c Hc. rewrite Hl in Hc. injection Hc as <-. by apply lowerAlnum_not_hyphen.
Qed.

Lemma isGKE_fullmatch name : isGKE name = fullmatch gkePattern name.
Proof.
  destruct (fullmatch gkePattern name) eqn:Hm; [by apply gkePattern_isGKE|].
  unfold isGKE. by rewrite Hm, andb_false_r.
Qed.

Lemma MakeDNSFriendlyWith_GKE order name :
  isGKE name = true -> MakeDNSFriendlyWith order name = Some name.
Proof.
  intros Hgke. unfold MakeDNSFriendlyWith. rewrite Hgke.
  rewrite bool_decide_eq_false_2; [done|]. by intros ->.
Qed.

(** The two outcomes of a name that is not empty and no GKE name, with
    what is left of it after the cleaning. *)
Lemma MakeDNSFriendly_cleaned name :
  name <> [] -> isGKE name = false ->
  let t := trim isHyphen
             (squeeze "-"%char (Map sanitizeRune (applyReplacements replacements name))) in
  (t = [] /\ MakeDNSFriendly name = Some (str "x--x"))
  \/ (Clean t /\ exists r, MakeDNSFriendly name = Some r /\ Clean r /\ len r <= 63).
Proof.
  intros Hne Hgke t. unfold MakeDNSFriendly, MakeDNSFriendlyWith.
  rewrite bool_decide_eq_false_2, Hgke by done.
  destruct (cleanup_cases replacements name) as [[Ht Hc]|[Hclean Hc]]; fold t in Ht || fold t in Hclean.
  - left. split; [done|]. by rewrite Hc.
  - right. split; [done|]. fold t in Hc. rewrite Hc. cbn [mbind option_bind].
    destruct (truncate_Clean t Hclean) as (r & -> & Hr & Hlen).
    cbn [mbind option_bind]. exists r.
    destruct Hr as (parts & Hp & Hw & Hj).
    rewrite bool_decide_eq_false_2 by (by eapply Clean_nonempty).
    split; [done|]. split; [by exists parts|done].
Qed.

End CanonicalFacts.

(** ** Server: what MakeDNSFriendly returns *)

Import Canonical.

(** X8.  [MakeDNSFriendly] returns on every name, in whatever order the
    replacement map is visited, and never the empty string: the loop that
    removes double hyphens ends, and none of [result[0]],
    [result[len(result)-1]] and the slices [[:1]] of [truncateParts] is
    out of range. *)
Theorem MakeDNSFriendly_returns order name :
  exists r, MakeDNSFriendlyWith order name = Some r /\ r <> [].
Proof.
  destruct (decide (name = [])) as [->|Hne]; [by eexists|].
  destruct (isGKE name) eqn:Hgke.
  - exists name. split; [|done]. by apply CanonicalFacts.MakeDNSFriendlyWith_GKE.
  - destruct (MakeDNSFriendlyWith_spec order name Hne Hgke) as (r & Hr & Hcases).
    exists r. split; [done|]. destruct Hcases as [->|[(parts & Hp & Hw & Hj) _]]; [done|].
    by eapply Clean_nonempty.
Qed.

(** X9.  The names that [MakeDNSFriendly] returns as they are: the GKE
    names, and the names of at most 63 bytes that match
    [^[a-z0-9]([a-z0-9-]*[a-z0-9])?$] and have no two hyphens in a row.
    Every other name is changed. *)
Theorem MakeDNSFriendly_fixed_points name :
  MakeDNSFriendly name = Some name
  <-> fullmatch gkePattern name = true
      \/ (fullmatch dnsLabelOrSingle name = true
          /\ contains (str "--") name = false /\ len name <= 63).
Proof.
  split.
  - intros Hfix. destruct (decide (name = [])) as [->|Hne]; [done|].
    rewrite <- CanonicalFacts.isGKE_fullmatch.
    destruct (isGKE name) eqn:Hgke; [by left|]. right.
    destruct (MakeDNSFriendlyWith_spec replacements name Hne Hgke)
      as (r & Hr & Hcases).
    unfold MakeDNSFriendly in Hfix. rewrite Hfix in Hr. injection Hr as <-.
    destruct Hcases as [->|[Hclean Hlen]]; [done|].
    split; [by apply Clean_dnsLabelOrSingle|]. split; [by apply Clean_no_dd|done].
  - intros [Hgke|(Hm & Hdd & Hlen)].
    + apply CanonicalFacts.MakeDNSFriendlyWith_GKE. by apply gkePattern_isGKE.
    + apply MakeDNSFriendly_Clean; [|done]. by apply CanonicalFacts.dnsLabelOrSingle_Clean.
Qed.

(** X10.  The doc comment of [MakeDNSFriendly] promises a result without
    consecutive hyphens.  For a name that is no GKE name, the result has
    two hyphens in a row exactly when it is [x--x]. *)
Theorem MakeDNSFriendly_consecutive_hyphens name r :
  fullmatch gkePattern name = false ->
  MakeDNSFriendly name = Some r ->
  contains (str "--") r = true <-> r = str "x--x".
Proof.
  intros Hgke Hr. rewrite <- CanonicalFacts.isGKE_fullmatch in Hgke.
  destruct (decide (name = [])) as [->|Hne].
  { injection Hr as <-. split; [by vm_compute|done]. }
  destruct (MakeDNSFriendlyWith_spec replacements name Hne Hgke) as (r' & Hr' & Hcases).
  unfold MakeDNSFriendly in Hr. rewrite Hr in Hr'. injection Hr' as <-.
  destruct Hcases as [->|[Hclean _]]; [done|].
  rewrite (Clean_no_dd r Hclean). split; [done|]. intros ->.
  by apply Clean_no_dd in Hclean.
Qed.

Lemma MakeDNSFriendly_consecutive_hyphens_witness :
  (fullmatch gkePattern (utf8 [0x6D4B; 0x8BD5]) = false
   /\ MakeDNSFriendly (utf8 [0x6D4B; 0x8BD5]) = Some (str "x--x"))
  /\ contains (str "--") (str "x--x") = true.
Proof.
  assert (fullmatch gkePattern (utf8 [0x6D4B; 0x8BD5]) = false) as H1 by reflexivity.
  assert (MakeDNSFriendly (utf8 [0x6D4B; 0x8BD5]) = Some (str "x--x")) as H2 by reflexivity.
  split; [by split|].
  exact (proj2 (MakeDNSFriendly_consecutive_hyphens _ _ H1 H2) eq_refl).
Defined.

(** X11.  [MakeDNSFriendly] returns [x--x] exactly for the non-empty
    names in which no byte is an ASCII letter or digit or one of [=], [+],
    [@], [*] (whose replacements contain letters): names made of
    punctuation, spaces and characters outside ASCII only.  All these
    names get the same canonical name. *)
Theorem MakeDNSFriendly_nothing_left name :
  MakeDNSFriendly name = Some (str "x--x")
  <-> name <> [] /\ Forall (fun c => leavesWord c = false) name.
Proof.
  split.
  - intros Hr. destruct (decide (name = [])) as [->|Hne]; [done|]. split; [done|].
    destruct (isGKE name) eqn:Hgke.
    { unfold MakeDNSFriendly in Hr.
      rewrite (CanonicalFacts.MakeDNSFriendlyWith_GKE replacements name Hgke) in Hr.
      injection Hr as ->. by vm_compute in Hgke. }
    destruct (CanonicalFacts.MakeDNSFriendly_cleaned name Hne Hgke)
      as [[Ht _]|[_ (r & Hr' & Hclean & _)]].
    + by apply RuneFacts.cleaned_nil.
    + rewrite Hr in Hr'. injection Hr' as <-. by apply Clean_no_dd in Hclean.
  - intros [Hne Hall].
    assert (isGKE name = false) as Hgke.
    { unfold isGKE. destruct (hasPrefix (str "gke_") name) eqn:Hp; [|done].
      apply hasPrefix_spec in Hp as [t ->]. by apply Forall_cons in Hall as [? _]. }
    destruct (CanonicalFacts.MakeDNSFriendly_cleaned name Hne Hgke)
      as [[_ Hr]|[Hclean _]]; [done|].
    apply RuneFacts.cleaned_nil in Hall. rewrite Hall in Hclean.
    destruct Hclean as (parts & Hp & Hw & Hj).
    by destruct (Clean_nonempty [] parts Hp Hw Hj).
Qed.

(** X12.  Idempotence holds from the second application on: what
    [MakeDNSFriendly] makes of one of its own results is a name that it
    returns unchanged. *)
Theorem MakeDNSFriendly_twice_is_stable name r r' :
  MakeDNSFriendly name = Some r ->
  MakeDNSFriendly r = Some r' ->
  MakeDNSFriendly r' = Some r'.
Proof.
  intros Hr Hr'. destruct (decide (r = str "x--x")) as [->|Hx].
  - injection Hr' as <-. by vm_compute.
  - rewrite (MakeDNSFriendly_fixed name r Hr Hx) in Hr'. injection Hr' as <-.
    by apply (MakeDNSFriendly_fixed name).
Qed.

Lemma MakeDNSFriendly_twice_is_stable_witness :
  (MakeDNSFriendly (str "...") = Some (str "x--x")
   /\ MakeDNSFriendly (str "x--x") = Some (str "x-x"))
  /\ MakeDNSFriendly (str "x-x") = Some (str "x-x").
Proof.
  assert (MakeDNSFriendly (str "...") = Some (str "x--x")) as H1 by reflexivity.
  assert (MakeDNSFriendly (str "x--x") = Some (str "x-x")) as H2 by reflexivity.
  split; [by split|].
  exact (MakeDNSFriendly_twice_is_stable _ _ _ H1 H2).
Defined.

(** X13.  In both implementations the two tests that guard the GKE
    pattern, the prefix [gke_] and the number of underscores, never
    decide: a name passes the whole GKE test exactly when it matches the
    pattern. *)
Theorem GKE_guards_are_implied :
  (forall name, isGKE name = fullmatch gkePattern name)
  /\ (forall name, JS.isGKE name = fullmatch JS.gkeRegex name).
Proof.
  split; [apply CanonicalFacts.isGKE_fullmatch|].
  intros name. destruct (fullmatch JS.gkeRegex name) eqn:Hm;
    [|unfold JS.isGKE; by rewrite Hm, andb_false_r].
  unfold JS.isGKE. rewrite Hm, andb_true_r.
  apply fullmatch_spec in Hm. unfold JS.gkeRegex in Hm.
  apply lang_seq_inv in Hm as (p0 & r0 & -> & ->%lang_lit & Hm).
  apply lang_seq_inv in Hm as (s1 & r1 & -> & _ & Hm).
  apply lang_seq_inv in Hm as (u1 & r2 & -> & ->%lang_lit & Hm).
  apply lang_seq_inv in Hm as (s2 & r3 & -> & _ & Hm).
  apply lang_seq_inv in Hm as (u2 & s3 & -> & ->%lang_lit & _).
  apply andb_true_iff. split; [apply hasPrefix_app|].
  change (JS.str "_") with [chr "_"]. unfold len.
  rewrite length_split, count_char, !filter_app, !length_app.
  assert (length (filter (fun x => x = chr "_") (JS.str "gke_")) = 1%nat) as -> by done.
  assert (length (filter (fun x => x = chr "_") [chr "_"]) = 1%nat) as -> by done.
  apply Z.geb_le. lia.
Qed.

(** ** Server: truncateParts on arbitrary parts *)




(** ** Server and client on ASCII names *)

Lemma makeDNSFriendly_agree_ascii_witness :
  let name := str "arn:aws:eks:*:123456789012:cluster/My Cluster" in
  Forall isASCII name
  /\ exists r, MakeDNSFriendly name = Some r
       /\ JS.makeDNSFriendly (byteval <$> name) = byteval <$> r.
Proof.
  intros name.
  assert (Forall isASCII name) as H by (apply (bool_decide_unpack _); by vm_compute).
  split; [exact H|]. exact (makeDNSFriendly_agree_ascii name H).
Defined.

(** ** Context store: names, aliasing, and enumeration *)

Section ContextStoreProperties.
Context {Object JSONErr : Type}.
Variable json_Marshal : Object -> result JSONErr gostring.
Variable json_Unmarshal : gostring -> result JSONErr CustomObject.

Local Abbreviation AddContext := (Store.AddContext json_Marshal json_Unmarshal).
Local Abbreviation effectiveName := (Store.effectiveName json_Marshal json_Unmarshal).
Local Abbreviation GetContexts := (@Store.GetContexts Object JSONErr).
Local Abbreviation GetContext := (@Store.GetContext Object JSONErr).

(** X17.  [AddContext] on a context whose extension decodes (or that has
    none): with [raw] the custom name if one is set and the context's
    [Name] otherwise, the context is stored under
    [MakeDNSFriendly(raw)], that name is written into the caller's object,
    whose other fields stay as they are, [GetContext] on the name returns
    the context, and no other object and no other key is touched. *)
Theorem AddContext_stores_under_canonical_name (now : Z) p st ctx raw :
  heap st !! p = Some ctx ->
  effectiveName ctx = Ok raw ->
  exists name st',
    MakeDNSFriendly raw = Some name
    /\ AddContext p st = Some (Ok (), st')
    /\ GetContext now name st' = Ok p
    /\ heap st' !! p = Some (setName name ctx)
    /\ (forall q, q <> p -> heap st' !! q = heap st !! q)
    /\ (forall key, key <> name -> GetContext now key st' = GetContext now key st).
Proof.
  intros Hp Hraw. destruct (MakeDNSFriendly_total raw) as [name Hname].
  exists name. eexists. split; [done|].
  split; [by eapply AddContext_Ok|]. cbn [heap cache].
  unfold Store.GetContext, cache_Get, cache_Set. cbn [cache].
  split; [by rewrite lookup_insert_eq|].
  split; [by rewrite lookup_insert_eq|].
  split.
  - intros q Hq. by rewrite lookup_insert_ne.
  - intros key Hkey. by rewrite lookup_insert_ne.
Qed.

Lemma effectiveName_setName key ctx raw :
  effectiveName ctx = Ok raw ->
  effectiveName (setName key ctx) = Ok raw
  \/ effectiveName (setName key ctx) = Ok key.
Proof.
  unfold Store.effectiveName, headlampInfo. cbn [KubeContext setName Name].
  destruct (KubeContext ctx ≫= _) as [info|]; [|intros [= <-]; by right].
  destruct (decodeInfo json_Marshal json_Unmarshal info) as [obj|err]; [|done].
  case_bool_decide as Hcustom; intros [= <-]; [by left|by right].
Qed.

(** X18.  Adding a context that the store has just added changes
    nothing, provided its canonical name is not [x--x]: the second
    [AddContext] on the same object succeeds and leaves heap and cache as
    the first one left them. *)
Theorem AddContext_again p st st1 ctx1 :
  AddContext p st = Some (Ok (), st1) ->
  heap st1 !! p = Some ctx1 ->
  Name ctx1 <> str "x--x" ->
  AddContext p st1 = Some (Ok (), st1).
Proof.
  intros Hadd Hctx1 Hx.
  apply (AddContext_inv json_Marshal json_Unmarshal) in Hadd
    as (ctx & raw & key & Hp & Hraw & Hkey & ->).
  cbn [heap] in Hctx1. rewrite lookup_insert_eq in Hctx1. injection Hctx1 as <-.
  cbn [Name setName] in Hx.
  assert (exists raw', effectiveName (setName key ctx) = Ok raw'
                       /\ MakeDNSFriendly raw' = Some key) as (raw' & Hraw' & Hkey').
  { destruct (effectiveName_setName key ctx raw Hraw) as [H|H].
    - by exists raw.
    - exists key. split; [done|]. by eapply MakeDNSFriendly_fixed. }
  rewrite (AddContext_Ok json_Marshal json_Unmarshal p _ (setName key ctx) raw' key);
    [|by cbn [heap]; rewrite lookup_insert_eq|done|done].
  cbn [heap cache]. unfold cache_Set. by rewrite !insert_insert_eq.
Qed.

(** X19.  [GetContexts] returns exactly the contexts that [GetContext]
    finds under some key at the same time: a context stored under a key
    whose entry has expired is in neither, a context stored under a live
    key is in both. *)
Theorem GetContexts_GetContext (now : Z) st p :
  exists l, GetContexts now st = Ok l
    /\ (p ∈ l <-> exists key, GetContext now key st = Ok p).
Proof.
  eexists. split; [done|].
  unfold Store.GetContext, cache_Get, cache_GetAll.
  rewrite list_elem_of_fmap. split.
  - intros ([key q] & -> & Hin%elem_of_map_to_list). simpl.
    apply lookup_fmap_Some in Hin as (e & <- & [He Hlive]%map_lookup_filter_Some).
    exists key. rewrite He. simpl in Hlive. by rewrite Hlive.
  - intros (key & Hget).
    destruct (cache st !! key) as [e|] eqn:He; [|done].
    destruct (isExpired now e) eqn:Hlive; [done|]. injection Hget as <-.
    exists (key, value e). split; [done|]. apply elem_of_map_to_list.
    apply lookup_fmap_Some. exists e. split; [done|].
    by apply map_lookup_filter_Some.
Qed.
End ContextStoreProperties.

Lemma AddContext_stores_under_canonical_name_witness :
  heap Examples.st0 !! 1%positive = Some (Examples.plain (str "My Cluster"))
  /\ Store.effectiveName Examples.marshal Examples.unmarshal
       (Examples.plain (str "My Cluster")) = Ok (str "My Cluster")
  /\ exists name st',
      MakeDNSFriendly (str "My Cluster") = Some name
      /\ Store.AddContext Examples.marshal Examples.unmarshal 1%positive Examples.st0
         = Some (Ok (), st')
      /\ Store.GetContext (JSONErr:=string) 0 name st' = Ok 1%positive.
Proof.
  split; [reflexivity|]. split; [reflexivity|].
  destruct (AddContext_stores_under_canonical_name Examples.marshal Examples.unmarshal 0
              1%positive Examples.st0 (Examples.plain (str "My Cluster")) (str "My Cluster")
              eq_refl eq_refl)
    as (name & st' & Hname & Hadd & Hget & _).
  by exists name, st'.
Defined.

Lemma AddContext_again_witness :
  let st1 :=
    {| heap := <[1%positive := setName (str "my-cluster") (Examples.plain (str "My Cluster"))]>
                 (heap Examples.st0);
       cache := cache_Set (str "my-cluster") 1%positive (cache Examples.st0) |} in
  (Store.AddContext Examples.marshal Examples.unmarshal 1%positive Examples.st0
   = Some (Ok (), st1)
   /\ heap st1 !! 1%positive
      = Some (setName (str "my-cluster") (Examples.plain (str "My Cluster")))
   /\ Name (setName (str "my-cluster") (Examples.plain (str "My Cluster"))) <> str "x--x")
  /\ Store.AddContext Examples.marshal Examples.unmarshal 1%positive st1 = Some (Ok (), st1).
Proof.
  intros st1.
  assert (Store.AddContext Examples.marshal Examples.unmarshal 1%positive Examples.st0
          = Some (Ok (), st1)) as H1 by reflexivity.
  assert (heap st1 !! 1%positive
          = Some (setName (str "my-cluster") (Examples.plain (str "My Cluster")))) as H2
    by reflexivity.
  assert (Name (setName (str "my-cluster") (Examples.plain (str "My Cluster")))
          <> str "x--x") as H3 by done.
  split; [by repeat split|].
  exact (AddContext_again Examples.marshal Examples.unmarshal 1%positive Examples.st0 st1
           _ H1 H2 H3).
Defined.

(** Where the canonical name is [x--x], the second [AddContext] on the
    same object finds the name [x--x] in it, turns it into [x-x], and
    stores the object a second time. *)
Example AddContext_again_hyphen :
  let st : State bool :=
    {| heap := {[ 1%positive := Examples.plain (str "-") ]}; cache := ∅ |} in
  exists st1 st2 l,
    Store.AddContext Examples.marshal Examples.unmarshal 1%positive st = Some (Ok (), st1)
    /\ Store.AddContext Examples.marshal Examples.unmarshal 1%positive st1 = Some (Ok (), st2)
    /\ Name <$> heap st2 !! 1%positive = Some (str "x-x")
    /\ Store.GetContext (JSONErr:=string) 0 (str "x--x") st2 = Ok 1%positive
    /\ Store.GetContext (JSONErr:=string) 0 (str "x-x") st2 = Ok 1%positive
    /\ Store.GetContexts (JSONErr:=string) 0 st2 = Ok l /\ length l = 2%nat.
Proof. intros st. do 3 eexists. repeat split; reflexivity. Qed.

(** ** Plugin configuration: versions *)

Module PluginFacts.
Import JS Plugins.

Lemma lang_within {A} (P : A -> Prop) (r : regex A) s :
  classesWithin P r -> lang r s -> Forall P s.
Proof.
  intros Hr Hl. induction Hl; simpl in Hr; try done.
  - constructor; [auto|done].
  - apply Forall_app. split; [apply IHHl1|apply IHHl2]; tauto.
  - apply IHHl. tauto.
  - apply IHHl. tauto.
  - apply Forall_app. split; [by apply IHHl1|by apply IHHl2].
Qed.

Lemma isDigit_ident u : isDigit u = true -> isIdentUnit u = true.
Proof. unfold isDigit, isIdentUnit. by intros ->. Qed.

Lemma versionPattern_within :
  classesWithin (fun u => isVersionUnit u = true) versionPattern.
Proof.
  assert (forall u, isIdentUnit u = true -> isVersionUnit u = true) as Hi
    by (intros u Hu; unfold isVersionUnit; by rewrite Hu).
  assert (forall u, isDigit u = true -> isVersionUnit u = true) as Hd
    by (intros u Hu; by apply Hi, isDigit_ident).
  assert (forall c u, isVersionUnit c = true -> bool_decide (u = c) = true ->
                      isVersionUnit u = true) as Hl
    by (by intros c u Hc ->%bool_decide_eq_true).
  unfold versionPattern, optional, Plus. simpl.
  repeat split; try done; try (intros u; by apply (Hl (chr "."))).
  - intros u. by apply (Hl (chr "-")).
  - intros u. by apply (Hl (chr "+")).
Qed.

Lemma count_dot_app (s1 s2 : jsstring) :
  count (str ".") (s1 ++ str "." ++ s2) = S (count (str ".") s1 + count (str ".") s2).
Proof.
  change (str ".") with [chr "."]. rewrite !count_char, !filter_app, !length_app.
  assert (length (filter (fun x => x = chr ".") [chr "."]) = 1%nat) as -> by done.
  lia.
Qed.
End PluginFacts.

(** X20.  A version that [isValidVersion] accepts is [latest], or it is
    made of letters, digits, hyphens, dots and plus signs only, starts
    with a digit and has at least two dots: no space, no slash, no leading
    [v]. *)
Theorem isValidVersion_shape version :
  Plugins.isValidVersion version = true ->
  version = JS.str "latest"
  \/ (Forall (fun u => Plugins.isVersionUnit u = true) version
      /\ (exists d rest, version = d :: rest /\ Plugins.isDigit d = true)
      /\ (2 <= count (JS.str ".") version)%nat).
Proof.
  unfold Plugins.isValidVersion. case_bool_decide as Hlatest; [by left|].
  intros Hm%fullmatch_spec. right.
  split.
  { apply (PluginFacts.lang_within _ Plugins.versionPattern); [|done].
    apply PluginFacts.versionPattern_within. }
  unfold Plugins.versionPattern in Hm.
  apply lang_seq_inv in Hm as (major & s1 & -> & [Hne Hmajor]%lang_plus_class & Hm).
  apply lang_seq_inv in Hm as (dot1 & s2 & -> & ->%lang_lit & Hm).
  apply lang_seq_inv in Hm as (minor & s3 & -> & _ & Hm).
  apply lang_seq_inv in Hm as (dot2 & s4 & -> & ->%lang_lit & _).
  split.
  - destruct major as [|d major]; [done|]. exists d. eexists. split; [done|].
    by apply Forall_cons in Hmajor as [? _].
  - rewrite PluginFacts.count_dot_app.
    rewrite (PluginFacts.count_dot_app minor). lia.
Qed.

Lemma isValidVersion_shape_witness :
  Plugins.isValidVersion (JS.str "1.24.0-rc.1+build.7") = true
  /\ (JS.str "1.24.0-rc.1+build.7" = JS.str "latest"
      \/ (Forall (fun u => Plugins.isVersionUnit u = true) (JS.str "1.24.0-rc.1+build.7")
          /\ (exists d rest, JS.str "1.24.0-rc.1+build.7" = d :: rest
                             /\ Plugins.isDigit d = true)
          /\ (2 <= count (JS.str ".") (JS.str "1.24.0-rc.1+build.7"))%nat)).
Proof.
  split; [reflexivity|].
  exact (isValidVersion_shape (JS.str "1.24.0-rc.1+build.7") eq_refl).
Defined.

Section PluginProperties.
Context {Plugin : Type}.
Variable name : Plugin -> JS.jsstring.
Variable version : Plugin -> option JS.jsstring.

Local Abbreviation validateVersions := (Plugins.validateVersions name version).
Local Abbreviation rejectsVersion := (Plugins.rejectsVersion name version).

(** X21.  [validateVersions] goes through the plugins in order and
    throws at the first one whose version is present, not the empty
    string, and not accepted by [isValidVersion]; the message names that
    plugin and that version.  A plugin without a version, or with the
    empty string for one, is never rejected. *)
Theorem validateVersions_first_invalid plugins :
  match validateVersions plugins with
  | None =>
      Forall (fun plugin =>
                version plugin = None \/ version plugin = Some []
                \/ exists v, version plugin = Some v /\ Plugins.isValidVersion v = true)
        plugins
  | Some message =>
      exists before plugin after v,
        plugins = before ++ plugin :: after
        /\ validateVersions before = None
        /\ version plugin = Some v /\ v <> []
        /\ Plugins.isValidVersion v = false
        /\ message = JS.str "Invalid version for plugin " ++ name plugin ++ JS.str ": " ++ v
  end.
Proof.
  induction plugins as [|plugin plugins IH]; [constructor|].
  cbn [Plugins.validateVersions].
  destruct (rejectsVersion plugin) as [message|] eqn:Hrej.
  - unfold Plugins.rejectsVersion in Hrej.
    destruct (version plugin) as [v|] eqn:Hv; [|done].
    destruct (negb (bool_decide (v = [])) && negb (Plugins.isValidVersion v)) eqn:Hc; [|done].
    injection Hrej as <-. apply andb_true_iff in Hc as [Hne Hinv].
    apply negb_true_iff in Hne, Hinv. apply bool_decide_eq_false in Hne.
    by exists [], plugin, plugins, v.
  - destruct (validateVersions plugins) as [message|] eqn:Hrest.
    + destruct IH as (before & p & after & v & -> & Hbefore & Hv & Hne & Hinv & ->).
      exists (plugin :: before), p, after, v. repeat split; try done.
      cbn [Plugins.validateVersions]. by rewrite Hrej.
    + constructor; [|done]. unfold Plugins.rejectsVersion in Hrej.
      destruct (version plugin) as [v|]; [|by left]. right.
      destruct (decide (v = [])) as [->|Hne]; [by left|]. right.
      exists v. split; [done|].
      rewrite bool_decide_eq_false_2 in Hrej by done. simpl in Hrej.
      by destruct (Plugins.isValidVersion v).
Qed.
End PluginProperties.

(** ** Batch installation *)

Section InstallerProperties.
Context {World Plugin Config Error : Type}.
Variable plugin_name : Plugin -> JS.jsstring.
Variable config_plugins : Config -> list Plugin.
Variable error_message : Error -> JS.jsstring.
Variable logger_info : JS.jsstring -> World -> World.
Variable logger_error : JS.jsstring -> World -> World.
Variable validateConfig : JS.jsstring -> World -> (Config + Error) * World.
Variable installPlugin : Plugin -> World -> option Error * World.

Local Abbreviation installEach :=
  (Installer.installEach plugin_name error_message logger_info logger_error installPlugin).
Local Abbreviation installFromConfig :=
  (Installer.installFromConfig plugin_name config_plugins error_message
     logger_info logger_error validateConfig installPlugin).

Lemma installEach_names plugins results w :
  Installer.resultName <$> (installEach plugins results w).1
  = (Installer.resultName <$> results) ++ (plugin_name <$> plugins).
Proof.
  revert results w. induction plugins as [|plugin plugins IH]; intros results w.
  - simpl. by rewrite app_nil_r.
  - cbn [Installer.installEach].
    destruct (installPlugin plugin _) as [[err|] w']; rewrite IH, fmap_app, <- app_assoc; done.
Qed.

Lemma status_cases (results : list Installer.installResult) :
  (length (filter (fun r => Installer.resultStatus r = Installer.success) results)
   + length (filter (fun r => Installer.resultStatus r = Installer.error) results))%nat
  = length results.
Proof.
  induction results as [|r results IH]; [done|].
  rewrite !filter_cons. destruct (Installer.resultStatus r) eqn:Hs.
  - rewrite decide_True, decide_False by done. simpl. lia.
  - rewrite decide_False, decide_True by done. simpl. lia.
Qed.

(** X22.  [installFromConfig] rejects only when [validateConfig] throws,
    and then with that error.  Otherwise it resolves, whatever happens to
    the single installations, to one result for every plugin of the
    configuration, in the order of the configuration and under the
    plugin's name; and the two counts of the summary, of the results with
    status [success] and with status [error], add up to the number of
    plugins. *)
Theorem installFromConfig_one_result_per_plugin configPath w :
  match validateConfig configPath
          (logger_info (JS.str "Loading plugin configuration from " ++ configPath) w) with
  | (inl config, _) =>
      exists results,
        (installFromConfig configPath w).1 = inl results
        /\ Installer.resultName <$> results = plugin_name <$> config_plugins config
        /\ (length (filter (fun r => Installer.resultStatus r = Installer.success) results)
            + length (filter (fun r => Installer.resultStatus r = Installer.error) results))%nat
           = length (config_plugins config)
  | (inr err, _) => (installFromConfig configPath w).1 = inr err
  end.
Proof.
  unfold Installer.installFromConfig. cbv zeta.
  destruct (validateConfig configPath _) as [[config|err] w1]; [|done].
  pose proof (installEach_names (config_plugins config) [] w1) as Hnames.
  destruct (installEach (config_plugins config) [] w1) as [results w2].
  exists results. split; [done|]. split; [done|].
  rewrite status_cases. simpl in Hnames.
  by rewrite <- (length_fmap Installer.resultName), Hnames, length_fmap.
Qed.
End InstallerProperties.
